(** * Sentiment pipeline (Node.js): PII redaction, binning, ingestion

    A shallow embedding of [processor.js] (analyzeText), of the ingestion
    and display handlers of [index.js] and [routes/sentiment.js], and the
    properties the specification states about them.

    Conventions of the embedding.
    - A JavaScript string is a sequence of code units.  Every class of the
      two regular expressions of the processor is ASCII, so a code unit is
      modelled by an [ascii]; the units above 127 stand for all non-ASCII
      units (none of them is a digit, a word character or a member of a
      class, with or without the [i] flag).
    - A JavaScript number is NaN, an infinity or a rational; the sum and
      the product of two numbers are rounded to the nearest double.
    - An object used as a dictionary is the finite map of its own keys,
      read through [Object.prototype]; an array is the list of its
      elements.
    - A handler is a function from the request, the events of the uploaded
      stream and the database to what it sent, what it stored and the
      error that escaped it. *)

From Stdlib Require Import Ascii String DecimalString QArith Qround Qpower Lqa.
From stdpp Require Import gmap strings list.

Local Open Scope char_scope.

(** ** JavaScript numbers

    The finite numbers are rationals, kept in lowest terms so that equal
    numbers are equal terms.  [add] and [mul] are the exact sum and
    product; [plus] and [times] round them to the nearest double, as [+]
    and [*] do.  The counters of the histogram are integers below 2^53,
    whose sum with one is a double: they are added with [add].  The two
    zeros are one number: [Math.round], [Math.max] and [Math.min] give a
    zero for a zero, and both zeros are the index 0 of an array.  The
    doubles are the
    numbers [binary64] leaves as they are; what is shown for every
    rational holds for every double. *)
Module JSNumber.
Local Open Scope Q_scope.

Inductive number : Type :=
  | NaN
  | PosInf
  | NegInf
  | Fin (q : Q).

Definition of_Z (z : Z) : number := Fin (inject_Z z).
Definition of_nat (n : nat) : number := of_Z (Z.of_nat n).

(** The exact sum. *)
Definition add (x y : number) : number :=
  match x, y with
  | NaN, _ | _, NaN => NaN
  | PosInf, NegInf | NegInf, PosInf => NaN
  | PosInf, _ | _, PosInf => PosInf
  | NegInf, _ | _, NegInf => NegInf
  | Fin a, Fin b => Fin (Qred (a + b))
  end.

Definition sign_inf (positive : bool) : number :=
  if positive then PosInf else NegInf.

(** An infinity times a finite number. *)
Definition mul_inf (positive : bool) (a : Q) : number :=
  match a ?= 0 with
  | Eq => NaN
  | Gt => sign_inf positive
  | Lt => sign_inf (negb positive)
  end.

(** The exact product. *)
Definition mul (x y : number) : number :=
  match x, y with
  | NaN, _ | _, NaN => NaN
  | PosInf, PosInf | NegInf, NegInf => PosInf
  | PosInf, NegInf | NegInf, PosInf => NegInf
  | PosInf, Fin a | Fin a, PosInf => mul_inf true a
  | NegInf, Fin a | Fin a, NegInf => mul_inf false a
  | Fin a, Fin b => Fin (Qred (a * b))
  end.

(** *** The doubles

    The finite doubles are the rationals [m * 2^e] with [|m| < 2^53] and
    [-1074 <= e <= 971]; the two zeros are one.  The result of [+] and of
    [*] on doubles is the exact result rounded to the nearest double, a tie
    going to the double with the even significand, and to an infinity from
    [2^1024] on. *)

Definition pow2 (e : Z) : Q := 2 ^ e.

(** The integer nearest to a rational, a tie going to the even one. *)
Definition round_half_even (x : Q) : Z :=
  let f := Qfloor x in
  match Qcompare (x - inject_Z f) (1 # 2) with
  | Lt => f
  | Gt => (f + 1)%Z
  | Eq => if Z.even f then f else (f + 1)%Z
  end.

(** [floor (log2 x)] of a positive [x]: the [l] with [2^l <= x < 2^(l+1)]. *)
Definition ilog2 (x : Q) : Z :=
  let k := (Z.log2 (Qnum x) - Z.log2 (Z.pos (Qden x)))%Z in
  if Qle_bool (pow2 k) x then k else (k - 1)%Z.

(** The exponent of the last of the 53 bits of a positive [x], not below
    that of the subnormal doubles. *)
Definition exponent (x : Q) : Z := Z.max (ilog2 x - 52) (-1074).

(** The multiple of [2^exponent] nearest to a positive [x]. *)
Definition nearest (x : Q) : Q :=
  inject_Z (round_half_even (x / pow2 (exponent x))) * pow2 (exponent x).

Definition nearest_double (x : Q) : number :=
  if Qle_bool (pow2 1024) (nearest x) then PosInf else Fin (Qred (nearest x)).

(** [-x] *)
Definition negate (x : number) : number :=
  match x with
  | NaN => NaN
  | PosInf => NegInf
  | NegInf => PosInf
  | Fin q => Fin (Qred (- q))
  end.

(** The double nearest to a rational. *)
Definition binary64 (x : Q) : number :=
  match Qcompare x 0 with
  | Eq => Fin 0
  | Gt => nearest_double x
  | Lt => negate (nearest_double (- x))
  end.

Definition rounded (x : number) : number :=
  match x with
  | Fin q => binary64 q
  | _ => x
  end.

(** [x + y] and [x * y] on doubles. *)
Definition plus (x y : number) : number := rounded (add x y).
Definition times (x y : number) : number := rounded (mul x y).


(** [Math.round] on a rational: the nearest integer, a tie going up. *)
Definition round_half_up (a : Q) : Z := Qfloor (a + (1 # 2)).

(** [Math.round(x)] *)
Definition Math_round (x : number) : number :=
  match x with
  | Fin a => of_Z (round_half_up a)
  | _ => x
  end.

(** [Math.max(x, y)] *)
Definition Math_max (x y : number) : number :=
  match x, y with
  | NaN, _ | _, NaN => NaN
  | PosInf, _ | _, PosInf => PosInf
  | NegInf, z | z, NegInf => z
  | Fin a, Fin b => if Qle_bool a b then Fin b else Fin a
  end.

(** [Math.min(x, y)] *)
Definition Math_min (x y : number) : number :=
  match x, y with
  | NaN, _ | _, NaN => NaN
  | NegInf, _ | _, NegInf => NegInf
  | PosInf, z | z, PosInf => z
  | Fin a, Fin b => if Qle_bool a b then Fin a else Fin b
  end.

(** The array index a number denotes as a property key: an integer from 0
    to 2^32 - 2.  Any other number names a property that is no element. *)
Definition array_index (x : number) : option nat :=
  match x with
  | Fin a =>
      let i := Qfloor a in
      if Qeq_bool a (inject_Z i) && (0 <=? i)%Z && (i <? 2 ^ 32 - 1)%Z
      then Some (Z.to_nat i) else None
  | _ => None
  end.

(** [a[k]++] on the elements of an array: element [k] becomes its value
    plus one; a [k] past the end extends the array, the new element being
    [undefined + 1], that is NaN (the holes before it are shown as NaN as
    well); a [k] that is no array index leaves the elements alone. *)
Definition increment (a : list number) (k : number) : list number :=
  match array_index k with
  | Some i =>
      match a !! i with
      | Some v => <[i := add v (of_Z 1)]> a
      | None => a ++ replicate (i - length a)%nat NaN ++ [NaN]
      end
  | None => a
  end.

(** The sum of the elements. *)
Definition sum (a : list number) : number := foldr add (of_Z 0) a.

End JSNumber.

(** ** Regular expressions of the processor

    The processor uses two patterns, both a sequence of quantified
    character classes and word-boundary assertions:
<<
      /[a-z0-9._%+-]+@[a-z0-9.-]+\.[a-z]{2,}/gi
      /\b\d{3}[-.]?\d{3}[-.]?\d{4}\b/g
>>
    The matcher below is the backtracking matcher of ECMAScript restricted
    to that fragment: greedy quantifiers over one-character atoms. *)
Module RegExp.

Inductive class_item : Type :=
  | Range (lo hi : ascii)      (* a-z *)
  | Chr (c : ascii)            (* a literal character *)
  | Digit.                     (* \d *)

Inductive node : Type :=
  | Class (items : list class_item) (min : nat) (max : option nat)
  | WordBoundary.

Record regexp : Type := RegExpLiteral {
  source : list node;
  ignoreCase : bool            (* the i flag *)
}.

Definition code (c : ascii) : N := N_of_ascii c.

Definition in_range (lo hi c : ascii) : bool :=
  (code lo <=? code c)%N && (code c <=? code hi)%N.

Definition is_digit (c : ascii) : bool := in_range "0" "9" c.
Definition is_upper (c : ascii) : bool := in_range "A" "Z" c.
Definition is_lower (c : ascii) : bool := in_range "a" "z" c.

(** [\w] is [A-Za-z0-9_]. *)
Definition is_word_char (c : ascii) : bool :=
  is_upper c || is_lower c || is_digit c || Ascii.eqb c "_".

(** Canonicalize of ECMAScript (non-unicode mode): the upper-case form of
    the code unit, unless that would map a non-ASCII unit to an ASCII one.
    Only the ASCII letters are mapped here: the classes of the patterns
    are ASCII, and no other unit has the canonical form of an ASCII one. *)
Definition canonicalize (ic : bool) (c : ascii) : ascii :=
  if ic && is_lower c then ascii_of_N (code c - 32) else c.

(** The other letter of a case pair: the only other code unit with the same
    canonical form as [c]. *)
Definition swap_case (c : ascii) : ascii :=
  if is_lower c then ascii_of_N (code c - 32)
  else if is_upper c then ascii_of_N (code c + 32)
  else c.

Definition item_matches (ic : bool) (it : class_item) (c : ascii) : bool :=
  match it with
  | Range lo hi => in_range lo hi c || (ic && in_range lo hi (swap_case c))
  | Chr a => Ascii.eqb (canonicalize ic a) (canonicalize ic c)
  | Digit => is_digit c
  end.

Definition class_matches (ic : bool) (items : list class_item) (c : ascii) : bool :=
  existsb (fun it => item_matches ic it c) items.

(** [IsWordChar(e)]: the positions before the first and after the last code
    unit are not word characters. *)
Definition is_word (c : option ascii) : bool :=
  match c with Some a => is_word_char a | None => false end.

Definition at_boundary (prev next : option ascii) : bool :=
  xorb (is_word prev) (is_word next).

Definition dec_max (max : option nat) : option nat :=
  match max with Some n => Some (Nat.pred n) | None => None end.

Definition can_repeat (max : option nat) : bool :=
  match max with Some 0 => false | _ => true end.

(** RepeatMatcher for a greedy quantifier over a one-character atom: first
    try one more repetition, then the continuation [k].  The result is the
    number of code units the match consumes from [s]; [prev] is the code
    unit before [s]. *)
Fixpoint repeat_matcher (test : ascii -> bool)
    (k : option ascii -> list ascii -> option nat)
    (min : nat) (max : option nat) (prev : option ascii) (s : list ascii)
    {struct s} : option nat :=
  let stop := match min with 0 => k prev s | S _ => None end in
  match s with
  | c :: s' =>
      if test c && can_repeat max then
        match repeat_matcher test k (Nat.pred min) (dec_max max) (Some c) s' with
        | Some n => Some (S n)
        | None => stop
        end
      else stop
  | [] => stop
  end.

Fixpoint match_nodes (ic : bool) (ns : list node)
    (prev : option ascii) (s : list ascii) {struct ns} : option nat :=
  match ns with
  | [] => Some 0
  | Class items min max :: ns' =>
      repeat_matcher (class_matches ic items) (match_nodes ic ns') min max prev s
  | WordBoundary :: ns' =>
      if at_boundary prev (head s) then match_nodes ic ns' prev s else None
  end.

(** The match of [re] that starts exactly at the current position, if any,
    as its length. *)
Definition match_here (re : regexp) (prev : option ascii) (s : list ascii)
    : option nat :=
  match_nodes (ignoreCase re) (source re) prev s.

(** [String.prototype.replace] with a global pattern and a replacement
    string without [$]: scan from the left; at a position where the pattern
    matches, emit the replacement and resume after the match (one unit
    further after an empty match); elsewhere copy the unit.  [skip] counts
    the units of the current match still to be dropped. *)
Fixpoint replace_from (re : regexp) (repl : list ascii) (skip : nat)
    (prev : option ascii) (s : list ascii) {struct s} : list ascii :=
  match skip with
  | S k =>
      match s with
      | [] => []
      | c :: s' => replace_from re repl k (Some c) s'
      end
  | 0 =>
      match match_here re prev s with
      | Some n =>
          repl ++
          match s with
          | [] => []
          | c :: s' =>
              match n with
              | 0 => c :: replace_from re repl 0 (Some c) s'
              | S k => replace_from re repl k (Some c) s'
              end
          end
      | None =>
          match s with
          | [] => []
          | c :: s' => c :: replace_from re repl 0 (Some c) s'
          end
      end
  end.

Definition replace_list (re : regexp) (repl : list ascii) (s : list ascii)
    : list ascii :=
  replace_from re repl 0 None s.

Definition replace (re : regexp) (repl : string) (s : string) : string :=
  string_of_list_ascii
    (replace_list re (list_ascii_of_string repl) (list_ascii_of_string s)).

(** The same scan over [s] when [s] is the rest of a text and [prev] the
    code unit before it. *)
Definition replace_after (re : regexp) (repl : string) (prev : ascii)
    (s : string) : string :=
  string_of_list_ascii
    (replace_from re (list_ascii_of_string repl) 0 (Some prev)
       (list_ascii_of_string s)).

End RegExp.

(** ** processor.js *)
Module Processor.
Import RegExp JSNumber.
Local Open Scope string_scope.

(** [/[a-z0-9._%+-]+@[a-z0-9.-]+\.[a-z]{2,}/gi] *)
Definition EMAIL_RE : regexp :=
  RegExpLiteral
    [ Class [Range "a" "z"; Range "0" "9"; Chr "."; Chr "_"; Chr "%"; Chr "+"; Chr "-"]
        1 None;
      Class [Chr "@"] 1 (Some 1);
      Class [Range "a" "z"; Range "0" "9"; Chr "."; Chr "-"] 1 None;
      Class [Chr "."] 1 (Some 1);
      Class [Range "a" "z"] 2 None ]
    true.

(** [/\b\d{3}[-.]?\d{3}[-.]?\d{4}\b/g] *)
Definition PHONE_RE : regexp :=
  RegExpLiteral
    [ WordBoundary;
      Class [Digit] 3 (Some 3);
      Class [Chr "-"; Chr "."] 0 (Some 1);
      Class [Digit] 3 (Some 3);
      Class [Chr "-"; Chr "."] 0 (Some 1);
      Class [Digit] 4 (Some 4);
      WordBoundary ]
    false.

(** STAGE 1 of analyzeText: the e-mail pass, then the phone pass. *)
Definition redact (text : string) : string :=
  replace PHONE_RE "[PHONE]" (replace EMAIL_RE "[EMAIL]" text).

(** The length of the e-mail address the pattern finds at the very start
    of [s], if it finds one there. *)
Definition email_at (s : string) : option nat :=
  match_here EMAIL_RE None (list_ascii_of_string s).

(** The phone number at the start of [s], after the code unit [prev]. *)
Definition phone_at (prev : option ascii) (s : string) : option nat :=
  match_here PHONE_RE prev (list_ascii_of_string s).

(** No e-mail address starts at a position of [pre] in [pre ++ rest]. *)
Fixpoint no_email_starts_in (pre rest : string) : bool :=
  match pre with
  | EmptyString => true
  | String c pre' =>
      match email_at (pre ++ rest) with
      | Some _ => false
      | None => no_email_starts_in pre' rest
      end
  end.

(** The result of [polarity_scores] of the vader-sentiment package, an
    external collaborator: only its interface is fixed here. *)
Record intensity : Type := Intensity {
  neg : number;
  neu : number;
  pos : number;
  compound : number
}.

Class SentimentIntensityAnalyzer : Type := {
  polarity_scores : string -> intensity
}.

Record analysis : Type := Analysis {
  score : number;
  redacted : string
}.

(** [analyzeText]; its argument is a string at every call of the pipeline,
    so the guard [!text || typeof text !== 'string'] is [text === ''] here. *)
Definition analyzeText `{SentimentIntensityAnalyzer} (text : string) : analysis :=
  if String.eqb text "" then {| score := of_Z 0; redacted := "" |}
  else
    let redacted := redact text in
    let intensity := polarity_scores redacted in
    {| score := compound intensity; redacted := redacted |}.

End Processor.

(** ** The ingestion and display routes *)
Module Routes.
Import JSNumber Processor.
Local Open Scope string_scope.

(** *** Requests, the uploaded file, the database *)

(** [String.prototype.toLowerCase] on the code units below 256. *)
Definition lower_unit (c : ascii) : ascii :=
  let n := N_of_ascii c in
  if ((65 <=? n) && (n <=? 90) || (192 <=? n) && (n <=? 214)
      || (216 <=? n) && (n <=? 222))%N
  then ascii_of_N (n + 32) else c.

Fixpoint toLowerCase (s : string) : string :=
  match s with
  | EmptyString => EmptyString
  | String c s' => String (lower_unit c) (toLowerCase s')
  end.

(** [v || d] for a string or undefined [v]: the empty string is falsy. *)
Definition or_else (v : option string) (d : string) : string :=
  match v with
  | Some s => if String.eqb s "" then d else s
  | None => d
  end.

(** A row as csv-parser emits it: header and cell, in header order. *)
Definition row : Type := list (string * string).

(** How the parsed stream ends: the [end] event, or an [error] event
    (malformed CSV, failure of the underlying read). *)
Inductive stream_end : Type :=
  | StreamEnd
  | StreamError (message : string).

(** The upload multer stored, with the events its parsed stream will
    emit, the exception, if any, that setting the stream up throws, and
    the exception, if any, that [fs.unlinkSync] throws when the upload is
    removed. *)
Record file : Type := File {
  path : string;
  setup_error : option string;
  rows : list row;
  ending : stream_end;
  unlink_error : option string
}.

Record body : Type := Body {
  post_column : option string;
  chart_title : option string
}.

Record request : Type := Request {
  req_file : option file;
  req_body : body
}.

(** A row of the table [sentiment_aggregates]. *)
Record aggregate : Type := Aggregate {
  id : Z;
  project_title : string;
  bin_values : list number
}.

(** The database: its table, the last id it assigned, and the error with
    which it currently rejects every query, if any. *)
Record database : Type := Database {
  table : list aggregate;
  last_id : Z;
  failure : option string
}.

(** [INSERT INTO sentiment_aggregates (project_title, bin_n1_0, ...) VALUES (?, ...)] *)
Definition execute_insert (db : database) (title : string) (bins : list number)
    : string + database * Z :=
  match failure db with
  | Some message => inl message
  | None =>
      let insertId := (last_id db + 1)%Z in
      inr ({| table := table db ++ [Aggregate insertId title bins];
              last_id := insertId;
              failure := None |}, insertId)
  end.

(** [SELECT * FROM sentiment_aggregates WHERE id = ?] *)
Definition execute_select (db : database) (i : Z) : string + list aggregate :=
  match failure db with
  | Some message => inl message
  | None => inr (filter (fun r => id r = i) (table db))
  end.

Inductive payload : Type :=
  | ErrorPayload (error : string)                      (* { error } *)
  | IngestPayload (insertId : Z) (bins : list number)
      (mode : option string)                           (* { success: true, id, bins[, mode] } *)
  | RecordPayload (r : aggregate).                     (* the stored row *)

Record response : Type := Response {
  status : nat;
  json : payload
}.

(** What a handler did: the response it sent (if it sent one), the
    database afterwards, the error that escaped it (a rejection of the
    async callback or an [error] event without a listener), and whether it
    removed the upload. *)
Record outcome : Type := Outcome {
  sent : option response;
  db_after : database;
  escaped : option string;
  unlinked : bool
}.

Definition respond (st : nat) (p : payload) (db : database) (rm : bool) : outcome :=
  {| sent := Some (Response st p); db_after := db; escaped := None; unlinked := rm |}.

Definition throw (message : string) (db : database) : outcome :=
  {| sent := None; db_after := db; escaped := Some message; unlinked := false |}.

(** An error that escapes after the response has been sent. *)
Definition throw_after (st : nat) (p : payload) (db : database) (message : string)
    : outcome :=
  {| sent := Some (Response st p); db_after := db; escaped := Some message;
     unlinked := false |}.

(** *** The [data] listener, shared by both routes *)

(** The names of the properties of [Object.prototype], which a plain
    object inherits. *)
Definition Object_prototype : list string :=
  [ "constructor"; "__defineGetter__"; "__defineSetter__"; "hasOwnProperty";
    "__lookupGetter__"; "__lookupSetter__"; "isPrototypeOf";
    "propertyIsEnumerable"; "toString"; "valueOf"; "__proto__";
    "toLocaleString" ].

(** [acc[key] = cell] on a plain object, as the map of its own
    properties: the assignment to [__proto__] goes to the inherited
    setter, which ignores a string. *)
Definition assign (acc : gmap string string) (key cell : string)
    : gmap string string :=
  if String.eqb key "__proto__" then acc else <[key := cell]> acc.

(** [Object.keys(row).reduce((acc, key) => { acc[key.toLowerCase()] = row[key]; return acc }, {})]:
    the own properties of the object. *)
Definition normalizedRow (r : row) : gmap string string :=
  foldl (fun acc kv => assign acc (toLowerCase kv.1) kv.2) ∅ r.

(** What reading a property gives: undefined, a cell, or an object (a
    function, the prototype itself) inherited from [Object.prototype]. *)
Inductive value : Type :=
  | Undefined
  | Str (s : string)
  | Obj.

(** [o[key]] on a plain object with the own properties [o]. *)
Definition get (o : gmap string string) (key : string) : value :=
  match o !! key with
  | Some cell => Str cell
  | None => if bool_decide (key ∈ Object_prototype) then Obj else Undefined
  end.

(** [v || ''] *)
Definition or_empty (v : value) : value :=
  match v with
  | Undefined | Str "" => Str ""
  | _ => v
  end.

(** [analyzeText(text)] on what the listener passes: for a text that is
    no string the guard [typeof text !== 'string'] returns what it returns
    for the empty string. *)
Definition analyze `{SentimentIntensityAnalyzer} (text : value) : analysis :=
  match text with
  | Str s => analyzeText s
  | _ => {| score := of_Z 0; redacted := "" |}
  end.

(** [Math.min(10, Math.max(0, Math.round((score + 1) * 5)))] *)
Definition binIndex (score : number) : number :=
  Math_min (of_Z 10) (Math_max (of_Z 0)
    (Math_round (times (plus score (of_Z 1)) (of_Z 5)))).

(** [new Array(11).fill(0)] *)
Definition new_bins : list number := replicate 11 (of_Z 0).

Section Handlers.
Context `{SentimentIntensityAnalyzer}.

Definition on_data (postCol : string) (bins : list number) (r : row) : list number :=
  let text := or_empty (get (normalizedRow r) postCol) in
  let analysis := analyze text in
  increment bins (binIndex (score analysis)).

(** The bins once every [data] event of the stream has been handled. *)
Definition after_rows (postCol : string) (rs : list row) : list number :=
  foldl (on_data postCol) new_bins rs.

(** *** index.js *)

(** [process.env.DB_HOST ? 'Institutional' : 'Sandbox'] *)
Definition mode_of (DB_HOST : option string) : string :=
  match or_else DB_HOST "" with
  | "" => "Sandbox"
  | _ => "Institutional"
  end.

(** What [res.status(500).json(...)] throws once a response has been
    sent. *)
Definition ERR_HTTP_HEADERS_SENT : string :=
  "Cannot set headers after they are sent to the client".

(** [app.post('/api/ingest', ...)].  The inner [try] also holds
    [fs.unlinkSync]: when that throws, after the response, the [catch]
    tries to answer 500, which throws in turn. *)
Definition index_ingest (DB_HOST : option string) (req : request) (db : database)
    : outcome :=
  match req_file req with
  | None => respond 400 (ErrorPayload "No CSV file detected.") db false
  | Some f =>
      let postCol := toLowerCase (or_else (post_column (req_body req)) "post") in
      let projectTitle := or_else (chart_title (req_body req)) "New Analysis" in
      match setup_error f with
      | Some message =>
          respond 500 (ErrorPayload ("Critical Stream Error: " ++ message)) db false
      | None =>
          let bins := after_rows postCol (rows f) in
          match ending f with
          | StreamEnd =>
              match execute_insert db projectTitle bins with
              | inr (db', insertId) =>
                  let ok := IngestPayload insertId bins (Some (mode_of DB_HOST)) in
                  match unlink_error f with
                  | None => respond 200 ok db' true
                  | Some _ => throw_after 200 ok db' ERR_HTTP_HEADERS_SENT
                  end
              | inl message =>
                  respond 500
                    (ErrorPayload ("Database Persistence Error: " ++ message)) db false
              end
          | StreamError message => throw message db
          end
      end
  end.

(** [app.get('/api/display/:id', ...)] *)
Definition index_display (db : database) (i : Z) : outcome :=
  match execute_select db i with
  | inr [] => respond 404 (ErrorPayload "Dataset not found.") db false
  | inr (r :: _) => respond 200 (RecordPayload r) db false
  | inl message => respond 500 (ErrorPayload ("Query Error: " ++ message)) db false
  end.

(** *** routes/sentiment.js *)

Definition TypeError_path : string :=
  "TypeError: Cannot read properties of undefined (reading 'path')".

(** [router.post('/ingest', ...)]: no guard on [req.file], no [try]. *)
Definition sentiment_ingest (req : request) (db : database) : outcome :=
  let postCol := toLowerCase (or_else (post_column (req_body req)) "post") in
  let title := or_else (chart_title (req_body req)) "New Analysis" in
  match req_file req with
  | None => throw TypeError_path db
  | Some f =>
      match setup_error f with
      | Some message => throw message db
      | None =>
          let bins := after_rows postCol (rows f) in
          match ending f with
          | StreamEnd =>
              match execute_insert db title bins with
              | inr (db', insertId) =>
                  let ok := IngestPayload insertId bins None in
                  match unlink_error f with
                  | None => respond 200 ok db' true
                  | Some message => throw_after 200 ok db' message
                  end
              | inl message => throw message db
              end
          | StreamError message => throw message db
          end
      end
  end.

(** [router.get('/display/:id', ...)] *)
Definition sentiment_display (db : database) (i : Z) : outcome :=
  match execute_select db i with
  | inr [] => respond 404 (ErrorPayload "Record not found") db false
  | inr (r :: _) => respond 200 (RecordPayload r) db false
  | inl message => throw message db
  end.

End Handlers.
End Routes.

(** ** routes/contact.js and utils/mailer.js

    Conventions.  A field of a JSON body is a string when it is present
    ([privacyConsent]: a boolean, [id]: a number), with one exception:
    [email] of [/provision] is any JSON value, because it is the one
    field on which a handler calls a method of strings, and it does so
    outside its [try].  The two services the routes call, the reCAPTCHA
    verification and the SMTP transport, are collaborators with a fixed
    interface; an outcome records every call made to them. *)
Module Contact.
Import Routes.
Local Open Scope string_scope.

(** The double quote and the line feed, for the template literals. *)
Definition dq : string := String "034"%char EmptyString.
Definition nl : string := String "010"%char EmptyString.

(** [!v] for a string or undefined [v]. *)
Definition falsy (v : option string) : bool :=
  match v with
  | Some s => String.eqb s ""
  | None => true
  end.

(** [`${v}`] for a string or undefined [v]. *)
Definition interpolate (v : option string) : string :=
  match v with
  | Some s => s
  | None => "undefined"
  end.

(** [`${n}`] for an integer [n]. *)
Definition show_id (n : Z) : string :=
  DecimalString.NilZero.string_of_int (Z.to_int n).

(** White space and line terminators among the code units below 256. *)
Definition is_space (c : ascii) : bool :=
  let n := N_of_ascii c in
  ((9 <=? n) && (n <=? 13) || (n =? 32) || (n =? 160))%N.

Fixpoint trim_start (s : list ascii) : list ascii :=
  match s with
  | c :: s' => if is_space c then trim_start s' else s
  | [] => []
  end.

(** [String.prototype.trim] *)
Definition trim (s : string) : string :=
  string_of_list_ascii
    (rev (trim_start (rev (trim_start (list_ascii_of_string s))))).

(** *** utils/mailer.js *)

Record mailOptions : Type := MailOptions {
  from : string;
  to : string;
  replyTo : string;
  subject : string;
  html : string
}.

(** The SMTP transport: [sendMail] resolves ([None]) or rejects with an
    error. *)
Class Transporter : Type := {
  sendMail : mailOptions -> option string
}.

(** The [html] of the inquiry. *)
Definition inquiry_html (senderEmail message : string) : string :=
  nl ++
  "            <div style=" ++ dq ++ "font-family: sans-serif; padding: 20px; border: 1px solid #eee; border-radius: 8px;" ++ dq ++ ">" ++ nl ++
  "                <h2 style=" ++ dq ++ "color: #05386B;" ++ dq ++ ">New Institutional Inquiry</h2>" ++ nl ++
  "                <p><b>Sender:</b> " ++ senderEmail ++ "</p>" ++ nl ++
  "                <hr style=" ++ dq ++ "border: 0; border-top: 1px solid #eee;" ++ dq ++ ">" ++ nl ++
  "                <p style=" ++ dq ++ "white-space: pre-wrap;" ++ dq ++ ">" ++ message ++ "</p>" ++ nl ++
  "                <p style=" ++ dq ++ "font-size: 11px; color: #64748b; margin-top: 20px;" ++ dq ++ ">" ++ nl ++
  "                    This inquiry was routed via the Sovereign Engine. No data has been persisted." ++ nl ++
  "                </p>" ++ nl ++
  "            </div>" ++ nl ++
  "        ".

(** [sendInquiry]: the options handed to the transport, and the error it
    throws when the transport rejects. *)
Definition inquiry_options (SMTP_USER : option string)
    (researcherEmail senderEmail : string) (subject : option string)
    (message : string) : mailOptions :=
  {| from := dq ++ "Sovereign Hub Agent" ++ dq ++ " <" ++ interpolate SMTP_USER ++ ">";
     to := researcherEmail;
     replyTo := senderEmail;
     subject := "[Sovereign Hub] " ++ interpolate subject;
     html := inquiry_html senderEmail message |}.

Definition sendInquiry `{Transporter} (SMTP_USER : option string)
    (researcherEmail senderEmail : string) (subject : option string)
    (message : string) : option string :=
  match sendMail (inquiry_options SMTP_USER researcherEmail senderEmail subject message) with
  | None => None
  | Some _ => Some "SMTP Gateway Handshake Failed."
  end.

(** *** The vault: table [contact_identities] *)

Record identity : Type := Identity {
  identity_id : Z;
  email_hash : string;
  raw_email : string;
  recaptcha_site_key : string;
  recaptcha_secret_key : string;
  consent_ip : string
}.

(** The table, the last id assigned (AUTOINCREMENT), and the errors with
    which the database currently fails reads and writes, if any. *)
Record vault : Type := Vault {
  identities : list identity;
  last_identity : Z;
  read_failure : option string;
  write_failure : option string
}.

(** [SELECT ... FROM contact_identities WHERE email_hash = ?] *)
Definition get_by_email (v : vault) (e : string) : string + option identity :=
  match read_failure v with
  | Some message => inl message
  | None => inr (head (filter (fun r => email_hash r = e) (identities v)))
  end.

(** [SELECT ... FROM contact_identities WHERE id = ?] *)
Definition get_by_id (v : vault) (i : Z) : string + option identity :=
  match read_failure v with
  | Some message => inl message
  | None => inr (head (filter (fun r => identity_id r = i) (identities v)))
  end.

(** [INSERT INTO contact_identities (email_hash, raw_email, recaptcha_site_key,
    recaptcha_secret_key, consent_ip) VALUES (?, ?, ?, ?, ?)]; [email_hash]
    is UNIQUE. *)
Definition insert_identity (v : vault) (hash raw siteKey secretKey ip : string)
    : string + vault * Z :=
  match write_failure v with
  | Some message => inl message
  | None =>
      match filter (fun r => email_hash r = hash) (identities v) with
      | _ :: _ => inl "SQLITE_CONSTRAINT: UNIQUE constraint failed: contact_identities.email_hash"
      | [] =>
          let lastID := (last_identity v + 1)%Z in
          inr ({| identities :=
                    identities v ++ [Identity lastID hash raw siteKey secretKey ip];
                  last_identity := lastID;
                  read_failure := read_failure v;
                  write_failure := write_failure v |}, lastID)
      end
  end.

(** *** The reCAPTCHA verification *)

(** What [axios.post(verifyUrl)] gives: no answer (the promise rejects),
    or the [data] of the answer; [score] is absent from the answers for
    keys that are not v3 keys. *)
Inductive verification : Type :=
  | Unreachable (message : string)
  | Verified (success : bool) (score : option Q).

Class Recaptcha : Type := {
  post : string -> verification
}.

Definition verifyUrl (secret response : option string) : string :=
  "https://www.google.com/recaptcha/api/siteverify?secret=" ++ interpolate secret
  ++ "&response=" ++ interpolate response.

(** [score < 0.5] and [score >= 0.5]; both are false for [undefined]. *)
Definition below_half (score : option Q) : bool :=
  match score with
  | Some q => negb (Qle_bool (1 # 2) q)
  | None => false
  end.

Definition at_least_half (score : option Q) : bool :=
  match score with
  | Some q => Qle_bool (1 # 2) q
  | None => false
  end.

(** *** Requests, responses, outcomes *)

(** A field of a JSON body: absent, a string, or another value (null, a
    number, a boolean, an array, an object) with its truthiness. *)
Inductive field : Type :=
  | Absent
  | Text (s : string)
  | Other (truthy : bool).

(** [!v] for a field [v]. *)
Definition not_field (v : field) : bool :=
  match v with
  | Absent => true
  | Text s => String.eqb s ""
  | Other truthy => negb truthy
  end.

Record provision_body : Type := ProvisionBody {
  email_field : field;                (* email *)
  siteKey : option string;
  secretKey : option string;
  provision_token : option string;    (* captchaToken *)
  privacyConsent : bool
}.

(** The address of a body, when its [email] is a string. *)
Definition email (b : provision_body) : option string :=
  match email_field b with
  | Text s => Some s
  | _ => None
  end.

Record send_body : Type := SendBody {
  send_id : option Z;                 (* id *)
  senderEmail : option string;
  send_subject : option string;       (* subject *)
  message : option string;
  send_token : option string          (* captchaToken *)
}.

Inductive reply : Type :=
  | ErrorReply (error : string)                          (* { error } *)
  | MasterKeyReply (masterSiteKey : string)              (* { masterSiteKey } *)
  | ProvisionReply (status : string) (i : Z) (embedCode : string)
                                                         (* { status, id, embedCode } *)
  | SentReply (message : string)                         (* { success: true, message } *)
  | SiteKeyReply (siteKey : string).                     (* { siteKey } *)

(** What a handler did: the status and body it sent, the vault
    afterwards, the verification URLs it posted, the mails it handed to
    the transport, and the error that escaped it. *)
Record result : Type := Result {
  answered : option (nat * reply);
  vault_after : vault;
  verifications : list string;
  mails : list mailOptions;
  rejected : option string
}.

Definition answer (st : nat) (r : reply) (v : vault) (urls : list string)
    (ms : list mailOptions) : result :=
  {| answered := Some (st, r); vault_after := v; verifications := urls;
     mails := ms; rejected := None |}.

(** [`<iframe src="/contact/widget.html?id=${id}" width="100%" height="500"
    frameborder="0"></iframe>`] *)
Definition embedCode (i : Z) : string :=
  "<iframe src=" ++ dq ++ "/contact/widget.html?id=" ++ show_id i ++ dq
  ++ " width=" ++ dq ++ "100%" ++ dq ++ " height=" ++ dq ++ "500" ++ dq
  ++ " frameborder=" ++ dq ++ "0" ++ dq ++ "></iframe>".

(** *** The routes *)

(** [router.get('/hub-config', ...)] *)
Definition hub_config (RECAPTCHA_SITE_KEY : option string) (v : vault) : result :=
  if falsy RECAPTCHA_SITE_KEY
  then answer 500 (ErrorReply "Server Infrastructure Error.") v [] []
  else answer 200 (MasterKeyReply (interpolate RECAPTCHA_SITE_KEY)) v [] [].

Section Handlers.
Context `{Recaptcha} `{Transporter}.

(** What [email.toLowerCase()] throws when [email] is no string. *)
Definition TypeError_toLowerCase : string :=
  "TypeError: email.toLowerCase is not a function".

(** [router.post('/provision', ...)].  [email.toLowerCase().trim()]
    stands before the [try]: what it throws leaves the handler. *)
Definition provision (RECAPTCHA_SECRET : option string) (b : provision_body)
    (ip : string) (v : vault) : result :=
  if not_field (email_field b) || negb (privacyConsent b) || falsy (siteKey b)
     || falsy (secretKey b)
  then answer 400
         (ErrorReply "Institutional verification requires all security fields.")
         v [] []
  else
    match email_field b with
    | Text address =>
        let cleanEmail := trim (toLowerCase address) in
        let url := verifyUrl RECAPTCHA_SECRET (provision_token b) in
        match post url with
        | Unreachable _ =>
            answer 500 (ErrorReply "Sovereign Engine Unavailable.") v [url] []
        | Verified success score =>
            if negb success || below_half score
            then answer 403
                   (ErrorReply "Security Handshake Failed: Bot activity detected.")
                   v [url] []
            else
              match get_by_email v cleanEmail with
              | inl _ =>
                  answer 500 (ErrorReply "Vault Interrogation Error.") v [url] []
              | inr (Some row) =>
                  answer 200
                    (ProvisionReply "existing" (identity_id row)
                       (embedCode (identity_id row)))
                    v [url] []
              | inr None =>
                  match insert_identity v cleanEmail cleanEmail
                          (interpolate (siteKey b)) (interpolate (secretKey b))
                          ip with
                  | inl _ =>
                      answer 500 (ErrorReply "Identity Provisioning Failed.")
                        v [url] []
                  | inr (v', lastID) =>
                      answer 200 (ProvisionReply "new" lastID (embedCode lastID))
                        v' [url] []
                  end
              end
        end
    | _ =>
        {| answered := None; vault_after := v; verifications := [];
           mails := []; rejected := Some TypeError_toLowerCase |}
    end.

(** [!id] for a number or undefined [id]. *)
Definition no_id (i : option Z) : bool :=
  match i with
  | Some n => (n =? 0)%Z
  | None => true
  end.

(** [router.post('/send', ...)] *)
Definition send (SMTP_USER : option string) (b : send_body) (v : vault) : result :=
  if no_id (send_id b) || falsy (senderEmail b) || falsy (message b)
     || falsy (send_token b)
  then answer 400 (ErrorReply "Inquiry data incomplete.") v [] []
  else
    match get_by_id v (default 0%Z (send_id b)) with
    | inl _ | inr None =>
        answer 404 (ErrorReply "Researcher ID invalid or revoked.") v [] []
    | inr (Some row) =>
        let researcherEmail := raw_email row in
        let userSecretKey := recaptcha_secret_key row in
        let url := verifyUrl (Some userSecretKey) (send_token b) in
        match post url with
        | Unreachable e =>
            {| answered := None; vault_after := v; verifications := [url];
               mails := []; rejected := Some e |}
        | Verified success score =>
            if success && at_least_half score
            then
              let options :=
                inquiry_options SMTP_USER researcherEmail
                  (interpolate (senderEmail b)) (send_subject b)
                  (interpolate (message b)) in
              match sendInquiry SMTP_USER researcherEmail
                      (interpolate (senderEmail b)) (send_subject b)
                      (interpolate (message b)) with
              | None => answer 200 (SentReply "Inquiry dispatched.") v [url] [options]
              | Some _ =>
                  answer 500 (ErrorReply "SMTP Gateway Transmission Failure.")
                    v [url] [options]
              end
            else
              answer 403
                (ErrorReply "Security Verification Failed: Bot activity detected.")
                v [url] []
        end
    end.

(** [router.get('/config/:id', ...)]; [i] is the number that
    [req.params.id] denotes. *)
Definition config (i : Z) (v : vault) : result :=
  match get_by_id v i with
  | inl _ | inr None => answer 404 (ErrorReply "Configuration ID not found.") v [] []
  | inr (Some row) => answer 200 (SiteKeyReply (recaptcha_site_key row)) v [] []
  end.

End Handlers.
End Contact.

(** ** routes/tanaga.js

    The phone pattern of this file has lazy quantifiers, so the matcher
    here carries the greedy flag of each quantifier.  Neither pattern has
    an assertion: a match does not depend on what precedes it. *)
Module Tanaga.
Import RegExp Routes.
Local Open Scope string_scope.

(** A quantified one-character class; [greedy] is false for [{m,n}?]. *)
Record quantified : Type := Quantified {
  atom : list class_item;
  at_least : nat;
  at_most : option nat;
  greedy : bool
}.

Record pattern : Type := Pattern {
  quantifiers : list quantified;
  insensitive : bool           (* the i flag *)
}.

(** RepeatMatcher: below the minimum, one more repetition; from the
    minimum on, a greedy quantifier first tries one more repetition and
    then the continuation [k], a lazy one first the continuation and then
    one more repetition. *)
Fixpoint repeat_quantifier (test : ascii -> bool)
    (k : list ascii -> option nat) (min : nat) (max : option nat)
    (g : bool) (s : list ascii) {struct s} : option nat :=
  let more :=
    match s with
    | c :: s' =>
        if test c && can_repeat max then
          S <$> repeat_quantifier test k (Nat.pred min) (dec_max max) g s'
        else None
    | [] => None
    end in
  match min with
  | S _ => more
  | 0 =>
      if g then match more with Some n => Some n | None => k s end
      else match k s with Some n => Some n | None => more end
  end.

Fixpoint match_quantifiers (ic : bool) (qs : list quantified) (s : list ascii)
    {struct qs} : option nat :=
  match qs with
  | [] => Some 0
  | q :: qs' =>
      repeat_quantifier (class_matches ic (atom q)) (match_quantifiers ic qs')
        (at_least q) (at_most q) (greedy q) s
  end.

(** The match of [re] that starts exactly at the current position, if
    any, as its length. *)
Definition match_at (re : pattern) (s : list ascii) : option nat :=
  match_quantifiers (insensitive re) (quantifiers re) s.

(** [String.prototype.replace] with a global pattern: the scan of
    [RegExp.replace_from]. *)
Fixpoint scan (re : pattern) (repl : list ascii) (skip : nat) (s : list ascii)
    {struct s} : list ascii :=
  match skip with
  | S k =>
      match s with
      | [] => []
      | _ :: s' => scan re repl k s'
      end
  | 0 =>
      match match_at re s with
      | Some n =>
          repl ++
          match s with
          | [] => []
          | c :: s' =>
              match n with
              | 0 => c :: scan re repl 0 s'
              | S k => scan re repl k s'
              end
          end
      | None =>
          match s with
          | [] => []
          | c :: s' => c :: scan re repl 0 s'
          end
      end
  end.

Definition replace_global (re : pattern) (repl : string) (s : string) : string :=
  string_of_list_ascii
    (scan re (list_ascii_of_string repl) 0 (list_ascii_of_string s)).

(** [\w], [\s] (on the code units below 256) and [[-.\s]]. *)
Definition word : list class_item :=
  [Range "a" "z"; Range "A" "Z"; Digit; Chr "_"]%char.

Definition space : list class_item :=
  [Range "009" "013"; Chr " "; Chr "160"]%char.

Definition separator : list class_item := ([Chr "-"; Chr "."] ++ space)%char%list.

Definition once (items : list class_item) : quantified :=
  Quantified items 1 (Some 1) true.

Definition optional (items : list class_item) : quantified :=
  Quantified items 0 (Some 1) true.

(** [/[\w\.-]+@[\w\.-]+\.\w+/gi] *)
Definition EMAIL_PATTERN : pattern :=
  {| quantifiers :=
       [ Quantified (word ++ [Chr "."; Chr "-"]%char) 1 None true;
         once [Chr "@"]%char;
         Quantified (word ++ [Chr "."; Chr "-"]%char) 1 None true;
         once [Chr "."]%char;
         Quantified word 1 None true ];
     insensitive := true |}.

(** [/\+?\d{1,4}?[-.\s]?\(?\d{1,3}?\)?[-.\s]?\d{1,4}/g] *)
Definition PHONE_PATTERN : pattern :=
  {| quantifiers :=
       [ optional [Chr "+"]%char;
         Quantified [Digit] 1 (Some 4) false;
         optional separator;
         optional [Chr "("]%char;
         Quantified [Digit] 1 (Some 3) false;
         optional [Chr ")"]%char;
         optional separator;
         Quantified [Digit] 1 (Some 4) true ];
     insensitive := false |}.

(** [redactPII] *)
Definition redactPII (text : string) : string :=
  replace_global PHONE_PATTERN "[PHONE_REDACTED]"
    (replace_global EMAIL_PATTERN "[EMAIL_REDACTED]" text).

(** [String.prototype.includes] *)
Fixpoint includes (s t : string) : bool :=
  String.prefix t s ||
  match s with
  | EmptyString => false
  | String _ s' => includes s' t
  end.

(** [detectLanguage] *)
Definition englishTriggers : list string :=
  ["in english"; "sa ingles"; "english"; "english version"].

Definition tagalogTriggers : list string :=
  ["tagalog"; "sa tagalog"; "filipino"; "tanaga"; "tula"].

Definition detectLanguage (input : string) : string :=
  let inputLower := toLowerCase input in
  if existsb (fun t => includes inputLower t) englishTriggers then "English"
  else if existsb (fun t => includes inputLower t) tagalogTriggers then "Tagalog"
  else "English".

(** [getTanagaSystemPrompt] *)
Definition tagalog_prompt : string :=
  "You are an Expert Poet specialized in traditional Tagalog Tanaga." ++ Contact.nl ++ Contact.nl ++
  "STRICT METER CONSTRAINTS:" ++ Contact.nl ++
  "1. OUTPUT: ONLY ONE 4-line poem in Tagalog. No translation or explanation." ++ Contact.nl ++
  "2. METER: EXACTLY 7 syllables per line." ++ Contact.nl ++
  "3. CULTURAL IMAGERY: Use 'bayan' (homeland), 'loob' (inner self), 'gunita' (memory)." ++ Contact.nl ++
  "4. FORMAT: Each line must be exactly 7 syllables. No exceptions.".

Definition english_prompt : string :=
  "You are an Expert Poet specializing in structured English poetry." ++ Contact.nl ++ Contact.nl ++
  "STRICT METER CONSTRAINTS:" ++ Contact.nl ++
  "1. OUTPUT: ONLY ONE 4-line poem in English. No explanation." ++ Contact.nl ++
  "2. METER: EXACTLY 8 syllables per line." ++ Contact.nl ++
  "3. RYTHM: Maintain consistent iambic rhythm." ++ Contact.nl ++
  "4. FORMAT: Each line must be exactly 8 syllables. No exceptions.".

Definition getTanagaSystemPrompt (language : string) : string :=
  if String.eqb language "Tagalog" then tagalog_prompt else english_prompt.

(** *** [router.post('/generate', ...)]

    [user_input] is the field of the parsed JSON body: a string, or
    undefined. *)

(** The body and the headers of the request to the completion service. *)
Record completion_request : Type := CompletionRequest {
  url : string;
  model : string;
  system_content : string;
  user_content : string;
  temperature : Q;
  max_tokens : nat;
  authorization : string
}.

(** The completion service: [response.data.choices[0].message.content],
    or nothing when the request fails or the response has no such string
    (either way the handler's [catch] takes over). *)
Class Completions : Type := {
  chat : completion_request -> option string
}.

Inductive generated : Type :=
  | GenerateError (error : string)          (* { error } *)
  | Poem (reply : string).                  (* { reply } *)

(** What the handler did: the status and body it sent, and the requests
    it made to the completion service. *)
Record generation : Type := Generation {
  generate_status : nat;
  generate_json : generated;
  requests : list completion_request
}.

Definition userContent (language safeInput : string) : string :=
  "Write ONE " ++ language ++ " poem about: " ++ safeInput
  ++ ". Follow meter EXACTLY. 7 syllables for Tagalog, 8 for English.".

Definition generate `{Completions} (MISTRAL_API_KEY user_input : option string)
    : generation :=
  if Contact.falsy MISTRAL_API_KEY
  then Generation 500 (GenerateError "Server Configuration Error: API Key missing.") []
  else
    let safeInput := redactPII (or_else user_input "") in
    let language := detectLanguage safeInput in
    let systemPrompt := getTanagaSystemPrompt language in
    let request :=
      {| url := "https://api.mistral.ai/v1/chat/completions";
         model := "mistral-tiny";
         system_content := systemPrompt;
         user_content := userContent language safeInput;
         temperature := 1 # 10;
         max_tokens := 100;
         authorization := "Bearer " ++ Contact.interpolate MISTRAL_API_KEY |} in
    match chat request with
    | Some content => Generation 200 (Poem (Contact.trim content)) [request]
    | None =>
        Generation 500
          (GenerateError "The poetic engine is currently unavailable.") [request]
    end.

End Tanaga.

(** ** Theory of the matcher *)
Module RegExpFacts.
Import RegExp.

(** *** The matches of a pattern, declaratively

    [matches ic ns prev m rest]: the nodes [ns] can consume exactly [m] when
    [prev] is the code unit before [m] and [rest] is what follows it. *)

Definition last_or (prev : option ascii) (m : list ascii) : option ascii :=
  match last m with Some c => Some c | None => prev end.

Definition within_max (max : option nat) (n : nat) : Prop :=
  match max with Some k => n <= k | None => True end.

Inductive matches (ic : bool)
    : list node -> option ascii -> list ascii -> list ascii -> Prop :=
  | matches_nil prev rest : matches ic [] prev [] rest
  | matches_class items lo hi ns prev m1 m2 rest :
      Forall (fun c => class_matches ic items c = true) m1 ->
      lo <= length m1 ->
      within_max hi (length m1) ->
      matches ic ns (last_or prev m1) m2 rest ->
      matches ic (Class items lo hi :: ns) prev (m1 ++ m2) rest
  | matches_boundary ns prev m rest :
      at_boundary prev (head (m ++ rest)) = true ->
      matches ic ns prev m rest ->
      matches ic (WordBoundary :: ns) prev m rest.

Lemma last_or_nil prev : last_or prev [] = prev.
Proof. reflexivity. Qed.

Lemma last_or_cons prev c m : last_or prev (c :: m) = last_or (Some c) m.
Proof.
  unfold last_or. destruct m as [|d m]; [reflexivity|].
  change (last (c :: d :: m)) with (last (d :: m)).
  destruct (last (d :: m)) eqn:E; [reflexivity|].
  apply last_None in E. discriminate.
Qed.

Lemma last_or_app prev m1 m2 :
  last_or prev (m1 ++ m2) = last_or (last_or prev m1) m2.
Proof.
  revert prev. induction m1 as [|c m1 IH]; intros prev; [reflexivity|].
  simpl. rewrite !last_or_cons. apply IH.
Qed.

Lemma within_max_dec max j :
  can_repeat max = true -> within_max (dec_max max) j -> within_max max (S j).
Proof. destruct max as [[|k]|]; simpl; try discriminate; intros; lia. Qed.

Lemma within_max_S max j :
  within_max max (S j) -> can_repeat max = true /\ within_max (dec_max max) j.
Proof. destruct max as [[|k]|]; simpl; intros; split; auto; lia. Qed.

Section Matcher.
Variable test : ascii -> bool.
Variable k : option ascii -> list ascii -> option nat.

(** What a successful run of the repeat matcher found: [j] repetitions,
    then the continuation on what is left. *)
Lemma repeat_matcher_sound s : forall min max prev n,
  repeat_matcher test k min max prev s = Some n ->
  exists j, j <= n /\ j <= length s /\
    Forall (fun c => test c = true) (take j s) /\
    min <= j /\ within_max max j /\
    k (last_or prev (take j s)) (drop j s) = Some (n - j).
Proof.
  induction s as [|c s IH]; intros min max prev n H.
  - simpl in H. destruct min; [|discriminate].
    exists 0. rewrite Nat.sub_0_r. simpl.
    repeat split; auto; try lia. destruct max; simpl; lia.
  - simpl in H.
    assert (Hstop : match min with 0 => k prev (c :: s) | S _ => None end = Some n ->
      exists j, j <= n /\ j <= length (c :: s) /\
        Forall (fun c => test c = true) (take j (c :: s)) /\
        min <= j /\ within_max max j /\
        k (last_or prev (take j (c :: s))) (drop j (c :: s)) = Some (n - j)).
    { intros Hk. destruct min; [|discriminate].
      exists 0. rewrite Nat.sub_0_r. simpl.
      repeat split; auto; try lia. destruct max; simpl; lia. }
    destruct (test c && can_repeat max) eqn:Hc; [|auto].
    apply andb_true_iff in Hc as [Ht Hr].
    destruct (repeat_matcher test k (Nat.pred min) (dec_max max) (Some c) s)
      as [n'|] eqn:Hrec; [|auto].
    injection H as <-.
    destruct (IH _ _ _ _ Hrec) as (j & Hjn & Hjs & Hall & Hmin & Hmax & Hk).
    exists (S j). simpl. rewrite last_or_cons.
    repeat split; auto; try lia. apply within_max_dec; assumption.
Qed.

Lemma repeat_matcher_stop max prev s :
  is_Some (k prev s) -> is_Some (repeat_matcher test k 0 max prev s).
Proof.
  intros Hk. destruct s as [|c s]; simpl; [exact Hk|].
  destruct (test c && can_repeat max); [|exact Hk].
  destruct (repeat_matcher test k 0 (dec_max max) (Some c) s); [eauto|exact Hk].
Qed.

(** Backtracking is complete: if some number of repetitions lets the
    continuation succeed, the repeat matcher succeeds. *)
Lemma repeat_matcher_complete m1 : forall min max prev rest,
  Forall (fun c => test c = true) m1 ->
  min <= length m1 -> within_max max (length m1) ->
  is_Some (k (last_or prev m1) rest) ->
  is_Some (repeat_matcher test k min max prev (m1 ++ rest)).
Proof.
  induction m1 as [|c m1 IH]; intros min max prev rest Hall Hmin Hmax Hk.
  - simpl in Hmin. assert (min = 0) as -> by lia.
    apply repeat_matcher_stop. exact Hk.
  - apply Forall_cons in Hall as [Hc Hall].
    simpl in Hmax. apply within_max_S in Hmax as [Hr Hmax].
    simpl. rewrite Hc, Hr. simpl.
    rewrite last_or_cons in Hk.
    destruct (IH (Nat.pred min) (dec_max max) (Some c) rest) as [n Hn]; auto.
    { simpl in Hmin. lia. }
    rewrite Hn. eauto.
Qed.
End Matcher.

Lemma match_nodes_sound ic ns : forall prev s n,
  match_nodes ic ns prev s = Some n ->
  n <= length s /\ matches ic ns prev (take n s) (drop n s).
Proof.
  induction ns as [|nd ns IH]; intros prev s n H.
  - simpl in H. injection H as <-. simpl. split; [lia|]. rewrite drop_0. constructor.
  - destruct nd as [items lo hi|].
    + simpl in H. apply repeat_matcher_sound in H
        as (j & Hjn & Hjs & Hall & Hmin & Hmax & Hk).
      apply IH in Hk as [Hlen Hm]. rewrite length_drop in Hlen.
      split; [lia|].
      replace (take n s) with (take j s ++ take (n - j) (drop j s)).
      2:{ rewrite take_take_drop. f_equal. lia. }
      replace (drop n s) with (drop (n - j) (drop j s)).
      2:{ rewrite drop_drop. f_equal. lia. }
      apply matches_class; auto.
      rewrite length_take. lia.
      rewrite length_take. destruct hi; simpl in *; lia.
    + simpl in H. destruct (at_boundary prev (head s)) eqn:Hb; [|discriminate].
      apply IH in H as [Hlen Hm]. split; [exact Hlen|].
      constructor; [|exact Hm]. rewrite take_drop. exact Hb.
Qed.

Lemma match_nodes_complete ic ns prev m rest :
  matches ic ns prev m rest -> is_Some (match_nodes ic ns prev (m ++ rest)).
Proof.
  induction 1 as [prev rest|items lo hi ns prev m1 m2 rest Hall Hlo Hhi Hm IH
                  |ns prev m rest Hb Hm IH].
  - simpl. eauto.
  - simpl. rewrite <- app_assoc. apply repeat_matcher_complete; auto.
  - simpl. rewrite Hb. exact IH.
Qed.

(** *** What a match can depend on *)

Definition is_boundary_node (nd : node) : bool :=
  match nd with WordBoundary => true | Class _ _ _ => false end.

Definition has_boundary (ns : list node) : bool := existsb is_boundary_node ns.

(** The code units that some class of the pattern accepts. *)
Definition node_chars (ic : bool) (ns : list node) (c : ascii) : bool :=
  existsb (fun nd => match nd with
                     | Class items _ _ => class_matches ic items c
                     | WordBoundary => false
                     end) ns.

Fixpoint min_length (ns : list node) : nat :=
  match ns with
  | [] => 0
  | Class _ lo _ :: ns' => lo + min_length ns'
  | WordBoundary :: ns' => min_length ns'
  end.

Lemma is_word_last_or prev prev' m :
  is_word prev' = is_word prev -> is_word (last_or prev' m) = is_word (last_or prev m).
Proof.
  intros H. unfold last_or. destruct (last m); [reflexivity|exact H].
Qed.

(** A match only sees its context through the assertions: whether the unit
    before it and the unit after it are word characters. *)
Lemma matches_context ic ns prev m rest :
  matches ic ns prev m rest -> forall prev' rest',
  is_word prev' = is_word prev ->
  is_word (head rest') = is_word (head rest) ->
  matches ic ns prev' m rest'.
Proof.
  induction 1 as [prev rest|items lo hi ns prev m1 m2 rest Hall Hlo Hhi Hm IH
                  |ns prev m rest Hb Hm IH]; intros prev' rest' Hp Hr.
  - constructor.
  - constructor; auto. apply IH; [|exact Hr]. apply is_word_last_or, Hp.
  - constructor; [|auto].
    unfold at_boundary in *. rewrite Hp.
    destruct m; simpl in *; [rewrite Hr|]; exact Hb.
Qed.

Lemma matches_context_free ic ns prev m rest :
  matches ic ns prev m rest -> has_boundary ns = false ->
  forall prev' rest', matches ic ns prev' m rest'.
Proof.
  induction 1 as [prev rest|items lo hi ns prev m1 m2 rest Hall Hlo Hhi Hm IH
                  |ns prev m rest Hb Hm IH]; intros Hfree prev' rest'.
  - constructor.
  - constructor; auto.
  - discriminate.
Qed.

Lemma matches_alphabet ic ns prev m rest :
  matches ic ns prev m rest -> Forall (fun c => node_chars ic ns c = true) m.
Proof.
  induction 1 as [prev rest|items lo hi ns prev m1 m2 rest Hall Hlo Hhi Hm IH
                  |ns prev m rest Hb Hm IH].
  - constructor.
  - apply Forall_app. split.
    + eapply Forall_impl; [exact Hall|]. intros c Hc. simpl. rewrite Hc. reflexivity.
    + eapply Forall_impl; [exact IH|]. intros c Hc. simpl in *. rewrite Hc.
      apply orb_true_r.
  - exact IH.
Qed.

Lemma matches_min_length ic ns prev m rest :
  matches ic ns prev m rest -> min_length ns <= length m.
Proof.
  induction 1 as [prev rest|items lo hi ns prev m1 m2 rest Hall Hlo Hhi Hm IH
                  |ns prev m rest Hb Hm IH]; simpl; try lia.
  rewrite length_app. lia.
Qed.

(** A pattern [\b C{n,} ...] with [n > 0]: the match starts with a unit of
    [C], at a boundary. *)
Lemma matches_first ic items lo hi ns prev m rest :
  matches ic (WordBoundary :: Class items (S lo) hi :: ns) prev m rest ->
  exists c m', m = c :: m' /\ class_matches ic items c = true /\
    at_boundary prev (Some c) = true.
Proof.
  intros H. inversion H as [| |ns0 prev0 m0 rest0 Hb Hm]; subst.
  inversion Hm as [|items0 lo0 hi0 ns0 prev0 m1 m2 rest0 Hall Hlo Hhi Hm'|]; subst.
  destruct m1 as [|c m1]; [simpl in Hlo; lia|].
  apply Forall_cons in Hall as [Hc _].
  exists c, (m1 ++ m2). auto.
Qed.

(** A pattern [... C{n,} \b] with [n > 0]: the match ends with a unit of
    [C], at a boundary. *)
Lemma matches_last ic items lo hi pre : forall prev m rest,
  matches ic (pre ++ [Class items (S lo) hi; WordBoundary]) prev m rest ->
  exists c, last m = Some c /\ class_matches ic items c = true /\
    at_boundary (Some c) (head rest) = true.
Proof.
  induction pre as [|nd pre IH]; intros prev m rest H.
  - inversion H as [|items0 lo0 hi0 ns0 prev0 m1 m2 rest0 Hall Hlo Hhi Hm|]; subst.
    inversion Hm as [| |ns0 prev0 m0 rest0 Hb Hm']; subst.
    inversion Hm'; subst. rewrite app_nil_r. simpl in Hb.
    destruct (last m1) as [c|] eqn:Hl.
    + exists c. unfold last_or in Hb. rewrite Hl in Hb.
      repeat split; auto.
      apply last_Some in Hl as [m1' ->].
      apply Forall_app in Hall as [_ Hall].
      apply Forall_cons in Hall as [Hc _]. exact Hc.
    + apply last_None in Hl. subst. simpl in Hlo. lia.
  - simpl in H.
    inversion H as [|items0 lo0 hi0 ns0 prev0 m1 m2 rest0 Hall Hlo Hhi Hm
                    |ns0 prev0 m0 rest0 Hb Hm]; subst.
    + apply IH in Hm as (c & Hl & Hc & Hb).
      exists c. repeat split; auto.
      rewrite last_app, Hl. reflexivity.
    + apply IH in Hm. exact Hm.
Qed.

(** *** The scan of [replace] *)

Section Replace.
Variable re : regexp.
Variable repl : list ascii.

Lemma match_here_sound prev s n :
  match_here re prev s = Some n ->
  n <= length s /\
  matches (ignoreCase re) (source re) prev (take n s) (drop n s).
Proof. apply match_nodes_sound. Qed.

Lemma match_here_complete prev m rest :
  matches (ignoreCase re) (source re) prev m rest ->
  is_Some (match_here re prev (m ++ rest)).
Proof. apply match_nodes_complete. Qed.

(** Dropping the [k] units of a match, then scanning on. *)
Lemma replace_from_skip k : forall prev s,
  k <= length s ->
  replace_from re repl k prev s =
  replace_from re repl 0 (last_or prev (take k s)) (drop k s).
Proof.
  induction k as [|k IH]; intros prev s Hk.
  - rewrite take_0, drop_0. reflexivity.
  - destruct s as [|c s]; [simpl in Hk; lia|].
    simpl in Hk. simpl take. simpl drop. rewrite last_or_cons.
    rewrite <- IH by lia. reflexivity.
Qed.

Lemma replace_from_copy prev c s :
  match_here re prev (c :: s) = None ->
  replace_from re repl 0 prev (c :: s) = c :: replace_from re repl 0 (Some c) s.
Proof. intros H. simpl. rewrite H. reflexivity. Qed.

Lemma replace_from_match prev s k :
  match_here re prev s = Some (S k) ->
  replace_from re repl 0 prev s =
  repl ++ replace_from re repl 0 (last_or prev (take (S k) s)) (drop (S k) s).
Proof.
  intros H. destruct (match_here_sound _ _ _ H) as [Hlen _].
  rewrite <- replace_from_skip by exact Hlen.
  destruct s as [|c s]; simpl in *; [lia|]. rewrite H. reflexivity.
Qed.

(** [quiet prev y]: the pattern matches at no position of [y]. *)
Fixpoint quiet (prev : option ascii) (y : list ascii) : Prop :=
  match_here re prev y = None /\
  match y with
  | [] => True
  | c :: y' => quiet (Some c) y'
  end.

Lemma quiet_head prev y : quiet prev y -> match_here re prev y = None.
Proof. destruct y; simpl; tauto. Qed.

Lemma replace_quiet y : forall prev,
  quiet prev y -> replace_from re repl 0 prev y = y.
Proof.
  induction y as [|c y IH]; intros prev [H Hq].
  - simpl. rewrite H. reflexivity.
  - rewrite replace_from_copy by exact H. f_equal. auto.
Qed.

Lemma quiet_suffix a : forall prev y,
  quiet prev (a ++ y) -> quiet (last_or prev a) y.
Proof.
  induction a as [|c a IH]; intros prev y H; [exact H|].
  rewrite last_or_cons. apply IH. simpl in H. tauto.
Qed.

(** The output of the scan starts with the part of the input before the
    first match; then comes the replacement, or both end. *)
Lemma scan_prefix s : forall prev,
  exists p s2 y2,
    s = p ++ s2 /\ replace_from re repl 0 prev s = p ++ y2 /\
    ((s2 = [] /\ y2 = []) \/
     (is_Some (match_here re (last_or prev p) s2) /\ exists t, y2 = repl ++ t)).
Proof.
  induction s as [|c s IH]; intros prev.
  - destruct (match_here re prev []) as [n|] eqn:H.
    + exists [], [], repl. split; [reflexivity|]. split.
      * simpl. rewrite H, app_nil_r. reflexivity.
      * right. rewrite last_or_nil, H. split; [eauto|].
        exists []. rewrite app_nil_r. reflexivity.
    + exists [], [], []. split; [reflexivity|]. split; [|auto].
      simpl. rewrite H. reflexivity.
  - destruct (match_here re prev (c :: s)) as [n|] eqn:H.
    + exists [], (c :: s), (replace_from re repl 0 prev (c :: s)).
      split; [reflexivity|]. split; [reflexivity|]. right.
      rewrite last_or_nil. split; [rewrite H; eauto|].
      cbn [replace_from]. rewrite H. eexists. reflexivity.
    + destruct (IH (Some c)) as (p & s2 & y2 & Hs & Hy & Hcase).
      exists (c :: p), s2, y2. rewrite replace_from_copy by exact H.
      rewrite Hy, last_or_cons. subst s. auto.
Qed.
End Replace.

(** *** A second pattern stays quiet on the output of a scan

    [F] has no assertion and accepts no unit [b]; the replacement starts
    with [b].  If [F] finds nothing in the input wherever [re] finds
    nothing, it finds nothing in the output of the scan for [re]. *)
Section QuietAfterScan.
Variables re F : regexp.
Variable b : ascii.
Variable repl' : list ascii.
Hypothesis F_free : has_boundary (source F) = false.
Hypothesis F_b : node_chars (ignoreCase F) (source F) b = false.
Hypothesis re_nonempty : forall prev s, match_here re prev s <> Some 0.
Hypothesis repl_quiet : forall prev prev' y,
  quiet F prev y -> quiet F prev' ((b :: repl') ++ y).

Lemma free_any_context prev prev' s :
  match_here F prev s = None -> match_here F prev' s = None.
Proof.
  intros H. destruct (match_here F prev' s) as [n|] eqn:H'; [|reflexivity].
  apply match_here_sound in H' as [_ Hm].
  pose proof (matches_context_free _ _ _ _ _ Hm F_free prev (drop n s)) as Hm'.
  apply match_here_complete in Hm'. rewrite take_drop, H in Hm'.
  destruct Hm'; discriminate.
Qed.

Lemma free_prefix prev prev' p s2 y2 :
  (y2 = [] \/ head y2 = Some b) ->
  match_here F prev (p ++ s2) = None -> match_here F prev' (p ++ y2) = None.
Proof.
  intros Hy H.
  destruct (match_here F prev' (p ++ y2)) as [n|] eqn:H'; [|reflexivity].
  apply match_here_sound in H' as [Hlen Hm].
  assert (Hn : n <= length p).
  { destruct (le_lt_dec n (length p)) as [|Hlt]; [assumption|exfalso].
    apply matches_alphabet in Hm.
    destruct Hy as [->|Hy]; [rewrite app_nil_r in Hlen; lia|].
    destruct y2 as [|b' y2]; [discriminate|]. injection Hy as ->.
    rewrite Forall_forall in Hm. specialize (Hm b).
    rewrite F_b in Hm. enough (false = true) by discriminate. apply Hm.
    apply list_elem_of_lookup. exists (length p).
    rewrite lookup_take_lt by lia.
    rewrite lookup_app_r by lia. rewrite Nat.sub_diag. reflexivity. }
  rewrite take_app_le in Hm by exact Hn.
  pose proof (matches_context_free _ _ _ _ _ Hm F_free prev (drop n p ++ s2)) as Hm'.
  apply match_here_complete in Hm'.
  rewrite app_assoc, take_drop, H in Hm'. destruct Hm'; discriminate.
Qed.

Lemma quiet_after_scan n : forall s prev prev',
  length s <= n ->
  (forall a t, s = a ++ t ->
     match_here re (last_or prev a) t = None -> match_here F None t = None) ->
  quiet F prev' (replace_from re (b :: repl') 0 prev s).
Proof.
  induction n as [|n IH]; intros s prev prev' Hlen Hdom.
  - destruct s; [|simpl in Hlen; lia].
    destruct (match_here re prev []) as [k|] eqn:H.
    + exfalso. destruct (match_here_sound _ _ _ _ H) as [Hk _].
      simpl in Hk. apply (re_nonempty prev []). rewrite H. f_equal. lia.
    + simpl. rewrite H. simpl. split; [|exact I].
      apply (free_any_context None). apply (Hdom [] []); auto.
  - destruct s as [|c s].
    { apply (IH [] prev prev'); [simpl; lia|exact Hdom]. }
    simpl in Hlen.
    destruct (match_here re prev (c :: s)) as [k|] eqn:H.
    + destruct k as [|k]; [exfalso; exact (re_nonempty _ _ H)|].
      rewrite (replace_from_match _ _ _ _ _ H).
      destruct (match_here_sound _ _ _ _ H) as [Hk _].
      apply (repl_quiet None). apply IH.
      * rewrite length_drop. simpl in *. lia.
      * intros a t Ht Hre. apply (Hdom (take (S k) (c :: s) ++ a) t).
        -- rewrite <- app_assoc, <- Ht, take_drop. reflexivity.
        -- rewrite last_or_app. exact Hre.
    + rewrite replace_from_copy by exact H.
      destruct (scan_prefix re (b :: repl') s (Some c))
        as (p & s2 & y2 & Hs & Hy & Hcase).
      split.
      * rewrite Hy. apply (free_prefix None prev' (c :: p) s2 y2).
        -- destruct Hcase as [[_ ->]|[_ [t ->]]]; auto.
        -- simpl. rewrite <- Hs. apply (Hdom [] (c :: s)); auto.
      * apply IH; [lia|].
        intros a t Ht Hre. apply (Hdom (c :: a) t).
        -- rewrite Ht. reflexivity.
        -- rewrite last_or_cons. exact Hre.
Qed.
End QuietAfterScan.

(** *** Units that end every match

    A unit [b] that no class accepts and that is no word character acts on
    the matcher like the end of the input. *)
Lemma repeat_matcher_terminator test k b w :
  test b = false ->
  (forall prev u, k prev (u ++ b :: w) = k prev u) ->
  forall u min max prev,
  repeat_matcher test k min max prev (u ++ b :: w) =
  repeat_matcher test k min max prev u.
Proof.
  intros Hb Hk. induction u as [|c u IH]; intros min max prev.
  - simpl. rewrite Hb. simpl. destruct min; [apply (Hk prev [])|reflexivity].
  - simpl. rewrite IH. change (c :: u ++ b :: w) with ((c :: u) ++ b :: w).
    rewrite Hk. reflexivity.
Qed.

Lemma match_nodes_terminator ic ns b w :
  node_chars ic ns b = false -> is_word (Some b) = false ->
  forall prev u,
  match_nodes ic ns prev (u ++ b :: w) = match_nodes ic ns prev u.
Proof.
  intros Hb Hw. induction ns as [|nd ns IH]; intros prev u; [reflexivity|].
  simpl in Hb. destruct nd as [items lo hi|].
  - apply orb_false_iff in Hb as [Hb1 Hb2]. simpl.
    apply repeat_matcher_terminator; auto.
  - cbn [match_nodes]. rewrite IH by exact Hb.
    replace (at_boundary prev (head (u ++ b :: w)))
      with (at_boundary prev (head u)); [reflexivity|].
    unfold at_boundary. f_equal.
    destruct u; [symmetry; exact Hw|reflexivity].
Qed.

Lemma repeat_matcher_context_free test k :
  (forall prev prev' s, k prev s = k prev' s) ->
  forall s min max prev prev',
  repeat_matcher test k min max prev s = repeat_matcher test k min max prev' s.
Proof.
  intros Hk. induction s as [|c s IH]; intros min max prev prev'; simpl.
  - destruct min; [apply Hk|reflexivity].
  - rewrite (Hk prev prev'). reflexivity.
Qed.

Lemma match_nodes_context_free ic ns :
  has_boundary ns = false ->
  forall prev prev' s, match_nodes ic ns prev s = match_nodes ic ns prev' s.
Proof.
  induction ns as [|nd ns IH]; intros Hfree prev prev' s; [reflexivity|].
  destruct nd as [items lo hi|]; [|discriminate]. simpl.
  apply repeat_matcher_context_free. auto.
Qed.

Section Splitting.
Variable re : regexp.
Variable repl : list ascii.

Lemma replace_from_context_free :
  has_boundary (source re) = false ->
  forall s skip prev prev',
  replace_from re repl skip prev s = replace_from re repl skip prev' s.
Proof.
  intros Hfree. induction s as [|c s IH]; intros skip prev prev'.
  - destruct skip; simpl; [|reflexivity]. unfold match_here.
    rewrite (match_nodes_context_free _ _ Hfree prev prev'). reflexivity.
  - destruct skip; simpl; [|reflexivity]. unfold match_here.
    rewrite (match_nodes_context_free _ _ Hfree prev prev'). reflexivity.
Qed.

(** The scan of [u ++ b :: w] is the scan of [u], then the scan of
    [b :: w]: no match of [u] reaches [b], none starts before and ends
    after it. *)
Lemma replace_from_terminator b w :
  node_chars (ignoreCase re) (source re) b = false ->
  is_word (Some b) = false ->
  (forall prev, match_here re prev [] = None) ->
  forall n u prev, length u <= n ->
  replace_from re repl 0 prev (u ++ b :: w) =
  replace_from re repl 0 prev u ++ replace_from re repl 0 (last_or prev u) (b :: w).
Proof.
  intros Hb Hw Hnil. induction n as [|n IH]; intros u prev Hlen.
  - destruct u; [|simpl in Hlen; lia].
    cbn [replace_from]. rewrite Hnil. reflexivity.
  - destruct u as [|c u]; [apply (IH [] prev); simpl; lia|].
    simpl in Hlen.
    assert (Hm : match_here re prev ((c :: u) ++ b :: w) = match_here re prev (c :: u))
      by (apply match_nodes_terminator; assumption).
    destruct (match_here re prev (c :: u)) as [[|k]|] eqn:H.
    + change ((c :: u) ++ b :: w) with (c :: u ++ b :: w) in *.
      cbn [replace_from]. rewrite Hm, H.
      rewrite IH by lia. rewrite last_or_cons, <- app_assoc. reflexivity.
    + destruct (match_here_sound _ _ _ _ H) as [Hk _].
      rewrite (replace_from_match _ _ _ _ _ Hm), (replace_from_match _ _ _ _ _ H).
      rewrite take_app_le, drop_app_le by exact Hk.
      rewrite IH by (rewrite length_drop; simpl in *; lia).
      rewrite <- last_or_app, take_drop, <- app_assoc. reflexivity.
    + change ((c :: u) ++ b :: w) with (c :: u ++ b :: w) in *.
      rewrite !replace_from_copy by assumption.
      rewrite IH by lia. rewrite last_or_cons. reflexivity.
Qed.
End Splitting.

End RegExpFacts.

(** ** Redaction is stable *)
Module ProcessorFacts.
Import RegExp RegExpFacts Processor.

Definition EMAIL : list ascii := list_ascii_of_string "[EMAIL]".
Definition PHONE : list ascii := list_ascii_of_string "[PHONE]".

(** The two passes on a few texts. *)
Example redact_phone_and_email :
  redact "call 123-456-7890 or mail Bob.Smith@Mail.example.COM"%string
  = "call [PHONE] or mail [EMAIL]"%string.
Proof. vm_compute. reflexivity. Qed.

Example redact_backtracks_into_domain : redact "a@b.cd.e"%string = "[EMAIL].e"%string.
Proof. vm_compute. reflexivity. Qed.

Example redact_needs_word_boundary :
  redact "12345678901 x1234567890 555.123.4567"%string = "12345678901 x1234567890 [PHONE]"%string.
Proof. vm_compute. reflexivity. Qed.

Example redact_email_then_phone :
  redact "a@b.cd5551234567 x@y.zw-555-123-4567"%string = "[EMAIL][PHONE] [EMAIL]-[PHONE]"%string.
Proof. vm_compute. reflexivity. Qed.

Lemma email_nonempty prev s : match_here EMAIL_RE prev s <> Some 0.
Proof.
  intros H. apply match_here_sound in H as [_ Hm].
  apply matches_min_length in Hm. simpl in Hm. lia.
Qed.

Lemma phone_nonempty prev s : match_here PHONE_RE prev s <> Some 0.
Proof.
  intros H. apply match_here_sound in H as [_ Hm].
  apply matches_min_length in Hm. simpl in Hm. lia.
Qed.

Lemma email_any_context prev prev' y :
  quiet EMAIL_RE prev y -> quiet EMAIL_RE prev' y.
Proof.
  revert prev prev'. induction y as [|c y IH]; intros prev prev' [H Hq];
    (split; [eapply free_any_context; [reflexivity|exact H]|]); [exact I|].
  apply (IH (Some c)). exact Hq.
Qed.

(** Neither placeholder contains an e-mail address, whatever follows it. *)
Lemma email_quiet_EMAIL prev prev' y :
  quiet EMAIL_RE prev y -> quiet EMAIL_RE prev' (EMAIL ++ y).
Proof.
  intros H. unfold EMAIL. simpl.
  repeat (split; [reflexivity|]). eapply email_any_context, H.
Qed.

Lemma email_quiet_PHONE prev prev' y :
  quiet EMAIL_RE prev y -> quiet EMAIL_RE prev' (PHONE ++ y).
Proof.
  intros H. unfold PHONE. simpl.
  repeat (split; [reflexivity|]). eapply email_any_context, H.
Qed.

(** The e-mail pass leaves no e-mail address behind. *)
Lemma email_pass_quiet s prev :
  quiet EMAIL_RE prev (replace_from EMAIL_RE EMAIL 0 None s).
Proof.
  apply (quiet_after_scan EMAIL_RE EMAIL_RE "[" (list_ascii_of_string "EMAIL]"))
    with (n := length s); auto using email_nonempty.
  - apply email_quiet_EMAIL.
  - intros a t _ H. eapply free_any_context; [reflexivity|exact H].
Qed.

(** The phone pass creates no e-mail address. *)
Lemma phone_pass_email_quiet s prev prev' :
  quiet EMAIL_RE prev s ->
  quiet EMAIL_RE prev' (replace_from PHONE_RE PHONE 0 None s).
Proof.
  intros Hq.
  apply (quiet_after_scan PHONE_RE EMAIL_RE "[" (list_ascii_of_string "PHONE]"))
    with (n := length s); auto using phone_nonempty.
  - apply email_quiet_PHONE.
  - intros a t -> _. apply quiet_suffix in Hq. apply quiet_head in Hq.
    eapply free_any_context; [reflexivity|exact Hq].
Qed.

Lemma digit_is_word c : is_digit c = true -> is_word (Some c) = true.
Proof.
  intros H. simpl. unfold is_word_char. rewrite H.
  rewrite orb_true_r. reflexivity.
Qed.

(** The shape of a phone match: digits at both ends, no word character
    around it, and nothing but digits, dots and dashes inside. *)
Lemma phone_shape prev s n :
  match_here PHONE_RE prev s = Some n ->
  is_word prev = false /\ is_word (head (drop n s)) = false /\
  (exists c s', s = c :: s' /\ is_digit c = true) /\
  (exists d, last (take n s) = Some d /\ is_digit d = true) /\
  Forall (fun c => node_chars false (source PHONE_RE) c = true) (take n s).
Proof.
  intros H. apply match_here_sound in H as [Hlen Hm]. simpl in Hm.
  pose proof (matches_alphabet _ _ _ _ _ Hm) as Halpha.
  pose proof (matches_first _ _ _ _ _ _ _ _ Hm) as (c & m' & Hc & Hd & Hb).
  pose proof (matches_last false [Digit] 3 (Some 4)
    [WordBoundary; Class [Digit] 3 (Some 3); Class [Chr "-"; Chr "."] 0 (Some 1);
     Class [Digit] 3 (Some 3); Class [Chr "-"; Chr "."] 0 (Some 1)]
    _ _ _ Hm) as (d & Hl & Hd' & Hb').
  simpl in Hd, Hd'. rewrite orb_false_r in Hd, Hd'.
  unfold at_boundary in Hb, Hb'.
  rewrite (digit_is_word _ Hd) in Hb. rewrite (digit_is_word _ Hd') in Hb'.
  repeat split.
  - destruct (is_word prev); [discriminate|reflexivity].
  - destruct (is_word (head (drop n s))); [discriminate|reflexivity].
  - destruct s as [|c0 s]; [rewrite take_nil in Hc; discriminate|].
    destruct n; [discriminate|]. simpl in Hc. injection Hc as -> _. eauto.
  - eauto.
  - exact Halpha.
Qed.

Lemma phone_needs_digit prev c s :
  is_digit c = false -> match_here PHONE_RE prev (c :: s) = None.
Proof.
  intros Hc. destruct (match_here PHONE_RE prev (c :: s)) as [n|] eqn:H; [|reflexivity].
  apply phone_shape in H as (_ & _ & (c' & s' & Heq & Hd) & _).
  injection Heq as <- _. congruence.
Qed.

Lemma phone_needs_boundary prev s :
  is_word prev = true -> match_here PHONE_RE prev s = None.
Proof.
  intros Hp. destruct (match_here PHONE_RE prev s) as [n|] eqn:H; [|reflexivity].
  apply phone_shape in H as (Hw & _). congruence.
Qed.

Lemma phone_empty prev : match_here PHONE_RE prev [] = None.
Proof.
  destruct (match_here PHONE_RE prev []) as [n|] eqn:H; [|reflexivity].
  apply phone_shape in H as (_ & _ & (c' & s' & Heq & _) & _). discriminate.
Qed.

(** The phone placeholder holds no phone number; after it the scan is at a
    non-word character. *)
Lemma phone_quiet_PHONE prev y :
  quiet PHONE_RE (Some "]") y -> quiet PHONE_RE prev (PHONE ++ y).
Proof.
  intros H. unfold PHONE. simpl.
  repeat (split; [apply phone_needs_digit; reflexivity|]). exact H.
Qed.

Lemma head_drop_app (l a b : list ascii) n :
  n < length l -> head (drop n (l ++ a)) = head (drop n (l ++ b)).
Proof.
  intros Hn. rewrite !drop_app_le by lia.
  destruct (drop n l) as [|x l'] eqn:E; [|reflexivity].
  apply (f_equal length) in E. rewrite length_drop in E. simpl in E. lia.
Qed.

(** A phone number found in the output up to the next placeholder was
    already one of the input: the scan would not have copied its first
    digit. *)
Lemma phone_copy_quiet prev prev' c y :
  is_word prev' = is_word prev ->
  match_here PHONE_RE prev (c :: y) = None ->
  match_here PHONE_RE prev' (c :: replace_from PHONE_RE PHONE 0 (Some c) y) = None.
Proof.
  intros Hp H.
  destruct (scan_prefix PHONE_RE PHONE y (Some c)) as (p & s2 & y2 & Hs & Hy & Hcase).
  rewrite Hy.
  destruct (match_here PHONE_RE prev' (c :: p ++ y2)) as [n|] eqn:H'; [exfalso|reflexivity].
  change (c :: p ++ y2) with ((c :: p) ++ y2) in H'.
  pose proof (phone_shape _ _ _ H') as (_ & Hnext & _ & (d & Hl & Hd) & Halpha).
  apply match_here_sound in H' as [Hlen Hm].
  assert (Hn : n <= length (c :: p)).
  { destruct (le_lt_dec n (length (c :: p))) as [|Hlt]; [assumption|exfalso].
    destruct Hcase as [[_ ->]|[_ [t ->]]]; [rewrite app_nil_r in Hlen; lia|].
    rewrite Forall_forall in Halpha. specialize (Halpha "["%char).
    enough (false = true) by discriminate. apply Halpha.
    apply list_elem_of_lookup. exists (length (c :: p)).
    rewrite lookup_take_lt by lia.
    rewrite lookup_app_r by lia. rewrite Nat.sub_diag. reflexivity. }
  rewrite take_app_le in Hm, Hl by exact Hn.
  assert (Hrest : is_word (head (drop n ((c :: p) ++ s2))) = false).
  { destruct (decide (n = length (c :: p))) as [->|Hne].
    - rewrite drop_app_length.
      destruct Hcase as [[-> _]|[[k Hk] _]]; [reflexivity|exfalso].
      apply phone_shape in Hk as (Hw & _).
      rewrite <- last_or_cons with (prev := None) in Hw.
      rewrite firstn_all in Hl. unfold last_or in Hw. rewrite Hl in Hw.
      rewrite (digit_is_word _ Hd) in Hw. discriminate.
    - rewrite (head_drop_app _ s2 y2) by lia. exact Hnext. }
  pose proof (matches_context _ _ _ _ _ Hm prev (drop n ((c :: p) ++ s2))) as Hm'.
  rewrite Hnext, Hrest in Hm'. specialize (Hm' (eq_sym Hp) eq_refl).
  apply match_here_complete in Hm'.
  rewrite <- (take_app_le (c :: p) s2) in Hm' by exact Hn.
  rewrite take_drop in Hm'. simpl in Hm'. rewrite <- Hs, H in Hm'.
  destruct Hm'; discriminate.
Qed.

(** The phone pass leaves no phone number behind. *)
Lemma phone_pass_quiet n : forall y prev prev',
  length y <= n ->
  is_word prev' = is_word prev \/ is_word (head y) = false ->
  quiet PHONE_RE prev' (replace_from PHONE_RE PHONE 0 prev y).
Proof.
  induction n as [|n IH]; intros y prev prev' Hlen Hctx.
  - destruct y; [|simpl in Hlen; lia].
    simpl. rewrite phone_empty. simpl. split; [apply phone_empty|exact I].
  - destruct y as [|c y].
    { simpl. rewrite phone_empty. simpl. split; [apply phone_empty|exact I]. }
    simpl in Hlen.
    destruct (match_here PHONE_RE prev (c :: y)) as [k|] eqn:H.
    + destruct k as [|k]; [exfalso; exact (phone_nonempty _ _ H)|].
      rewrite (replace_from_match _ _ _ _ _ H).
      apply phone_quiet_PHONE. apply IH.
      * rewrite length_drop. simpl. lia.
      * right. apply phone_shape in H. tauto.
    + rewrite replace_from_copy by exact H. split.
      * destruct (is_digit c) eqn:Hc; [|apply phone_needs_digit; exact Hc].
        destruct Hctx as [Hp|Hw].
        -- apply phone_copy_quiet with (prev := prev); assumption.
        -- change (is_word (Some c) = false) in Hw.
           rewrite (digit_is_word _ Hc) in Hw. discriminate.
      * apply IH; [lia|]. left. reflexivity.
Qed.

(** The two passes on lists of code units, and their composition. *)
Definition redact_list (s : list ascii) : list ascii :=
  replace_list PHONE_RE PHONE (replace_list EMAIL_RE EMAIL s).

Lemma redact_list_idempotent s : redact_list (redact_list s) = redact_list s.
Proof.
  unfold redact_list, replace_list.
  set (y := replace_from EMAIL_RE EMAIL 0 None s).
  set (z := replace_from PHONE_RE PHONE 0 None y).
  assert (He : replace_from EMAIL_RE EMAIL 0 None z = z).
  { apply replace_quiet. apply phone_pass_email_quiet with (prev := None).
    apply email_pass_quiet. }
  rewrite He. apply replace_quiet.
  apply phone_pass_quiet with (n := length y); auto.
Qed.

Lemma redact_as_list text :
  redact text = string_of_list_ascii (redact_list (list_ascii_of_string text)).
Proof.
  unfold redact, replace, redact_list.
  rewrite list_ascii_of_string_of_list_ascii. reflexivity.
Qed.

(** *** The e-mail pass comes first *)

Lemma list_ascii_of_string_app (a b : string) :
  list_ascii_of_string (a ++ b)%string =
  list_ascii_of_string a ++ list_ascii_of_string b.
Proof. induction a as [|c a IH]; simpl; [reflexivity|f_equal; exact IH]. Qed.

Lemma string_of_list_ascii_app (a b : list ascii) :
  string_of_list_ascii (a ++ b) =
  (string_of_list_ascii a ++ string_of_list_ascii b)%string.
Proof. induction a as [|c a IH]; simpl; [reflexivity|rewrite IH; reflexivity]. Qed.

Lemma length_list_ascii_of_string (a : string) :
  length (list_ascii_of_string a) = String.length a.
Proof. induction a as [|c a IH]; simpl; [reflexivity|f_equal; exact IH]. Qed.

Lemma email_scan_any_context skip prev prev' s :
  replace_from EMAIL_RE EMAIL skip prev s = replace_from EMAIL_RE EMAIL skip prev' s.
Proof. apply replace_from_context_free. reflexivity. Qed.

(** The e-mail pass copies a prefix in which no address starts, replaces
    the address that follows it, and goes on behind that address. *)
Lemma email_pass_at_match (pre m post : string) :
  no_email_starts_in pre (m ++ post) = true ->
  email_at (m ++ post) = Some (String.length m) ->
  replace EMAIL_RE "[EMAIL]" (pre ++ m ++ post) =
  (pre ++ "[EMAIL]" ++ replace EMAIL_RE "[EMAIL]" post)%string.
Proof.
  intros Hpre Hm. unfold replace, replace_list.
  change (list_ascii_of_string "[EMAIL]") with EMAIL.
  induction pre as [|c pre IH].
  - simpl. unfold email_at in Hm.
    destruct (String.length m) as [|k] eqn:Hk;
      [exfalso; exact (email_nonempty _ _ Hm)|].
    rewrite (replace_from_match _ _ _ _ _ Hm).
    rewrite list_ascii_of_string_app.
    rewrite <- Hk, <- length_list_ascii_of_string.
    rewrite drop_app_length, string_of_list_ascii_app.
    rewrite (email_scan_any_context 0 _ None). reflexivity.
  - simpl in Hpre. unfold email_at in Hpre.
    destruct (match_here EMAIL_RE None
      (list_ascii_of_string (String c pre ++ m ++ post))) eqn:Hc; [discriminate|].
    simpl in Hc |- *. rewrite Hc. simpl.
    rewrite (email_scan_any_context 0 _ None), (IH Hpre). reflexivity.
Qed.

(** The phone pass never reaches into an [[EMAIL]] placeholder: it handles
    what stands before it, copies it, and resumes behind it. *)
Lemma phone_pass_over_EMAIL (u v : string) :
  replace PHONE_RE "[PHONE]" (u ++ "[EMAIL]" ++ v) =
  (replace PHONE_RE "[PHONE]" u ++ "[EMAIL]"
     ++ replace_after PHONE_RE "[PHONE]" "]" v)%string.
Proof.
  unfold replace, replace_after, replace_list.
  change (list_ascii_of_string "[PHONE]") with PHONE.
  rewrite list_ascii_of_string_app.
  change (list_ascii_of_string ("[EMAIL]" ++ v))
    with ("["%char :: list_ascii_of_string ("EMAIL]" ++ v)).
  rewrite (replace_from_terminator PHONE_RE PHONE "[" _ eq_refl eq_refl phone_empty
             (length (list_ascii_of_string u))) by reflexivity.
  rewrite string_of_list_ascii_app. f_equal.
  simpl list_ascii_of_string.
  do 7 (rewrite replace_from_copy by (apply phone_needs_digit; reflexivity)).
  reflexivity.
Qed.

End ProcessorFacts.

(** ** Rounding to the nearest double *)
Module Binary64Facts.
Import JSNumber.
Local Open Scope Q_scope.

Lemma pow2_pos e : 0 < pow2 e.
Proof. apply Qpower_0_lt. reflexivity. Qed.

Lemma pow2_add a b : pow2 (a + b) == pow2 a * pow2 b.
Proof. apply Qpower_plus. discriminate. Qed.

Lemma pow2_succ e : pow2 (e + 1) == 2 * pow2 e.
Proof. rewrite pow2_add. change (pow2 1) with 2. ring. Qed.

Lemma pow2_le a b : (a <= b)%Z -> pow2 a <= pow2 b.
Proof. intros H. apply Qpower_le_compat_l; [exact H|]. unfold Qle. simpl. lia. Qed.

Lemma pow2_lt a b : (a < b)%Z -> pow2 a < pow2 b.
Proof. intros H. apply Qpower_lt_compat_l; [exact H|]. reflexivity. Qed.

Lemma pow2_inject (a : Z) : (0 <= a)%Z -> inject_Z (2 ^ a) == pow2 a.
Proof. intros H. apply (Zpower_Qpower 2 a H). Qed.

Lemma floor_bounds (x : Q) : inject_Z (Qfloor x) <= x /\ x < inject_Z (Qfloor x) + 1.
Proof.
  split; [apply Qfloor_le|].
  pose proof (Qlt_floor x) as H. rewrite inject_Z_plus in H. exact H.
Qed.

Lemma round_half_even_cases (x : Q) :
  let f := Qfloor x in
  (round_half_even x = f /\ x - inject_Z f <= 1 # 2) \/
  (round_half_even x = (f + 1)%Z /\ 1 # 2 <= x - inject_Z f).
Proof.
  unfold round_half_even. cbv zeta.
  destruct (Qcompare_spec (x - inject_Z (Qfloor x)) (1 # 2)) as [E|L|G].
  - destruct (Z.even (Qfloor x)); [left|right]; split; auto; lra.
  - left. split; auto. lra.
  - right. split; auto. lra.
Qed.

Lemma round_half_even_error (x : Q) :
  - (1 # 2) <= inject_Z (round_half_even x) - x <= 1 # 2.
Proof.
  pose proof (floor_bounds x) as [Hlo Hhi].
  destruct (round_half_even_cases x) as [[-> H]|[-> H]].
  - lra.
  - rewrite inject_Z_plus. change (inject_Z 1) with 1. lra.
Qed.

Lemma round_half_even_monotone (x y : Q) :
  x <= y -> (round_half_even x <= round_half_even y)%Z.
Proof.
  intros Hxy.
  pose proof (Qfloor_resp_le _ _ Hxy) as Hf.
  pose proof (floor_bounds x) as [Hxlo Hxhi].
  pose proof (floor_bounds y) as [Hylo Hyhi].
  destruct (Z.eq_dec (Qfloor x) (Qfloor y)) as [E|N].
  - unfold round_half_even. cbv zeta. rewrite <- E.
    destruct (Qcompare_spec (x - inject_Z (Qfloor x)) (1 # 2)) as [Ex|Lx|Gx];
    destruct (Qcompare_spec (y - inject_Z (Qfloor x)) (1 # 2)) as [Ey|Ly|Gy];
      try destruct (Z.even (Qfloor x)); try lia; exfalso; lra.
  - assert (Qfloor x + 1 <= Qfloor y)%Z by lia.
    destruct (round_half_even_cases x) as [[-> _]|[-> _]];
    destruct (round_half_even_cases y) as [[-> _]|[-> _]]; lia.
Qed.

Lemma round_half_even_inject (z : Z) : round_half_even (inject_Z z) = z.
Proof.
  unfold round_half_even. cbv zeta. rewrite Qfloor_Z.
  destruct (Qcompare_spec (inject_Z z - inject_Z z) (1 # 2)) as [E|L|G];
    try reflexivity; exfalso; lra.
Qed.

Lemma round_half_even_comp (x y : Q) : x == y -> round_half_even x = round_half_even y.
Proof.
  intros E. apply Z.le_antisymm; apply round_half_even_monotone; lra.
Qed.

Lemma Qmake_mult (n : Z) (d : positive) : (n # d) * inject_Z (Z.pos d) == inject_Z n.
Proof. unfold Qeq, Qmult, inject_Z. simpl. lia. Qed.

Lemma log2_bounds (n : Z) :
  (0 < n)%Z -> pow2 (Z.log2 n) <= inject_Z n /\ inject_Z n < pow2 (Z.log2 n + 1).
Proof.
  intros Hn. destruct (Z.log2_spec n Hn) as [Hlo Hhi].
  pose proof (Z.log2_nonneg n) as H0.
  rewrite <- !pow2_inject by lia. rewrite <- Zle_Qle, <- Zlt_Qlt.
  split; [exact Hlo|]. replace (Z.log2 n + 1)%Z with (Z.succ (Z.log2 n)) by lia.
  exact Hhi.
Qed.

Lemma ilog2_spec (x : Q) :
  0 < x -> pow2 (ilog2 x) <= x /\ x < pow2 (ilog2 x + 1).
Proof.
  intros Hx. destruct x as [n d].
  assert (Hn : (0 < n)%Z) by (unfold Qlt in Hx; simpl in Hx; lia).
  unfold ilog2. cbn [Qnum Qden].
  set (a := Z.log2 n). set (b := Z.log2 (Z.pos d)). set (k := (a - b)%Z).
  destruct (log2_bounds n Hn) as [HNlo HNhi]. fold a in HNlo, HNhi.
  destruct (log2_bounds (Z.pos d) eq_refl) as [HDlo HDhi]. fold b in HDlo, HDhi.
  pose proof (Qmake_mult n d) as Hm.
  set (x := n # d) in *. set (N := inject_Z n) in *. set (D := inject_Z (Z.pos d)) in *.
  assert (Ha : pow2 a == pow2 k * pow2 b).
  { rewrite <- pow2_add. unfold k. replace (a - b + b)%Z with a by lia. reflexivity. }
  pose proof (pow2_succ a) as Ha1. pose proof (pow2_succ b) as Hb1.
  pose proof (pow2_succ k) as Hk1.
  assert (Hk0 : pow2 k == 2 * pow2 (k - 1)).
  { rewrite <- pow2_succ. replace (k - 1 + 1)%Z with k by lia. reflexivity. }
  pose proof (pow2_pos k) as Pk. pose proof (pow2_pos b) as Pb.
  pose proof (pow2_pos (k - 1)) as Pk'.
  assert (Hup : x < pow2 (k + 1)).
  { apply Qnot_le_lt. intros Hc. nra. }
  assert (Hlow : pow2 (k - 1) < x).
  { apply Qnot_le_lt. intros Hc. nra. }
  destruct (Qle_bool (pow2 k) x) eqn:E.
  - apply Qle_bool_iff in E. split; assumption.
  - assert (x < pow2 k).
    { apply Qnot_le_lt. intros Hc. apply Qle_bool_iff in Hc. congruence. }
    replace (k - 1 + 1)%Z with k by lia. split; [lra|assumption].
Qed.

Lemma ilog2_unique (x : Q) (l : Z) :
  pow2 l <= x -> x < pow2 (l + 1) -> ilog2 x = l.
Proof.
  intros Hlo Hhi.
  assert (Hx : 0 < x) by (pose proof (pow2_pos l); lra).
  destruct (ilog2_spec x Hx) as [Hlo' Hhi'].
  destruct (Z.lt_trichotomy (ilog2 x) l) as [H|[H|H]]; [|exact H|].
  - pose proof (pow2_le (ilog2 x + 1) l ltac:(lia)). lra.
  - pose proof (pow2_le (l + 1) (ilog2 x) ltac:(lia)). lra.
Qed.

Lemma ilog2_monotone (x y : Q) : 0 < x -> x <= y -> (ilog2 x <= ilog2 y)%Z.
Proof.
  intros Hx Hxy.
  destruct (ilog2_spec x Hx) as [Hlo Hhi].
  destruct (ilog2_spec y ltac:(lra)) as [Hlo' Hhi'].
  destruct (Z_le_gt_dec (ilog2 x) (ilog2 y)) as [H|H]; [exact H|].
  pose proof (pow2_le (ilog2 y + 1) (ilog2 x) ltac:(lia)). lra.
Qed.

Lemma ilog2_le (x : Q) (k : Z) : 0 < x -> x <= pow2 k -> (ilog2 x <= k)%Z.
Proof.
  intros Hx Hk. destruct (ilog2_spec x Hx) as [Hlo Hhi].
  destruct (Z_le_gt_dec (ilog2 x) k) as [H|H]; [exact H|].
  pose proof (pow2_lt k (ilog2 x) ltac:(lia)). lra.
Qed.

(** The order of the numbers; NaN is comparable to nothing. *)
Definition number_le (x y : number) : Prop :=
  match x, y with
  | NaN, _ | _, NaN => False
  | NegInf, _ | _, PosInf => True
  | Fin a, Fin b => a <= b
  | _, _ => False
  end.

Lemma nearest_double_unfold (x : Q) :
  nearest_double x = if Qle_bool (pow2 1024) (nearest x) then PosInf
                     else Fin (Qred (nearest x)).
Proof. reflexivity. Qed.

Lemma div_pow2 (x : Q) (e : Z) : x / pow2 e * pow2 e == x.
Proof. field. pose proof (pow2_pos e). lra. Qed.

Lemma nearest_error (x : Q) :
  - pow2 (exponent x - 1) <= nearest x - x <= pow2 (exponent x - 1).
Proof.
  unfold nearest. set (e := exponent x).
  pose proof (round_half_even_error (x / pow2 e)) as H.
  pose proof (div_pow2 x e) as Hd. pose proof (pow2_pos e) as P.
  assert (He : pow2 e == 2 * pow2 (e - 1)).
  { rewrite <- pow2_succ. replace (e - 1 + 1)%Z with e by lia. reflexivity. }
  set (m := inject_Z (round_half_even (x / pow2 e))) in *.
  set (y := x / pow2 e) in *. nra.
Qed.

Lemma nearest_monotone (x y : Q) : 0 < x -> x <= y -> nearest x <= nearest y.
Proof.
  intros Hx Hxy.
  assert (Hy : 0 < y) by lra.
  pose proof (ilog2_monotone x y Hx Hxy) as Hl.
  destruct (ilog2_spec x Hx) as [Hxlo Hxhi].
  destruct (ilog2_spec y Hy) as [Hylo Hyhi].
  unfold nearest.
  destruct (Z.eq_dec (exponent x) (exponent y)) as [E|N].
  - rewrite <- E. set (e := exponent x).
    pose proof (pow2_pos e) as P.
    assert (H : x / pow2 e <= y / pow2 e).
    { apply Qmult_le_compat_r; [exact Hxy|]. apply Qinv_le_0_compat. lra. }
    apply round_half_even_monotone in H. rewrite Zle_Qle in H.
    apply Qmult_le_compat_r; [exact H|lra].
  - assert (Hlt : (exponent x < exponent y)%Z) by (unfold exponent in *; lia).
    assert (Hey : exponent y = (ilog2 y - 52)%Z) by (unfold exponent in *; lia).
    assert (Hex : (ilog2 x + 1 <= exponent x + 53)%Z) by (unfold exponent; lia).
    set (ex := exponent x) in *. set (ey := exponent y) in *.
    pose proof (pow2_pos ex) as Px. pose proof (pow2_pos ey) as Py.
    (* the significand of x is at most 2^53 *)
    assert (Hmx : inject_Z (round_half_even (x / pow2 ex)) <= pow2 53).
    { rewrite <- (pow2_inject 53) by lia. rewrite <- Zle_Qle.
      rewrite <- (round_half_even_inject (2 ^ 53)).
      apply round_half_even_monotone. rewrite pow2_inject by lia.
      apply Qle_shift_div_r; [exact Px|].
      rewrite <- pow2_add.
      pose proof (pow2_le (ilog2 x + 1) (53 + ex) ltac:(lia)). lra. }
    (* the significand of y is at least 2^52 *)
    assert (Hmy : pow2 52 <= inject_Z (round_half_even (y / pow2 ey))).
    { rewrite <- (pow2_inject 52) by lia. rewrite <- Zle_Qle.
      rewrite <- (round_half_even_inject (2 ^ 52)) at 1.
      apply round_half_even_monotone. rewrite pow2_inject by lia.
      apply Qle_shift_div_l; [exact Py|].
      rewrite <- pow2_add. replace (52 + ey)%Z with (ilog2 y) by lia. exact Hylo. }
    assert (Hp : pow2 53 * pow2 ex <= pow2 52 * pow2 ey).
    { rewrite <- !pow2_add. apply pow2_le. lia. }
    pose proof (pow2_pos 52). pose proof (pow2_pos 53).
    set (mx := inject_Z (round_half_even (x / pow2 ex))) in *.
    set (my := inject_Z (round_half_even (y / pow2 ey))) in *.
    assert (mx * pow2 ex <= pow2 53 * pow2 ex) by (apply Qmult_le_compat_r; lra).
    assert (pow2 52 * pow2 ey <= my * pow2 ey) by (apply Qmult_le_compat_r; lra).
    lra.
Qed.

Lemma nearest_nonneg (x : Q) : 0 < x -> 0 <= nearest x.
Proof.
  intros Hx. unfold nearest. pose proof (pow2_pos (exponent x)) as P.
  assert (H : 0 <= x / pow2 (exponent x)) by (apply Qle_shift_div_l; lra).
  apply round_half_even_monotone in H.
  change (round_half_even 0) with (round_half_even (inject_Z 0)) in H.
  rewrite round_half_even_inject, Zle_Qle in H.
  apply Qmult_le_0_compat; [exact H|lra].
Qed.

Lemma nearest_double_monotone (x y : Q) :
  0 < x -> x <= y -> number_le (nearest_double x) (nearest_double y).
Proof.
  intros Hx Hxy. pose proof (nearest_monotone x y Hx Hxy) as H.
  rewrite !nearest_double_unfold.
  destruct (Qle_bool (pow2 1024) (nearest y)) eqn:Ey.
  - destruct (Qle_bool (pow2 1024) (nearest x)); exact I.
  - destruct (Qle_bool (pow2 1024) (nearest x)) eqn:Ex.
    + apply Qle_bool_iff in Ex.
      assert (Qle_bool (pow2 1024) (nearest y) = true) by (apply Qle_bool_iff; lra).
      congruence.
    + simpl. rewrite !Qred_correct. exact H.
Qed.

Lemma nearest_double_nonneg (x : Q) : 0 < x -> number_le (Fin 0) (nearest_double x).
Proof.
  intros Hx. rewrite nearest_double_unfold.
  destruct (Qle_bool (pow2 1024) (nearest x)); [exact I|].
  simpl. rewrite Qred_correct. apply nearest_nonneg, Hx.
Qed.

Lemma nearest_double_error (x : Q) (k : Z) :
  0 < x -> x <= pow2 k -> (-1022 <= k <= 1023)%Z ->
  exists q, nearest_double x = Fin q /\
    - pow2 (k - 53) <= q - x <= pow2 (k - 53).
Proof.
  intros Hx Hk Hr.
  pose proof (ilog2_le x k Hx Hk) as Hl.
  pose proof (nearest_error x) as He.
  assert (Hle : pow2 (exponent x - 1) <= pow2 (k - 53)).
  { apply pow2_le. unfold exponent. lia. }
  assert (Hbig : pow2 k + pow2 (k - 53) < pow2 1024).
  { pose proof (pow2_lt (k - 53) k ltac:(lia)).
    pose proof (pow2_succ k). pose proof (pow2_le (k + 1) 1024 ltac:(lia)). lra. }
  exists (Qred (nearest x)). rewrite nearest_double_unfold.
  destruct (Qle_bool (pow2 1024) (nearest x)) eqn:E.
  - apply Qle_bool_iff in E. lra.
  - split; [reflexivity|]. rewrite Qred_correct. lra.
Qed.

Lemma number_le_refl (x : number) : x <> NaN -> number_le x x.
Proof. destruct x; simpl; try tauto. intros _. lra. Qed.

Lemma number_le_trans (x y z : number) : number_le x y -> number_le y z -> number_le x z.
Proof. destruct x, y, z; simpl; try tauto. intros; lra. Qed.

Lemma number_le_not_NaN (x y : number) : number_le x y -> x <> NaN /\ y <> NaN.
Proof. destruct x, y; simpl; try tauto; split; discriminate. Qed.

Lemma number_le_negate (a b : number) : number_le a b -> number_le (negate b) (negate a).
Proof. destruct a, b; simpl; try tauto. rewrite !Qred_correct. intros; lra. Qed.

Lemma binary64_cases (x : Q) :
  (x < 0 /\ binary64 x = negate (nearest_double (- x))) \/
  (x == 0 /\ binary64 x = Fin 0) \/
  (0 < x /\ binary64 x = nearest_double x).
Proof.
  unfold binary64. destruct (Qcompare_spec x 0); auto.
Qed.

Lemma binary64_sign (x : Q) :
  (x <= 0 -> number_le (binary64 x) (Fin 0)) /\ (0 <= x -> number_le (Fin 0) (binary64 x)).
Proof.
  destruct (binary64_cases x) as [[Hx ->]|[[Hx ->]|[Hx ->]]]; split; intros H;
    try (exfalso; lra); try (simpl; lra).
  - apply (number_le_negate (Fin 0)). apply nearest_double_nonneg. lra.
  - apply nearest_double_nonneg, Hx.
Qed.

(** Rounding to the nearest double is monotone. *)
Lemma binary64_monotone (x y : Q) : x <= y -> number_le (binary64 x) (binary64 y).
Proof.
  intros Hxy.
  destruct (Qlt_le_dec 0 x) as [Hx|Hx]; [|destruct (Qlt_le_dec y 0) as [Hy|Hy]].
  - destruct (binary64_cases x) as [[H _]|[[H _]|[_ ->]]]; try (exfalso; lra).
    destruct (binary64_cases y) as [[H _]|[[H _]|[_ ->]]]; try (exfalso; lra).
    apply nearest_double_monotone; assumption.
  - destruct (binary64_cases x) as [[_ ->]|[[H _]|[H _]]]; try (exfalso; lra).
    destruct (binary64_cases y) as [[_ ->]|[[H _]|[H _]]]; try (exfalso; lra).
    apply number_le_negate, nearest_double_monotone; lra.
  - apply (number_le_trans _ (Fin 0)); [apply binary64_sign, Hx|apply binary64_sign, Hy].
Qed.

Lemma binary64_not_NaN (x : Q) : binary64 x <> NaN.
Proof. apply (number_le_not_NaN _ _ (binary64_monotone x x ltac:(lra))). Qed.

(** The error of the rounding: half a unit in the last place. *)
Lemma binary64_error (x : Q) (k : Z) :
  - pow2 k <= x <= pow2 k -> (-1022 <= k <= 1023)%Z ->
  exists q, binary64 x = Fin q /\ - pow2 (k - 53) <= q - x <= pow2 (k - 53).
Proof.
  intros Hx Hk. pose proof (pow2_pos (k - 53)) as P.
  destruct (binary64_cases x) as [[H ->]|[[H ->]|[H ->]]].
  - destruct (nearest_double_error (- x) k) as (q & -> & Hq); [lra|lra|exact Hk|].
    exists (Qred (- q)). split; [reflexivity|]. rewrite Qred_correct. lra.
  - exists 0. split; [reflexivity|]. lra.
  - destruct (nearest_double_error x k) as (q & -> & Hq); [lra|lra|exact Hk|].
    exists q. split; [reflexivity|]. lra.
Qed.

Lemma rounded_monotone (a b : number) : number_le a b -> number_le (rounded a) (rounded b).
Proof.
  destruct a as [| | |x], b as [| | |y]; simpl; try tauto.
  - intros _. pose proof (binary64_not_NaN y). destruct (binary64 y); simpl; tauto.
  - intros _. pose proof (binary64_not_NaN x). destruct (binary64 x); simpl; tauto.
  - apply binary64_monotone.
Qed.

Lemma add_monotone (a b : number) (c : Q) :
  number_le a b -> number_le (add a (Fin c)) (add b (Fin c)).
Proof.
  destruct a as [| | |x], b as [| | |y]; simpl; try tauto.
  rewrite !Qred_correct. intros; lra.
Qed.

Lemma mul_monotone (a b : number) (c : Q) :
  0 < c -> number_le a b -> number_le (mul a (Fin c)) (mul b (Fin c)).
Proof.
  intros Hc. assert (E : Qcompare c 0 = Gt) by (apply Qgt_alt; exact Hc).
  destruct a as [| | |x], b as [| | |y]; simpl; unfold mul_inf; rewrite ?E; simpl;
    try tauto.
  rewrite !Qred_correct. intros. nra.
Qed.

Lemma plus_monotone (a b : number) (c : Q) :
  number_le a b -> number_le (plus a (Fin c)) (plus b (Fin c)).
Proof. intros H. apply rounded_monotone, add_monotone, H. Qed.

Lemma times_monotone (a b : number) (c : Q) :
  0 < c -> number_le a b -> number_le (times a (Fin c)) (times b (Fin c)).
Proof. intros Hc H. apply rounded_monotone, mul_monotone; assumption. Qed.

Lemma Math_round_monotone (a b : number) : number_le a b -> number_le (Math_round a) (Math_round b).
Proof.
  destruct a as [| | |x], b as [| | |y]; simpl; try tauto.
  intros H. rewrite <- Zle_Qle. unfold round_half_up. apply Qfloor_resp_le. lra.
Qed.

Lemma Qle_bool_false (a b : Q) : Qle_bool a b = false -> b < a.
Proof.
  intros H. apply Qnot_le_lt. intros Hc. apply Qle_bool_iff in Hc. congruence.
Qed.

Ltac qle_bool :=
  repeat match goal with
  | H : Qle_bool _ _ = true |- _ => apply Qle_bool_iff in H
  | H : Qle_bool _ _ = false |- _ => apply Qle_bool_false in H
  | |- context [Qle_bool ?a ?b] => destruct (Qle_bool a b) eqn:?
  end.

Lemma Math_max_monotone (c : Q) (a b : number) :
  number_le a b -> number_le (Math_max (Fin c) a) (Math_max (Fin c) b).
Proof.
  destruct a as [| | |x], b as [| | |y]; simpl; try tauto;
    intros H; qle_bool; simpl; try exact I; lra.
Qed.

Lemma Math_min_monotone (c : Q) (a b : number) :
  number_le a b -> number_le (Math_min (Fin c) a) (Math_min (Fin c) b).
Proof.
  destruct a as [| | |x], b as [| | |y]; simpl; try tauto;
    intros H; qle_bool; simpl; try exact I; lra.
Qed.

End Binary64Facts.

(** ** The histogram binner *)
Module BinnerFacts.
Import JSNumber Routes Binary64Facts.
Local Open Scope Z_scope.

Lemma add_of_Z a b : add (of_Z a) (of_Z b) = of_Z (a + b).
Proof.
  unfold of_Z. simpl. f_equal.
  rewrite <- (inject_Z_Qred (a + b)). apply Qred_complete.
  rewrite inject_Z_plus. reflexivity.
Qed.

Lemma Qle_bool_inject_Z a b : Qle_bool (inject_Z a) (inject_Z b) = (a <=? b).
Proof.
  destruct (a <=? b) eqn:E.
  - apply Qle_bool_iff. rewrite <- Zle_Qle. apply Z.leb_le, E.
  - destruct (Qle_bool (inject_Z a) (inject_Z b)) eqn:E'; [|reflexivity].
    apply Qle_bool_iff in E'. rewrite <- Zle_Qle in E'.
    apply Z.leb_le in E'. congruence.
Qed.

Lemma Math_max_of_Z a b : Math_max (of_Z a) (of_Z b) = of_Z (Z.max a b).
Proof.
  unfold of_Z. simpl. rewrite Qle_bool_inject_Z.
  destruct (a <=? b) eqn:E; f_equal; f_equal.
  - apply Z.leb_le in E. lia.
  - apply Z.leb_gt in E. lia.
Qed.

Lemma Math_min_of_Z a b : Math_min (of_Z a) (of_Z b) = of_Z (Z.min a b).
Proof.
  unfold of_Z. simpl. rewrite Qle_bool_inject_Z.
  destruct (a <=? b) eqn:E; f_equal; f_equal.
  - apply Z.leb_le in E. lia.
  - apply Z.leb_gt in E. lia.
Qed.

(** The number the binner rounds to an integer: [(score + 1) * 5] in
    doubles. *)
Definition scaled (score : number) : number :=
  times (plus score (of_Z 1)) (of_Z 5).

Lemma binIndex_scaled (score : number) :
  binIndex score = Math_min (of_Z 10) (Math_max (of_Z 0) (Math_round (scaled score))).
Proof. reflexivity. Qed.

Lemma scaled_monotone (a b : number) :
  number_le a b -> number_le (scaled a) (scaled b).
Proof.
  intros H. unfold scaled, of_Z.
  apply times_monotone; [reflexivity|]. apply plus_monotone, H.
Qed.

Lemma scaled_not_NaN (s : number) : s <> NaN -> scaled s <> NaN.
Proof.
  intros Hs. apply (number_le_not_NaN (scaled s) (scaled s)).
  apply scaled_monotone, number_le_refl, Hs.
Qed.

(** The clamped rounding of a number that is not NaN. *)
Lemma clamp_round (x : number) :
  x <> NaN ->
  exists z, 0 <= z <= 10 /\
    Math_min (of_Z 10) (Math_max (of_Z 0) (Math_round x)) = of_Z z /\
    forall p, x = Fin p -> z = Z.min 10 (Z.max 0 (round_half_up p)).
Proof.
  intros Hx. destruct x as [| | |p]; [congruence| | |].
  - exists 10. repeat split; try lia. intros; discriminate.
  - exists 0. repeat split; try lia. intros; discriminate.
  - exists (Z.min 10 (Z.max 0 (round_half_up p))). split; [lia|]. split.
    + cbn [Math_round]. rewrite Math_max_of_Z, Math_min_of_Z. reflexivity.
    + intros p' [= <-]. reflexivity.
Qed.

(** On a finite value of [(score + 1) * 5] the binner is the clamped
    rounding of that value. *)
Lemma binIndex_Fin (s : number) (p : Q) :
  scaled s = Fin p ->
  binIndex s = of_Z (Z.min 10 (Z.max 0 (round_half_up p))).
Proof.
  intros Hp. rewrite binIndex_scaled, Hp. cbn [Math_round].
  rewrite Math_max_of_Z, Math_min_of_Z. reflexivity.
Qed.

(** The binner is monotone. *)
Lemma binIndex_le (a b : number) :
  number_le a b -> number_le (binIndex a) (binIndex b).
Proof.
  intros H. rewrite !binIndex_scaled. unfold of_Z.
  apply Math_min_monotone, Math_max_monotone, Math_round_monotone.
  apply scaled_monotone, H.
Qed.

(** For a score of [-1, 1] the value of [(score + 1) * 5] in doubles is
    finite and within [2^-48] of the exact value. *)
Lemma scaled_accuracy (s : Q) :
  (-1 <= s)%Q -> (s <= 1)%Q ->
  exists p : Q, scaled (Fin s) = Fin p /\
    (- pow2 (-48) <= p - (s + 1) * 5 <= pow2 (-48))%Q.
Proof.
  intros Hlo Hhi. unfold scaled, plus, times, of_Z. cbn [add rounded].
  assert (E52 : (pow2 (1 - 53) == pow2 (-52))%Q) by reflexivity.
  assert (E49 : (pow2 (4 - 53) == 8 * pow2 (-52))%Q) by reflexivity.
  assert (E48 : (pow2 (-48) == 16 * pow2 (-52))%Q) by reflexivity.
  assert (P52 : (pow2 (-52) <= 1)%Q) by (unfold Qle; simpl; lia).
  pose proof (pow2_pos (-52)) as P.
  destruct (binary64_error (Qred (s + inject_Z 1)) 1) as (a & -> & Ha); [|lia|].
  { rewrite Qred_correct. change (pow2 1) with 2%Q. change (inject_Z 1) with 1%Q.
    split; lra. }
  rewrite Qred_correct in Ha. change (inject_Z 1) with 1%Q in Ha.
  cbn [mul rounded].
  destruct (binary64_error (Qred (a * inject_Z 5)) 4) as (p & -> & Hp); [|lia|].
  { rewrite Qred_correct. change (pow2 4) with 16%Q. change (inject_Z 5) with 5%Q.
    split; lra. }
  rewrite Qred_correct in Hp. change (inject_Z 5) with 5%Q in Hp.
  exists p. split; [reflexivity|]. lra.
Qed.

Lemma array_index_of_Z i :
  0 <= i < 2 ^ 32 - 1 -> array_index (of_Z i) = Some (Z.to_nat i).
Proof.
  intros Hi. unfold array_index, of_Z. rewrite Qfloor_Z, Qeq_bool_refl.
  destruct (Z.leb_spec 0 i); [|lia].
  destruct (Z.ltb_spec i (2 ^ 32 - 1)); [reflexivity|lia].
Qed.

(** On any number but NaN the binner yields one of the indices 0..10. *)
Lemma binIndex_index (s : number) :
  s <> NaN ->
  exists i : nat, (i <= 10)%nat /\ binIndex s = of_nat i /\
    array_index (binIndex s) = Some i.
Proof.
  intros Hs. rewrite binIndex_scaled.
  destruct (clamp_round (scaled s) (scaled_not_NaN s Hs)) as (z & Hz & -> & _).
  exists (Z.to_nat z). split; [lia|]. unfold of_nat.
  rewrite Z2Nat.id by lia. split; [reflexivity|].
  apply array_index_of_Z. lia.
Qed.

Lemma binIndex_NaN : binIndex NaN = NaN.
Proof. reflexivity. Qed.

End BinnerFacts.

(** ** The histogram of one run *)
Module HistogramFacts.
Import JSNumber Processor Routes BinnerFacts.

(** A histogram whose counters are the natural numbers [counts]. *)
Definition of_counts (counts : list nat) : list number := of_nat <$> counts.

Lemma new_bins_counts : new_bins = of_counts (replicate 11 0).
Proof. reflexivity. Qed.

Lemma sum_list_alter_S (counts : list nat) : forall i,
  i < length counts -> sum_list (alter S i counts) = S (sum_list counts).
Proof.
  induction counts as [|c counts IH]; intros i Hi; [simpl in Hi; lia|].
  destruct i as [|i]; simpl in *; [lia|].
  change (list_alter S i counts) with (alter S i counts).
  rewrite IH by lia. lia.
Qed.

Lemma sum_of_counts counts : sum (of_counts counts) = of_nat (sum_list counts).
Proof.
  induction counts as [|c counts IH]; [reflexivity|].
  change (sum (of_counts (c :: counts)))
    with (add (of_nat c) (sum (of_counts counts))).
  rewrite IH. unfold of_nat. rewrite add_of_Z. f_equal.
  change (sum_list (c :: counts)) with (c + sum_list counts). lia.
Qed.

(** [bins[i]++] on counters, for an index inside the array. *)
Lemma increment_counts counts i :
  i < length counts -> i <= 10 ->
  increment (of_counts counts) (of_nat i) = of_counts (alter S i counts).
Proof.
  intros Hi Hi'. unfold increment, of_nat.
  rewrite array_index_of_Z by lia. rewrite Nat2Z.id.
  destruct (lookup_lt_is_Some_2 counts i Hi) as [c Hc].
  unfold of_counts. rewrite list_lookup_fmap, Hc.
  change (of_nat <$> Some c) with (Some (of_Z (Z.of_nat c))).
  cbv iota beta. rewrite add_of_Z.
  replace (Z.of_nat c + 1)%Z with (Z.of_nat (S c)) by lia.
  change (of_Z (Z.of_nat (S c))) with (of_nat (S c)).
  rewrite <- list_fmap_insert. f_equal.
  apply list_eq. intros j. destruct (decide (i = j)) as [<-|Hne].
  - rewrite list_lookup_insert_eq by exact Hi.
    rewrite list_lookup_alter_eq, Hc. reflexivity.
  - rewrite list_lookup_insert_ne by exact Hne.
    rewrite list_lookup_alter_ne by exact Hne. reflexivity.
Qed.

(** A key that is no array index leaves every element as it is. *)
Lemma increment_NaN bins : increment bins NaN = bins.
Proof. reflexivity. Qed.

Section Run.
Context `{SentimentIntensityAnalyzer}.

(** The contract of the scorer the pipeline relies on: the compound score
    is a number. *)
Definition scorer_total : Prop :=
  forall text, compound (polarity_scores text) <> NaN.

Lemma analyzeText_score_number text :
  scorer_total -> score (analyzeText text) <> NaN.
Proof.
  intros Hs. unfold analyzeText.
  destruct (String.eqb text ""); simpl; [discriminate|apply Hs].
Qed.

Lemma analyze_score_number (text : value) :
  scorer_total -> score (analyze text) <> NaN.
Proof.
  intros Hs. destruct text; try discriminate.
  apply analyzeText_score_number, Hs.
Qed.

(** One [data] event increments exactly one of eleven counters. *)
Lemma on_data_counts postCol counts r :
  scorer_total -> length counts = 11 ->
  exists i, i < 11 /\
    on_data postCol (of_counts counts) r = of_counts (alter S i counts).
Proof.
  intros Hs Hlen. unfold on_data.
  set (text := or_empty (get (normalizedRow r) postCol)).
  destruct (binIndex_index (score (analyze text)))
    as (i & Hi & Hb & _); [apply analyze_score_number, Hs|].
  exists i. split; [lia|]. rewrite Hb. apply increment_counts; lia.
Qed.

Lemma after_rows_counts postCol rs : forall counts,
  scorer_total -> length counts = 11 ->
  exists counts',
    foldl (on_data postCol) (of_counts counts) rs = of_counts counts' /\
    length counts' = 11 /\
    sum_list counts' = sum_list counts + length rs.
Proof.
  induction rs as [|r rs IH]; intros counts Hs Hlen.
  - exists counts. simpl. auto with lia.
  - destruct (on_data_counts postCol counts r Hs Hlen) as (i & Hi & Hstep).
    destruct (IH (alter S i counts) Hs) as (counts' & Hfold & Hlen' & Hsum).
    { rewrite length_alter. exact Hlen. }
    exists counts'. simpl. rewrite Hstep, Hfold. repeat split; auto.
    rewrite Hsum, sum_list_alter_S by lia. simpl. lia.
Qed.

(** Without any assumption on the scorer: a [data] event either leaves
    the elements alone (a NaN score) or adds one to one of them. *)
Lemma binIndex_cases s :
  binIndex s = NaN \/ exists i, i <= 10 /\ binIndex s = of_nat i.
Proof.
  destruct s as [| | |q] eqn:E; [left; reflexivity|right..];
    (edestruct binIndex_index as (i & Hi & Hb & _); [|eauto]; discriminate).
Qed.

Lemma increment_element (bins : list number) i :
  i < length bins -> i <= 10 ->
  increment bins (of_nat i) = alter (fun v => add v (of_Z 1)) i bins.
Proof.
  intros Hi Hi'. unfold increment, of_nat.
  rewrite array_index_of_Z by lia. rewrite Nat2Z.id.
  destruct (lookup_lt_is_Some_2 bins i Hi) as [v Hv]. rewrite Hv.
  apply list_eq. intros j. destruct (decide (i = j)) as [<-|Hne].
  - rewrite list_lookup_insert_eq by exact Hi.
    rewrite list_lookup_alter_eq, Hv. reflexivity.
  - rewrite list_lookup_insert_ne by exact Hne.
    rewrite list_lookup_alter_ne by exact Hne. reflexivity.
Qed.

Lemma on_data_cases postCol (bins : list number) r :
  length bins = 11 ->
  on_data postCol bins r = bins \/
  exists i, i < 11 /\
    on_data postCol bins r = alter (fun v => add v (of_Z 1)) i bins.
Proof.
  intros Hlen. unfold on_data.
  destruct (binIndex_cases
    (score (analyze (or_empty (get (normalizedRow r) postCol)))))
    as [->|(i & Hi & ->)]; [left; reflexivity|right].
  exists i. split; [lia|]. apply increment_element; lia.
Qed.

Lemma on_data_length postCol (bins : list number) r :
  length bins = 11 -> length (on_data postCol bins r) = 11.
Proof.
  intros Hlen. destruct (on_data_cases postCol bins r Hlen) as [->|(i & _ & ->)];
    [exact Hlen|]. rewrite length_alter. exact Hlen.
Qed.

(** Two [data] events commute. *)
Lemma on_data_commute postCol (bins : list number) r1 r2 :
  length bins = 11 ->
  on_data postCol (on_data postCol bins r1) r2 =
  on_data postCol (on_data postCol bins r2) r1.
Proof.
  intros Hlen.
  pose proof (on_data_length postCol bins r1 Hlen) as Hlen1.
  pose proof (on_data_length postCol bins r2 Hlen) as Hlen2.
  unfold on_data in *.
  set (k1 := binIndex (score (analyze (or_empty (get (normalizedRow r1) postCol))))) in *.
  set (k2 := binIndex (score (analyze (or_empty (get (normalizedRow r2) postCol))))) in *.
  assert (Hk1 : k1 = NaN \/ exists i, i <= 10 /\ k1 = of_nat i) by apply binIndex_cases.
  assert (Hk2 : k2 = NaN \/ exists i, i <= 10 /\ k2 = of_nat i) by apply binIndex_cases.
  clearbody k1 k2.
  destruct Hk1 as [->|(i & Hi & ->)]; [reflexivity|].
  destruct Hk2 as [->|(j & Hj & ->)]; [reflexivity|].
  rewrite (increment_element bins i), (increment_element bins j) by lia.
  rewrite !increment_element by (rewrite ?length_alter; lia).
  destruct (decide (i = j)) as [->|Hne]; [reflexivity|].
  apply list_alter_alter_ne. congruence.
Qed.

Lemma foldl_on_data_permutation postCol rs rs' :
  rs ≡ₚ rs' -> forall bins : list number, length bins = 11 ->
  foldl (on_data postCol) bins rs = foldl (on_data postCol) bins rs'.
Proof.
  induction 1 as [|r rs rs' Hp IH|r1 r2 rs|rs1 rs2 rs3 Hp1 IH1 Hp2 IH2];
    intros bins Hlen; simpl.
  - reflexivity.
  - apply IH, on_data_length, Hlen.
  - rewrite on_data_commute by exact Hlen. reflexivity.
  - rewrite IH1 by exact Hlen. apply IH2, Hlen.
Qed.

End Run.
End HistogramFacts.

(** ** Rows and columns *)
Module RowFacts.
Import Routes.
Local Open Scope string_scope.

Lemma assign_lookup_ne (acc : gmap string string) (key cell k : string) :
  key <> k -> assign acc key cell !! k = acc !! k.
Proof.
  intros Hne. unfold assign. destruct (String.eqb key "__proto__"); [reflexivity|].
  apply lookup_insert_ne, Hne.
Qed.

Lemma assign_lookup_eq (acc : gmap string string) (key cell : string) :
  key <> "__proto__" -> assign acc key cell !! key = Some cell.
Proof.
  intros Hne. unfold assign. apply String.eqb_neq in Hne. rewrite Hne.
  apply lookup_insert_eq.
Qed.



End RowFacts.

(** ** A scorer for the examples

    The scenario of the specification: "I love this" scores 0.8,
    "I hate this" scores -0.8, anything else 0. *)
Module Example.
Import JSNumber Processor Routes.
Local Open Scope string_scope.

Definition example_scores (text : string) : intensity :=
  let c :=
    if String.prefix "I love" text then binary64 (4 # 5)
    else if String.prefix "I hate" text then binary64 (-4 # 5)
    else of_Z 0 in
  {| neg := of_Z 0; neu := of_Z 0; pos := of_Z 0; compound := c |}.

Definition example_analyzer : SentimentIntensityAnalyzer :=
  {| polarity_scores := example_scores |}.

Definition example_rows : list row :=
  [ [("post", "I love this")]; [("Post", "")]; [("POST", "I hate this")] ].

Definition example_file : file :=
  File "uploads/0f3a" None example_rows StreamEnd None.

Definition example_db : database := Database [] 0 None.

End Example.

(** * The claims of the specification *)

Import JSNumber RegExp Processor Routes.
Import RegExpFacts ProcessorFacts Binary64Facts BinnerFacts HistogramFacts RowFacts Example.
Local Open Scope string_scope.

(** C1.  The histogram binner computes [Math.round] of [(s + 1) * 5]
    clamped into [0, 10], the sum and the product being those of doubles.
    For a score of [-1, 1] the value rounded is within [2^-48] of the
    exact [(s + 1) * 5] and its rounding already lies in [0, 10]; so the
    index is the rounding of the exact value wherever that value is not
    within [2^-48] of a tie.  [Math.round] sends a tie up.
    bin(-1.0) = 0, bin(0.0) = 5, bin(1.0) = 10; a score outside the range
    (1.3, an infinity) is capped: every score that is a number yields an
    index of the array, one of 0..10. *)
Theorem binIndex_rounds_and_clamps :
  (forall (s : number) (p : Q),
     times (plus s (of_Z 1)) (of_Z 5) = Fin p ->
     binIndex s = of_Z (Z.min 10 (Z.max 0 (round_half_up p)))) /\
  (forall s : Q, (-1 <= s)%Q -> (s <= 1)%Q ->
     exists p : Q,
       times (plus (Fin s) (of_Z 1)) (of_Z 5) = Fin p /\
       (- pow2 (-48) <= p - (s + 1) * 5 <= pow2 (-48))%Q /\
       binIndex (Fin s) = of_Z (round_half_up p) /\
       (0 <= round_half_up p <= 10)%Z) /\
  (forall (s : Q) (k : Z), (-1 <= s)%Q -> (s <= 1)%Q ->
     (inject_Z k - (1 # 2) + pow2 (-48) <= (s + 1) * 5)%Q ->
     ((s + 1) * 5 < inject_Z k + (1 # 2) - pow2 (-48))%Q ->
     binIndex (Fin s) = of_Z k /\ round_half_up ((s + 1) * 5) = k) /\
  Math_round (Fin (5 # 2)) = of_Z 3 /\
  Math_round (Fin (-5 # 2)) = of_Z (-2) /\
  binIndex (binary64 (-1 # 10)) = of_Z 5 /\
  binIndex (of_Z (-1)) = of_Z 0 /\
  binIndex (of_Z 0) = of_Z 5 /\
  binIndex (of_Z 1) = of_Z 10 /\
  binIndex (binary64 (13 # 10)) = of_Z 10 /\
  binIndex PosInf = of_Z 10 /\
  binIndex NegInf = of_Z 0 /\
  (forall s : number, s <> NaN ->
     exists i : nat, i <= 10 /\ binIndex s = of_nat i /\
       array_index (binIndex s) = Some i).
Proof.
  assert (Hfloor : forall (x : Q) (k : Z),
            (inject_Z k <= x)%Q -> (x < inject_Z k + 1)%Q -> Qfloor x = k).
  { intros x k Hlo Hhi.
    pose proof (Qfloor_resp_le _ _ Hlo) as H1. rewrite Qfloor_Z in H1.
    pose proof (Qfloor_le x) as H2.
    assert (H3 : (inject_Z (Qfloor x) < inject_Z (k + 1))%Q)
      by (rewrite inject_Z_plus; change (inject_Z 1) with 1%Q; lra).
    rewrite <- Zlt_Qlt in H3. lia. }
  assert (Hrange : forall s : Q, (-1 <= s)%Q -> (s <= 1)%Q ->
     exists p : Q,
       times (plus (Fin s) (of_Z 1)) (of_Z 5) = Fin p /\
       (- pow2 (-48) <= p - (s + 1) * 5 <= pow2 (-48))%Q /\
       binIndex (Fin s) = of_Z (round_half_up p) /\
       (0 <= round_half_up p <= 10)%Z).
  { intros s Hlo Hhi.
    destruct (scaled_accuracy s Hlo Hhi) as (p & Hp & Hacc).
    assert (P48 : (pow2 (-48) <= 1 # 4)%Q) by (unfold Qle; simpl; lia).
    assert (Hr : (0 <= round_half_up p <= 10)%Z).
    { unfold round_half_up. split.
      - rewrite <- (Qfloor_Z 0). apply Qfloor_resp_le. change (inject_Z 0) with 0%Q. lra.
      - change 10%Z with (Qfloor (43 # 4)). apply Qfloor_resp_le. lra. }
    exists p. split; [exact Hp|]. split; [exact Hacc|]. split; [|exact Hr].
    rewrite (binIndex_Fin _ _ Hp). f_equal. lia. }
  split; [exact binIndex_Fin|].
  split; [exact Hrange|].
  split.
  { intros s k Hlo Hhi Hk1 Hk2.
    destruct (Hrange s Hlo Hhi) as (p & _ & Hacc & Hb & _).
    assert (Hp : round_half_up p = k).
    { unfold round_half_up. apply Hfloor; lra. }
    split; [rewrite Hb, Hp; reflexivity|].
    pose proof (pow2_pos (-48)). unfold round_half_up. apply Hfloor; lra. }
  repeat (split; [vm_compute; reflexivity|]).
  exact binIndex_index.
Qed.

(** C1, at the score 1.3 of the specification's example. *)
Lemma binIndex_rounds_and_clamps_witness :
  exists i : nat, i <= 10 /\ binIndex (binary64 (13 # 10)) = of_nat i /\
    array_index (binIndex (binary64 (13 # 10))) = Some i.
Proof.
  apply (proj2 (proj2 (proj2 (proj2 (proj2 (proj2 (proj2 (proj2 (proj2 (proj2
    (proj2 (proj2 binIndex_rounds_and_clamps)))))))))))).
  vm_compute. discriminate.
Defined.

(** C1, as stated with the exact value of [(s + 1) * 5]: the double
    nearest to -0.1 is a score of [-1, 1] that the binner puts into bucket
    5, while the rounding of its exact [(s + 1) * 5], a little below 4.5,
    is 4; and the binner puts the double nearest to -0.9 into bucket 0,
    while the rounding of (-0.9 + 1) * 5 = 0.5 is 1. *)
Lemma binIndex_differs_from_exact_rounding :
  binary64 (-1 # 10) = Fin (-3602879701896397 # 36028797018963968) /\
  (-1 <= -3602879701896397 # 36028797018963968)%Q /\
  (-3602879701896397 # 36028797018963968 <= 1)%Q /\
  binIndex (Fin (-3602879701896397 # 36028797018963968)) = of_Z 5 /\
  Z.min 10 (Z.max 0
    (round_half_up (((-3602879701896397 # 36028797018963968) + 1) * 5))) = 4%Z /\
  binIndex (binary64 (-9 # 10)) = of_Z 0 /\
  Z.min 10 (Z.max 0 (round_half_up (((-9 # 10) + 1) * 5))) = 1%Z.
Proof. repeat split; vm_compute; try reflexivity; discriminate. Qed.

Lemma example_scorer_total : @scorer_total example_analyzer.
Proof.
  intros text. simpl. unfold example_scores. simpl.
  destruct (String.prefix "I love" text); [discriminate|].
  destruct (String.prefix "I hate" text); discriminate.
Qed.

(** C2.  A run that completes (the stream ends, the insert succeeds) over
    a file of [n] rows answers with, and stores, a histogram of exactly 11
    counters that are natural numbers and sum to [n]: the counters start at
    zero and each row, whatever its text, adds one to exactly one of them.
    This holds for both ingestion routes, and the response and the stored
    record are the same whether or not the upload can be removed
    afterwards.  The scorer is assumed to return a number, as its contract
    says. *)
Theorem histogram_sums_to_row_count `{SentimentIntensityAnalyzer} :
  scorer_total ->
  forall (DB_HOST : option string) (p : string) (rs : list row) (b : body)
         (tbl : list aggregate) (lid : Z),
  let req := Request (Some (File p None rs StreamEnd None)) b in
  let db := Database tbl lid None in
  let title := or_else (chart_title b) "New Analysis" in
  new_bins = of_counts (replicate 11 0) /\
  (forall postCol counts r, length counts = 11 ->
     exists i, i < 11 /\
       on_data postCol (of_counts counts) r = of_counts (alter S i counts)) /\
  exists counts : list nat,
    length counts = 11 /\
    sum_list counts = length rs /\
    sum (of_counts counts) = of_nat (length rs) /\
    index_ingest DB_HOST req db =
      respond 200 (IngestPayload (lid + 1) (of_counts counts) (Some (mode_of DB_HOST)))
        (Database (tbl ++ [Aggregate (lid + 1) title (of_counts counts)]) (lid + 1) None)
        true /\
    sentiment_ingest req db =
      respond 200 (IngestPayload (lid + 1) (of_counts counts) None)
        (Database (tbl ++ [Aggregate (lid + 1) title (of_counts counts)]) (lid + 1) None)
        true /\
    forall u : option string,
      let req' := Request (Some (File p None rs StreamEnd u)) b in
      sent (index_ingest DB_HOST req' db) = sent (index_ingest DB_HOST req db) /\
      db_after (index_ingest DB_HOST req' db) = db_after (index_ingest DB_HOST req db) /\
      sent (sentiment_ingest req' db) = sent (sentiment_ingest req db) /\
      db_after (sentiment_ingest req' db) = db_after (sentiment_ingest req db).
Proof.
  intros Hs DB_HOST p rs b tbl lid req db title.
  split; [reflexivity|]. split.
  { intros postCol counts r Hlen. apply on_data_counts; assumption. }
  set (postCol := toLowerCase (or_else (post_column b) "post")).
  destruct (after_rows_counts postCol rs (replicate 11 0) Hs eq_refl)
    as (counts & Hfold & Hlen & Hsum).
  exists counts. split; [exact Hlen|]. split; [exact Hsum|].
  split; [rewrite sum_of_counts, Hsum; reflexivity|].
  unfold index_ingest, sentiment_ingest, req, db. simpl.
  fold postCol. unfold after_rows. rewrite new_bins_counts, Hfold.
  split; [reflexivity|]. split; [reflexivity|].
  intros [u|]; repeat split; reflexivity.
Qed.

(** C2, on the three rows of the specification's scenario. *)
Lemma histogram_sums_to_row_count_witness :
  exists counts : list nat,
    length counts = 11 /\
    sum_list counts = length example_rows /\
    @index_ingest example_analyzer None
      (Request (Some (File "uploads/0f3a" None example_rows StreamEnd None))
         (Body None None))
      (Database [] 0 None) =
      respond 200 (IngestPayload (0 + 1) (of_counts counts) (Some (mode_of None)))
        (Database
           ([] ++ [Aggregate (0 + 1) (or_else None "New Analysis") (of_counts counts)])
           (0 + 1) None)
        true.
Proof.
  destruct (@histogram_sums_to_row_count example_analyzer example_scorer_total
              None "uploads/0f3a" example_rows (Body None None) [] 0%Z)
    as (_ & _ & counts & Hlen & Hsum & _ & Hi & _).
  exists counts. repeat split; assumption.
Defined.

(** The scenario of the specification, computed: one row in bucket 9, one
    in bucket 5, one in bucket 1. *)
Example scenario_histogram :
  @after_rows example_analyzer "post" example_rows
  = of_counts [0; 1; 0; 0; 0; 1; 0; 0; 0; 1; 0].
Proof. vm_compute. reflexivity. Qed.









(** C9.  The histogram of a run does not depend on the order of the rows:
    for every reordering of the rows (and the same scorer) the listener
    leaves the same 11 counters, so both routes answer and store the same. *)
Theorem histogram_invariant_under_row_order `{SentimentIntensityAnalyzer}
    (rs rs' : list row) :
  rs ≡ₚ rs' ->
  (forall postCol, after_rows postCol rs = after_rows postCol rs') /\
  (forall DB_HOST p e u b db,
     index_ingest DB_HOST (Request (Some (File p None rs e u)) b) db
     = index_ingest DB_HOST (Request (Some (File p None rs' e u)) b) db) /\
  (forall p e u b db,
     sentiment_ingest (Request (Some (File p None rs e u)) b) db
     = sentiment_ingest (Request (Some (File p None rs' e u)) b) db).
Proof.
  intros Hp.
  assert (Hrows : forall postCol, after_rows postCol rs = after_rows postCol rs').
  { intros postCol. unfold after_rows.
    apply foldl_on_data_permutation; [exact Hp|reflexivity]. }
  split; [exact Hrows|]. split.
  - intros DB_HOST p e u b db. unfold index_ingest. simpl. rewrite Hrows. reflexivity.
  - intros p e u b db. unfold sentiment_ingest. simpl. rewrite Hrows. reflexivity.
Qed.

(** C9, on the scenario's rows with the first two exchanged. *)
Lemma histogram_invariant_under_row_order_witness :
  @after_rows example_analyzer "post"
    [ [("post", "I love this")]; [("Post", "")]; [("POST", "I hate this")] ]
  = @after_rows example_analyzer "post"
    [ [("Post", "")]; [("post", "I love this")]; [("POST", "I hate this")] ].
Proof.
  refine (proj1 (@histogram_invariant_under_row_order example_analyzer _ _ _) "post").
  apply perm_swap.
Defined.

(** C5.  Redaction is idempotent: redacting a redacted text changes
    nothing, for the two passes themselves and for the [redacted] field
    analyzeText returns, whatever the scorer. *)
Theorem redaction_idempotent :
  (forall x : string, redact (redact x) = redact x) /\
  (forall (A : SentimentIntensityAnalyzer) (x : string),
     redacted (analyzeText (redacted (analyzeText x))) = redacted (analyzeText x)).
Proof.
  assert (Hredact : forall x : string, redact (redact x) = redact x).
  { intros x. rewrite (redact_as_list (redact x)), (redact_as_list x).
    rewrite list_ascii_of_string_of_list_ascii, redact_list_idempotent.
    reflexivity. }
  split; [exact Hredact|].
  intros A x. unfold analyzeText.
  destruct (String.eqb x "") eqn:Ex; simpl; [reflexivity|].
  destruct (String.eqb (redact x) "") eqn:Er; simpl.
  - apply String.eqb_eq in Er. symmetry. exact Er.
  - apply Hredact.
Qed.

(** C10.  analyzeText runs the e-mail pass over the whole text, then the
    phone pass over its result.  Hence an e-mail address the scan arrives
    at is replaced by [[EMAIL]] as a whole, digits of its local part that
    look like a phone number included, and the phone pass never reaches
    into an [[EMAIL]] placeholder: it rewrites what stands before it and
    what stands behind it, separately.  The address of the example,
    123-456-7890@mail.com, whose local part alone is a phone number,
    becomes [[EMAIL]]. *)
Theorem email_pass_shields_phone_pass :
  (forall (A : SentimentIntensityAnalyzer) (text : string),
     text <> "" ->
     redacted (analyzeText text)
     = replace PHONE_RE "[PHONE]" (replace EMAIL_RE "[EMAIL]" text)) /\
  (forall u v : string,
     replace PHONE_RE "[PHONE]" (u ++ "[EMAIL]" ++ v)
     = replace PHONE_RE "[PHONE]" u ++ "[EMAIL]"
         ++ replace_after PHONE_RE "[PHONE]" "]" v) /\
  (forall (A : SentimentIntensityAnalyzer) (pre m post : string),
     no_email_starts_in pre (m ++ post) = true ->
     email_at (m ++ post) = Some (String.length m) ->
     redacted (analyzeText (pre ++ m ++ post))
     = replace PHONE_RE "[PHONE]" pre ++ "[EMAIL]"
         ++ replace_after PHONE_RE "[PHONE]" "]" (replace EMAIL_RE "[EMAIL]" post)) /\
  phone_at None "123-456-7890" = Some 12 /\
  email_at "123-456-7890@mail.com" = Some 21 /\
  redact "123-456-7890@mail.com" = "[EMAIL]".
Proof.
  assert (Horder : forall (A : SentimentIntensityAnalyzer) (text : string),
            text <> "" ->
            redacted (analyzeText text)
            = replace PHONE_RE "[PHONE]" (replace EMAIL_RE "[EMAIL]" text)).
  { intros A text Hne. unfold analyzeText.
    destruct (String.eqb text "") eqn:E; [|reflexivity].
    apply String.eqb_eq in E. contradiction. }
  split; [exact Horder|].
  split; [exact phone_pass_over_EMAIL|].
  split; [|repeat split; reflexivity].
  intros A pre m post Hpre Hm.
  rewrite Horder.
  - rewrite (email_pass_at_match _ _ _ Hpre Hm). apply phone_pass_over_EMAIL.
  - destruct m as [|c m].
    + exfalso. exact (email_nonempty _ _ Hm).
    + destruct pre; discriminate.
Qed.

(** C10, on a text around the address of the example. *)
Lemma email_pass_shields_phone_pass_witness :
  redacted (@analyzeText example_analyzer
              ("call 555-123-4567 or " ++ "123-456-7890@mail.com" ++ " now"))
  = "call [PHONE] or [EMAIL] now".
Proof.
  exact (proj1 (proj2 (proj2 email_pass_shields_phone_pass))
           example_analyzer "call 555-123-4567 or " "123-456-7890@mail.com" " now"
           eq_refl eq_refl).
Defined.

Lemma filter_no_such_id (tbl : list aggregate) (i : Z) :
  Forall (fun r => id r <> i) tbl -> filter (fun r => id r = i) tbl = [].
Proof.
  induction 1 as [|r tbl Hr Htbl IH]; [reflexivity|].
  rewrite filter_cons_False by exact Hr. exact IH.
Qed.

(** C3 (what the code does).  When the parsed stream emits [error] after
    some rows, neither route has a listener for it: the error escapes, no
    response is sent and nothing is inserted.  The [try] of index.js only
    covers an exception thrown while the stream is set up, which it
    answers with status 500, "Critical Stream Error". *)
Theorem stream_error_escapes_both_routes `{SentimentIntensityAnalyzer}
    (DB_HOST : option string) (p : string) (rs : list row) (e : stream_end)
    (u : option string) (b : body) (db : database) (message : string) :
  index_ingest DB_HOST (Request (Some (File p None rs (StreamError message) u)) b) db
    = throw message db /\
  sentiment_ingest (Request (Some (File p None rs (StreamError message) u)) b) db
    = throw message db /\
  sent (throw message db) = None /\
  db_after (throw message db) = db /\
  index_ingest DB_HOST (Request (Some (File p (Some message) rs e u)) b) db
    = respond 500 (ErrorPayload ("Critical Stream Error: " ++ message)) db false.
Proof. repeat split; reflexivity. Qed.

(** C6 (what the code does).  When the insert at the end of the stream is
    rejected, index.js answers 500 with "Database Persistence Error: " and
    the reason, and stores nothing; routes/sentiment.js has no [try]
    around the insert: the rejection escapes, no response is sent, nothing
    is stored. *)
Theorem insert_failure_escapes_sentiment_route `{SentimentIntensityAnalyzer}
    (DB_HOST : option string) (p : string) (rs : list row) (u : option string)
    (b : body) (tbl : list aggregate) (lid : Z) (message : string) :
  let req := Request (Some (File p None rs StreamEnd u)) b in
  let db := Database tbl lid (Some message) in
  index_ingest DB_HOST req db
    = respond 500 (ErrorPayload ("Database Persistence Error: " ++ message)) db false /\
  sentiment_ingest req db = throw message db /\
  sent (sentiment_ingest req db) = None /\
  table (db_after (sentiment_ingest req db)) = tbl.
Proof. repeat split; reflexivity. Qed.

(** C7 (what the code does).  Without a file, index.js answers 400 before
    touching any stream; routes/sentiment.js has no such guard: reading
    [req.file.path] throws a TypeError, which leaves the handler before a
    stream is opened and before any response is sent. *)
Theorem missing_file_unguarded_in_sentiment_route `{SentimentIntensityAnalyzer}
    (DB_HOST : option string) (b : body) (db : database) :
  index_ingest DB_HOST (Request None b) db
    = respond 400 (ErrorPayload "No CSV file detected.") db false /\
  sentiment_ingest (Request None b) db = throw TypeError_path db /\
  sent (sentiment_ingest (Request None b) db) = None.
Proof. repeat split; reflexivity. Qed.

(** C8 (what the code does).  An id that resolves to no stored record
    gets the not-found answer of the route, status 404 with an error
    message and no record in it, and an id that does resolve gets the
    stored record.  A failure of the storage is answered by index.js with
    status 500, "Query Error: " and the reason; routes/sentiment.js has no
    [try] around the query: the rejection escapes the handler and no
    response is sent, so that route reports a storage failure to the
    caller in no way at all.  index.js answers every request;
    routes/sentiment.js answers exactly when the storage did not fail. *)
Theorem storage_failure_escapes_sentiment_display
    (tbl : list aggregate) (lid i : Z) :
  (forall message : string,
     let db := Database tbl lid (Some message) in
     index_display db i
       = respond 500 (ErrorPayload ("Query Error: " ++ message)) db false /\
     sentiment_display db i = throw message db /\
     sent (sentiment_display db i) = None /\
     escaped (sentiment_display db i) = Some message) /\
  (forall db : database,
     is_Some (sent (index_display db i)) /\
     escaped (index_display db i) = None /\
     (sent (sentiment_display db i) = None <-> is_Some (failure db)) /\
     (escaped (sentiment_display db i) = failure db)) /\
  (Forall (fun r => id r <> i) tbl ->
     index_display (Database tbl lid None) i
       = respond 404 (ErrorPayload "Dataset not found.") (Database tbl lid None) false /\
     sentiment_display (Database tbl lid None) i
       = respond 404 (ErrorPayload "Record not found") (Database tbl lid None) false) /\
  (forall (before after : list aggregate) (r : aggregate),
     tbl = (before ++ r :: after)%list -> id r = i ->
     Forall (fun r' => id r' <> i) before ->
     index_display (Database tbl lid None) i
       = respond 200 (RecordPayload r) (Database tbl lid None) false /\
     sentiment_display (Database tbl lid None) i
       = respond 200 (RecordPayload r) (Database tbl lid None) false).
Proof.
  split; [|split; [|split]].
  - intros message db. repeat split; reflexivity.
  - intros db. unfold index_display, sentiment_display, execute_select.
    destruct (failure db) as [message|]; simpl.
    + repeat split; eauto.
    + destruct (filter (fun r => id r = i) (table db)); simpl;
        repeat split; eauto; intros Hf; try discriminate;
        destruct Hf; discriminate.
  - intros Hno. unfold index_display, sentiment_display, execute_select. simpl.
    rewrite (filter_no_such_id _ _ Hno). split; reflexivity.
  - intros before after r -> Hr Hbefore.
    unfold index_display, sentiment_display, execute_select. simpl.
    rewrite filter_app, (filter_no_such_id _ _ Hbefore).
    rewrite filter_cons_True by exact Hr. split; reflexivity.
Qed.

(** ** Further properties of the specification *)

(** The end-to-end scenario: three rows scored 0.8, 0.0 and -0.8 give a
    1 at the indices 9, 5 and 1; the record is stored under the id 1. *)
Example scenario_end_to_end :
  @index_ingest example_analyzer None
    (Request (Some example_file) (Body None None)) example_db
  = respond 200
      (IngestPayload 1 (of_counts [0; 1; 0; 0; 0; 1; 0; 0; 0; 1; 0]) (Some "Sandbox"))
      (Database
         [Aggregate 1 "New Analysis" (of_counts [0; 1; 0; 0; 0; 1; 0; 0; 0; 1; 0])]
         1 None)
      true.
Proof. vm_compute. reflexivity. Qed.

(** The array of bins keeps its 11 elements whatever the scorer returns:
    the clamp keeps every index inside it, and a NaN index touches no
    element. *)
Lemma bins_always_eleven `{SentimentIntensityAnalyzer} (postCol : string)
    (rs : list row) :
  length (after_rows postCol rs) = 11.
Proof.
  unfold after_rows. generalize new_bins (eq_refl : length new_bins = 11).
  induction rs as [|r rs IH]; intros bins Hlen; [exact Hlen|].
  simpl. apply IH, on_data_length, Hlen.
Qed.

(** * Further properties of the code *)

(** ** The binner: bucket boundaries and monotonicity *)

Lemma of_Z_le (a b : Z) : number_le (of_Z a) (of_Z b) -> (a <= b)%Z.
Proof. unfold of_Z. simpl. intros H. rewrite Zle_Qle. exact H. Qed.

(** A higher score never lands in a lower bucket: the sum and the product
    of doubles, the rounding to an integer and the clamp are all
    monotone. *)
Theorem binIndex_monotone (s t : Q) :
  (s <= t)%Q ->
  exists i j : Z,
    binIndex (Fin s) = of_Z i /\ binIndex (Fin t) = of_Z j /\ (i <= j)%Z.
Proof.
  intros Hst.
  destruct (binIndex_index (Fin s)) as (i & _ & Hi & _); [discriminate|].
  destruct (binIndex_index (Fin t)) as (j & _ & Hj & _); [discriminate|].
  exists (Z.of_nat i), (Z.of_nat j). split; [exact Hi|]. split; [exact Hj|].
  apply of_Z_le. fold (of_nat i) (of_nat j). rewrite <- Hi, <- Hj.
  apply binIndex_le. exact Hst.
Qed.

Lemma binIndex_monotone_witness :
  exists i j : Z,
    binIndex (Fin (-1 # 2)) = of_Z i /\ binIndex (Fin (1 # 3)) = of_Z j /\ (i <= j)%Z.
Proof.
  apply binIndex_monotone. unfold Qle. simpl. lia.
Defined.

(** The first double of each bucket from 1 to 10, as a numerator [n] and
    an exponent [j]: the double [n / 2^j]; the double before it is
    [(n - 1) / 2^j]. *)
Definition bucket_starts : list (Z * Z * Z) :=
  [ (1, -8106479329266892, 53); (2, -6305039478318694, 53);
    (3, -4503599627370496, 53); (4, -5404319552844597, 54);
    (5, -7205759403792804, 56); (6, 7205759403792792, 56);
    (7, 5404319552844595, 54); (8, 9007199254740990, 54);
    (9, 6305039478318694, 53); (10, 8106479329266891, 53) ]%Z.

Lemma bucket_start (k n j : Z) :
  binIndex (Fin (inject_Z (n - 1) * pow2 (- j))) = of_Z (k - 1) ->
  binIndex (Fin (inject_Z n * pow2 (- j))) = of_Z k ->
  forall s : Q, exists i : Z,
    binIndex (Fin s) = of_Z i /\
    ((s <= inject_Z (n - 1) * pow2 (- j))%Q -> (i < k)%Z) /\
    ((inject_Z n * pow2 (- j) <= s)%Q -> (k <= i)%Z).
Proof.
  intros Hbelow Hat s.
  destruct (binIndex_index (Fin s)) as (i & _ & Hi & _); [discriminate|].
  exists (Z.of_nat i). split; [exact Hi|]. split; intros Hs.
  - enough (Z.of_nat i <= k - 1)%Z by lia. apply of_Z_le.
    fold (of_nat i). rewrite <- Hi, <- Hbelow. apply binIndex_le. exact Hs.
  - apply of_Z_le. fold (of_nat i). rewrite <- Hi, <- Hat.
    apply binIndex_le. exact Hs.
Qed.

Ltac bucket_case :=
  split; [apply bucket_start; vm_compute; reflexivity|];
  split; [vm_compute; reflexivity|];
  split; [vm_compute; reflexivity|];
  split; vm_compute; discriminate.

(** The buckets, read off the code.  Bucket [k] of 1..10 starts at a
    double [n / 2^j]: every score from there on lands in bucket [k] or
    above, and every score up to [(n - 1) / 2^j], the double with the
    numerator before it, lands below bucket [k].  Each start is
    within [2^-52] of the decimal boundary [(2k - 11) / 10], but it is not
    always the double nearest to it: bucket 5 starts ten doubles below the
    double nearest to -0.1, and bucket 1 starts one double above the
    double nearest to -0.9. *)
Theorem bucket_boundaries :
  Forall (fun '(k, n, j) =>
    (forall s : Q, exists i : Z,
       binIndex (Fin s) = of_Z i /\
       ((s <= inject_Z (n - 1) * pow2 (- j))%Q -> (i < k)%Z) /\
       ((inject_Z n * pow2 (- j) <= s)%Q -> (k <= i)%Z)) /\
    binary64 (inject_Z n * pow2 (- j)) = Fin (Qred (inject_Z n * pow2 (- j))) /\
    binary64 (inject_Z (n - 1) * pow2 (- j))
      = Fin (Qred (inject_Z (n - 1) * pow2 (- j))) /\
    (- pow2 (-52) <= inject_Z n * pow2 (- j) - ((2 * k - 11) # 10)
       <= pow2 (-52))%Q)
    bucket_starts /\
  binary64 (-1 # 10) = Fin (Qred (inject_Z (-7205759403792804 + 10) * pow2 (-56))) /\
  binary64 (-9 # 10) = Fin (Qred (inject_Z (-8106479329266892 - 1) * pow2 (-53))).
Proof.
  split; [|split; vm_compute; reflexivity].
  unfold bucket_starts.
  repeat (apply Forall_cons; split; [bucket_case|]).
  constructor.
Qed.

(** ** The histogram when the scorer misbehaves *)

(** The score is a number. *)
Definition is_number (x : number) : bool :=
  match x with NaN => false | _ => true end.

(** The score the [data] listener computes for a row. *)
Definition row_score `{SentimentIntensityAnalyzer} (postCol : string) (r : row)
    : number :=
  score (analyze (or_empty (get (normalizedRow r) postCol))).

Lemma on_data_any_score `{SentimentIntensityAnalyzer} postCol counts r :
  length counts = 11 ->
  exists counts',
    on_data postCol (of_counts counts) r = of_counts counts' /\
    length counts' = 11 /\
    sum_list counts' =
      sum_list counts + (if is_number (row_score postCol r) then 1 else 0).
Proof.
  intros Hlen. unfold on_data. fold (row_score postCol r).
  destruct (row_score postCol r) as [| | |q] eqn:E.
  - exists counts. rewrite binIndex_NaN. simpl. repeat split; auto with lia.
  - destruct (binIndex_index PosInf) as (i & Hi & Hb & _); [discriminate|].
    exists (alter S i counts). rewrite Hb, increment_counts by lia.
    rewrite length_alter, sum_list_alter_S by lia. simpl. repeat split; lia.
  - destruct (binIndex_index NegInf) as (i & Hi & Hb & _); [discriminate|].
    exists (alter S i counts). rewrite Hb, increment_counts by lia.
    rewrite length_alter, sum_list_alter_S by lia. simpl. repeat split; lia.
  - destruct (binIndex_index (Fin q)) as (i & Hi & Hb & _); [discriminate|].
    exists (alter S i counts). rewrite Hb, increment_counts by lia.
    rewrite length_alter, sum_list_alter_S by lia. simpl. repeat split; lia.
Qed.

(** Whatever the scorer returns, the bins stay 11 natural counters, and
    their sum is the number of rows whose score is a number: a row scored
    NaN is dropped from the histogram without any error, every other row
    (infinite scores included) is counted once. *)
Theorem histogram_counts_rows_with_a_score `{SentimentIntensityAnalyzer}
    (postCol : string) (rs : list row) :
  exists counts : list nat,
    after_rows postCol rs = of_counts counts /\
    length counts = 11 /\
    sum_list counts
      = length (filter (fun r => is_number (row_score postCol r) = true) rs) /\
    sum_list counts <= length rs.
Proof.
  assert (Hgen : forall counts, length counts = 11 ->
    exists counts',
      foldl (on_data postCol) (of_counts counts) rs = of_counts counts' /\
      length counts' = 11 /\
      sum_list counts' = sum_list counts
        + length (filter (fun r => is_number (row_score postCol r) = true) rs)).
  { induction rs as [|r rs IH]; intros counts Hlen.
    - exists counts. simpl. repeat split; auto with lia.
    - destruct (on_data_any_score postCol counts r Hlen) as (c1 & H1 & Hl1 & Hs1).
      destruct (IH c1 Hl1) as (c2 & H2 & Hl2 & Hs2).
      exists c2. cbn [foldl]. rewrite H1, H2. repeat split; [exact Hl2|].
      rewrite Hs2, Hs1. rewrite filter_cons.
      case_decide as Hd; [rewrite Hd; simpl; lia|].
      destruct (is_number (row_score postCol r)); [congruence|lia]. }
  destruct (Hgen (replicate 11 0) eq_refl) as (counts & Hf & Hl & Hs).
  exists counts. repeat split; auto.
  rewrite Hs. simpl. pose proof (length_filter
    (fun r => is_number (row_score postCol r) = true) rs). lia.
Qed.

(** ** From ingestion to display *)

(** The ids of the table are at most the last id the database assigned. *)
Definition ids_assigned (tbl : list aggregate) (lid : Z) : Prop :=
  Forall (fun r => (id r <= lid)%Z) tbl.

Lemma filter_id_bounded (tbl : list aggregate) (lid i : Z) :
  ids_assigned tbl lid -> (lid < i)%Z -> filter (fun r => id r = i) tbl = [].
Proof.
  intros Hok Hi. apply filter_no_such_id.
  eapply Forall_impl; [exact Hok|]. simpl. intros r Hr. lia.
Qed.

Lemma select_after_insert (tbl : list aggregate) (lid : Z) title bins :
  ids_assigned tbl lid ->
  let db' := Database (tbl ++ [Aggregate (lid + 1) title bins]) (lid + 1) None in
  execute_select db' (lid + 1) = inr [Aggregate (lid + 1) title bins] /\
  (forall j, j <> (lid + 1)%Z ->
     execute_select db' j = execute_select (Database tbl lid None) j) /\
  ids_assigned (table db') (last_id db').
Proof.
  intros Hok db'. unfold execute_select, db'. simpl. repeat split.
  - rewrite filter_app, (filter_id_bounded _ lid) by (assumption || lia).
    rewrite filter_cons_True by reflexivity. reflexivity.
  - intros j Hj. rewrite filter_app.
    rewrite (filter_cons_False _ (Aggregate _ _ _)) by (simpl; congruence).
    rewrite filter_nil, app_nil_r. reflexivity.
  - apply Forall_app. split.
    + eapply Forall_impl; [exact Hok|]. simpl. intros r Hr. lia.
    + repeat constructor. simpl. lia.
Qed.

(** A completed ingestion and the display of the id it answered: the
    id is new (no stored record had it), the display routes return exactly
    the title and the bins of that ingestion, every other id displays as
    before, and the table stays within the ids assigned.  Both ingestion
    routes, both display routes, whether or not the upload could be
    removed afterwards. *)
Theorem ingest_then_display `{SentimentIntensityAnalyzer}
    (DB_HOST : option string) (p : string) (rs : list row) (b : body)
    (tbl : list aggregate) (lid : Z) (u : option string) :
  ids_assigned tbl lid ->
  let req := Request (Some (File p None rs StreamEnd u)) b in
  let db := Database tbl lid None in
  let i := (lid + 1)%Z in
  let stored :=
    Aggregate i (or_else (chart_title b) "New Analysis")
      (after_rows (toLowerCase (or_else (post_column b) "post")) rs) in
  Forall (fun r => id r <> i) tbl /\
  db_after (index_ingest DB_HOST req db) = db_after (sentiment_ingest req db) /\
  (exists m, sent (index_ingest DB_HOST req db)
             = Some (Response 200 (IngestPayload i (bin_values stored) m))) /\
  sent (index_display (db_after (index_ingest DB_HOST req db)) i)
    = Some (Response 200 (RecordPayload stored)) /\
  sent (sentiment_display (db_after (sentiment_ingest req db)) i)
    = Some (Response 200 (RecordPayload stored)) /\
  (forall j, j <> i ->
     sent (index_display (db_after (index_ingest DB_HOST req db)) j)
       = sent (index_display db j) /\
     sent (sentiment_display (db_after (sentiment_ingest req db)) j)
       = sent (sentiment_display db j)) /\
  ids_assigned (table (db_after (index_ingest DB_HOST req db)))
               (last_id (db_after (index_ingest DB_HOST req db))).
Proof.
  intros Hok req db i stored.
  destruct (select_after_insert tbl lid (project_title stored) (bin_values stored) Hok)
    as (Hsel & Hother & Hok').
  assert (Hi : db_after (index_ingest DB_HOST req db)
               = Database (tbl ++ [stored]) i None)
    by (unfold req; destruct u; reflexivity).
  assert (Hs : db_after (sentiment_ingest req db)
               = Database (tbl ++ [stored]) i None)
    by (unfold req; destruct u; reflexivity).
  split.
  { eapply Forall_impl; [exact Hok|]. simpl. intros r Hr. unfold i. lia. }
  split; [rewrite Hi, Hs; reflexivity|].
  split; [unfold req; destruct u; eexists; reflexivity|].
  assert (Hsel' : execute_select (Database (tbl ++ [stored]) i None) i = inr [stored])
    by exact Hsel.
  assert (Hother' : forall j, j <> i ->
            execute_select (Database (tbl ++ [stored]) i None) j
            = execute_select db j) by exact Hother.
  rewrite Hi, Hs. unfold index_display, sentiment_display.
  rewrite Hsel'. repeat split; try reflexivity.
  - rewrite (Hother' j) by assumption.
    destruct (execute_select db j) as [e|[|r l]]; reflexivity.
  - rewrite (Hother' j) by assumption.
    destruct (execute_select db j) as [e|[|r l]]; reflexivity.
  - exact Hok'.
Qed.

(** On a table that already holds the record 1. *)
Lemma ingest_then_display_witness :
  let tbl := [Aggregate 1 "first" new_bins] in
  let req := Request (Some (File "uploads/0f3a" None example_rows StreamEnd None))
               (Body None (Some "Second")) in
  sent (index_display (db_after (@index_ingest example_analyzer None req
                                  (Database tbl 1 None))) 2)
  = Some (Response 200 (RecordPayload
      (Aggregate 2 "Second" (@after_rows example_analyzer "post" example_rows)))).
Proof.
  refine (proj1 (proj2 (proj2 (proj2
    (@ingest_then_display example_analyzer None "uploads/0f3a" example_rows
       (Body None (Some "Second")) [Aggregate 1 "first" new_bins] 1 None _))))).
  constructor; [simpl; lia|constructor].
Defined.

(** ** What a failed ingestion leaves behind *)

(** A response of a completed ingestion. *)
Definition is_success (o : outcome) : Prop :=
  exists i bins m, sent o = Some (Response 200 (IngestPayload i bins m)).

(** In both ingestion routes the temporary upload is removed only after
    a completed run, and a run that did not complete (no file, stream
    error, insert rejected) leaves it on disk and the database as it was.
    A completed run has removed the upload exactly when no error escaped:
    when [fs.unlinkSync] throws, the 200 response has been sent and the
    record stored, the upload stays on disk, and an error escapes the
    listener: in index.js the one of the second response the [catch]
    attempts, in routes/sentiment.js the one [fs.unlinkSync] threw.  A run
    that sends no response lets an error escape; the two routes complete
    on the same requests and remove the upload on the same requests. *)
Theorem upload_removed_only_on_success `{SentimentIntensityAnalyzer}
    (DB_HOST : option string) (req : request) (db : database) :
  let o1 := index_ingest DB_HOST req db in
  let o2 := sentiment_ingest req db in
  (unlinked o1 = true -> is_success o1 /\ escaped o1 = None) /\
  (unlinked o2 = true -> is_success o2 /\ escaped o2 = None) /\
  (is_success o1 -> (unlinked o1 = true <-> escaped o1 = None)) /\
  (is_success o2 -> (unlinked o2 = true <-> escaped o2 = None)) /\
  (is_success o1 \/ db_after o1 = db /\ unlinked o1 = false) /\
  (is_success o2 \/ db_after o2 = db /\ unlinked o2 = false) /\
  (sent o1 = None -> is_Some (escaped o1)) /\
  (sent o2 = None -> is_Some (escaped o2)) /\
  (is_success o1 <-> is_success o2) /\
  unlinked o1 = unlinked o2 /\
  (is_Some (escaped o1) -> is_Some (escaped o2)) /\
  (forall f message, req_file req = Some f -> unlink_error f = Some message ->
     is_success o1 ->
     unlinked o1 = false /\ unlinked o2 = false /\
     escaped o1 = Some ERR_HTTP_HEADERS_SENT /\ escaped o2 = Some message /\
     db_after o1 = db_after o2 /\ last_id (db_after o1) = (last_id db + 1)%Z) /\
  (forall f, req_file req = Some f -> unlink_error f = None ->
     is_success o1 ->
     unlinked o1 = true /\ unlinked o2 = true /\
     escaped o1 = None /\ escaped o2 = None).
Proof.
  intros o1 o2. unfold o1, o2, index_ingest, sentiment_ingest, execute_insert, is_success.
  destruct req as [[[p [e|] rs [|m] [u|]]|] b]; destruct db as [tbl lid [f|]]; simpl;
    repeat split; intros; try discriminate; try reflexivity; eauto;
    repeat match goal with
    | H : exists _, _ |- _ => destruct H
    | H : is_Some _ |- _ => destruct H
    | H : Some _ = Some _ |- _ => injection H as H; subst
    | H : _ /\ _ |- _ => destruct H
    end; simpl in *; try discriminate; try reflexivity; eauto;
    try (right; split; reflexivity); try (left; eauto).
Qed.

(** An upload that cannot be removed: both routes answer 200, and both
    let an error escape. *)
Lemma upload_removed_only_on_success_witness :
  let req := Request (Some (File "uploads/0f3a" None example_rows StreamEnd
                              (Some "EPERM: operation not permitted, unlink")))
               (Body None None) in
  let db := Database [] 0 None in
  unlinked (@index_ingest example_analyzer None req db) = false /\
  unlinked (@sentiment_ingest example_analyzer req db) = false /\
  escaped (@index_ingest example_analyzer None req db)
    = Some ERR_HTTP_HEADERS_SENT /\
  escaped (@sentiment_ingest example_analyzer req db)
    = Some "EPERM: operation not permitted, unlink" /\
  db_after (@index_ingest example_analyzer None req db)
    = db_after (@sentiment_ingest example_analyzer req db) /\
  last_id (db_after (@index_ingest example_analyzer None req db)) = 1%Z.
Proof.
  intros req db.
  refine (proj1 (proj2 (proj2 (proj2 (proj2 (proj2 (proj2 (proj2 (proj2 (proj2
    (proj2 (proj2
      (@upload_removed_only_on_success example_analyzer None req db)))))))))))) _ _
      eq_refl eq_refl _).
  eexists _, _, _. reflexivity.
Defined.

(** ** Finding the text column *)

Lemma lower_unit_idempotent (c : ascii) : lower_unit (lower_unit c) = lower_unit c.
Proof. destruct c as [[] [] [] [] [] [] [] []]; reflexivity. Qed.

Lemma toLowerCase_idempotent (s : string) : toLowerCase (toLowerCase s) = toLowerCase s.
Proof.
  induction s as [|c s IH]; [reflexivity|].
  simpl. rewrite lower_unit_idempotent, IH. reflexivity.
Qed.

Lemma toLowerCase_empty (s : string) : toLowerCase s = "" <-> s = "".
Proof. destruct s; simpl; split; intros; congruence. Qed.


(** The own properties of the normalized row: the cell of the last header
    that lower-cases to the key, and never the key [__proto__]. *)
Lemma normalizedRow_own (r : list (string * string)) (key : string) :
  normalizedRow r !! key
  = if String.eqb key "__proto__" then None
    else snd <$> last (filter (fun kv => toLowerCase kv.1 = key) r).
Proof.
  induction r as [|kv r IH] using rev_ind.
  { unfold normalizedRow. simpl. rewrite lookup_empty.
    destruct (String.eqb key "__proto__"); reflexivity. }
  unfold normalizedRow in *. rewrite foldl_app. cbn [foldl].
  rewrite filter_app, filter_cons, filter_nil.
  destruct (String.eqb key "__proto__") eqn:Ep.
  - apply String.eqb_eq in Ep. subst key. unfold assign.
    destruct (String.eqb (toLowerCase kv.1) "__proto__") eqn:Ek; [exact IH|].
    apply String.eqb_neq in Ek. rewrite lookup_insert_ne by exact Ek. exact IH.
  - apply String.eqb_neq in Ep.
    destruct (decide (toLowerCase kv.1 = key)) as [<-|Hne].
    + rewrite RowFacts.assign_lookup_eq by exact Ep. rewrite last_snoc. reflexivity.
    + rewrite RowFacts.assign_lookup_ne by exact Hne. rewrite app_nil_r. exact IH.
Qed.

(** The lower-case names among the properties of [Object.prototype]. *)
Lemma lower_case_inherited (c : string) :
  toLowerCase c ∈ Object_prototype ->
  toLowerCase c = "constructor" \/ toLowerCase c = "__proto__".
Proof.
  intros Hin. pose proof (toLowerCase_idempotent c) as Hid.
  unfold Object_prototype in Hin.
  repeat (apply elem_of_cons in Hin as [Hin|Hin];
          [first [left; exact Hin | right; exact Hin
                 | rewrite Hin in Hid; discriminate Hid]|]).
  inversion Hin.
Qed.

(** What the listener reads for the column asked for.  An own property
    of the normalized row is the cell of the last header that lower-cases
    to the column (headers are compared without regard to case), and no
    header gives the row a property [__proto__].  The read goes through
    [Object.prototype]: the column [__proto__] reads the prototype
    whatever the row holds, a column without a header reads what
    [Object.prototype] has under that name, and undefined otherwise.  For
    the lower-cased column of a request the text is therefore the cell, or
    an object for [__proto__] and for [constructor] without a header, or
    the empty string. *)
Theorem normalizedRow_lookup (r : list (string * string)) (postCol : string) :
  let own := snd <$> last (filter (fun kv => toLowerCase kv.1 = postCol) r) in
  normalizedRow r !! postCol
    = (if String.eqb postCol "__proto__" then None else own) /\
  get (normalizedRow r) postCol
    = (if String.eqb postCol "__proto__" then Obj
       else match own with
            | Some cell => Str cell
            | None =>
                if bool_decide (postCol ∈ Object_prototype) then Obj else Undefined
            end) /\
  (forall c : string, postCol = toLowerCase c ->
     or_empty (get (normalizedRow r) postCol)
     = (if String.eqb postCol "__proto__" then Obj
        else match own with
             | Some cell => Str cell
             | None => if String.eqb postCol "constructor" then Obj else Str ""
             end)).
Proof.
  intros own. pose proof (normalizedRow_own r postCol) as Hown. fold own in Hown.
  assert (Hget : get (normalizedRow r) postCol
    = (if String.eqb postCol "__proto__" then Obj
       else match own with
            | Some cell => Str cell
            | None =>
                if bool_decide (postCol ∈ Object_prototype) then Obj else Undefined
            end)).
  { unfold get. rewrite Hown.
    destruct (String.eqb postCol "__proto__") eqn:Ep; [|reflexivity].
    apply String.eqb_eq in Ep. subst postCol. reflexivity. }
  split; [exact Hown|]. split; [exact Hget|].
  intros c Hc. rewrite Hget.
  destruct (String.eqb postCol "__proto__") eqn:Ep; [reflexivity|].
  destruct own as [cell|]; [destruct cell; reflexivity|].
  destruct (String.eqb postCol "constructor") eqn:Ec.
  - apply String.eqb_eq in Ec. rewrite Ec. reflexivity.
  - case_bool_decide as Hin; [|reflexivity].
    rewrite Hc in Hin. apply lower_case_inherited in Hin.
    apply String.eqb_neq in Ep, Ec. rewrite <- Hc in Hin. tauto.
Qed.

(** A row with a header [__PROTO__] and none for [constructor]. *)
Lemma normalizedRow_lookup_witness :
  let r := [("Post", "first"); ("__PROTO__", "x"); ("POST", "last")] in
  or_empty (get (normalizedRow r) "post") = Str "last" /\
  or_empty (get (normalizedRow r) "__proto__") = Obj /\
  or_empty (get (normalizedRow r) "constructor") = Obj /\
  or_empty (get (normalizedRow r) "text") = Str "".
Proof.
  intros r. split; [|split; [|split]].
  - exact (proj2 (proj2 (normalizedRow_lookup r "post")) "POST" eq_refl).
  - exact (proj2 (proj2 (normalizedRow_lookup r "__proto__")) "__PROTO__" eq_refl).
  - exact (proj2 (proj2 (normalizedRow_lookup r "constructor")) "Constructor" eq_refl).
  - exact (proj2 (proj2 (normalizedRow_lookup r "text")) "text" eq_refl).
Defined.


(** ** What redaction leaves and what it keeps *)

Lemma at_sign_only (c : ascii) :
  class_matches true [Chr "@"] c = true -> c = "@"%char.
Proof. destruct c as [[] [] [] [] [] [] [] []]; simpl; intros; congruence. Qed.

(** Every e-mail match contains an at sign. *)
Lemma email_match_has_at prev s n :
  match_here EMAIL_RE prev s = Some n -> "@"%char ∈ take n s.
Proof.
  intros H. apply match_here_sound in H as [_ Hm]. simpl in Hm.
  remember (take n s) as m eqn:Em. clear Em.
  inversion Hm as [|items lo hi ns p m1 m2 rest Hall Hlo Hhi Hm2|]; subst.
  inversion Hm2 as [|items lo hi ns p m1' m3 rest' Hall' Hlo' Hhi' Hm3|]; subst.
  destruct m1' as [|c m1']; [simpl in Hlo'; lia|].
  apply Forall_cons in Hall' as [Hc _]. apply at_sign_only in Hc. subst c.
  set_solver.
Qed.

Lemma email_quiet_without_at s : forall prev,
  Forall (fun c => c <> "@"%char) s -> quiet EMAIL_RE prev s.
Proof.
  assert (Hhead : forall prev s, Forall (fun c => c <> "@"%char) s ->
            match_here EMAIL_RE prev s = None).
  { intros prev s' Hs. destruct (match_here EMAIL_RE prev s') as [n|] eqn:E;
      [|reflexivity].
    apply email_match_has_at in E. apply subseteq_take in E.
    rewrite Forall_forall in Hs. exfalso. exact (Hs _ E eq_refl). }
  induction s as [|c s IH]; intros prev Hs; (split; [apply Hhead, Hs|]); [exact I|].
  apply IH. apply Forall_cons in Hs. tauto.
Qed.

Lemma phone_quiet_without_digit s : forall prev,
  Forall (fun c => is_digit c = false) s -> quiet PHONE_RE prev s.
Proof.
  induction s as [|c s IH]; intros prev Hs.
  - split; [apply phone_empty|exact I].
  - apply Forall_cons in Hs as [Hc Hs]. split; [apply phone_needs_digit, Hc|].
    apply IH, Hs.
Qed.

(** No false positive without the telling character: a text without an at
    sign passes the e-mail pass unchanged, a text without a digit passes
    the phone pass unchanged, and a text with neither is its own
    redaction. *)
Theorem text_without_at_or_digit_is_kept :
  (forall text : string,
     Forall (fun c => c <> "@"%char) (list_ascii_of_string text) ->
     replace EMAIL_RE "[EMAIL]" text = text) /\
  (forall text : string,
     Forall (fun c => is_digit c = false) (list_ascii_of_string text) ->
     replace PHONE_RE "[PHONE]" text = text) /\
  (forall (A : SentimentIntensityAnalyzer) (text : string),
     Forall (fun c => c <> "@"%char /\ is_digit c = false)
       (list_ascii_of_string text) ->
     redacted (analyzeText text) = text).
Proof.
  assert (He : forall text : string,
     Forall (fun c => c <> "@"%char) (list_ascii_of_string text) ->
     replace EMAIL_RE "[EMAIL]" text = text).
  { intros text Ht. unfold replace, replace_list.
    rewrite replace_quiet by (apply email_quiet_without_at, Ht).
    apply string_of_list_ascii_of_string. }
  assert (Hp : forall text : string,
     Forall (fun c => is_digit c = false) (list_ascii_of_string text) ->
     replace PHONE_RE "[PHONE]" text = text).
  { intros text Ht. unfold replace, replace_list.
    rewrite replace_quiet by (apply phone_quiet_without_digit, Ht).
    apply string_of_list_ascii_of_string. }
  split; [exact He|]. split; [exact Hp|].
  intros A text Ht. unfold analyzeText.
  destruct (String.eqb text "") eqn:E; simpl.
  - apply String.eqb_eq in E. congruence.
  - unfold redact. rewrite He, Hp; [reflexivity| |];
      (eapply Forall_impl; [exact Ht|]); simpl; tauto.
Qed.

Lemma text_without_at_or_digit_is_kept_witness :
  redacted (@analyzeText example_analyzer "I love this, really.")
  = "I love this, really.".
Proof.
  apply (proj2 (proj2 text_without_at_or_digit_is_kept)).
  repeat (constructor; [split; [discriminate|reflexivity]|]). constructor.
Defined.

(** After redaction neither pattern matches anywhere: at no position of
    the redacted text does an e-mail address start, and at none a phone
    number (with the code unit before the position as its left context). *)
Theorem redacted_text_matches_no_pattern `{SentimentIntensityAnalyzer}
    (text a b : string) :
  redacted (analyzeText text) = a ++ b ->
  email_at b = None /\ phone_at (last (list_ascii_of_string a)) b = None.
Proof.
  unfold analyzeText. destruct (String.eqb text "") eqn:E; simpl.
  - intros Hab. apply (f_equal list_ascii_of_string) in Hab.
    rewrite list_ascii_of_string_app in Hab. symmetry in Hab.
    apply app_eq_nil in Hab as [Ha Hb].
    unfold email_at, phone_at. rewrite Ha, Hb. split; reflexivity.
  - intros Hab. rewrite redact_as_list in Hab.
    apply (f_equal list_ascii_of_string) in Hab.
    rewrite list_ascii_of_string_of_list_ascii, list_ascii_of_string_app in Hab.
    unfold redact_list, replace_list in Hab.
    set (y := replace_from EMAIL_RE EMAIL 0 None (list_ascii_of_string text)) in *.
    assert (Hqe : quiet EMAIL_RE None (replace_from PHONE_RE PHONE 0 None y)).
    { apply phone_pass_email_quiet with (prev := None). apply email_pass_quiet. }
    assert (Hqp : quiet PHONE_RE None (replace_from PHONE_RE PHONE 0 None y)).
    { apply phone_pass_quiet with (n := length y); auto. }
    rewrite Hab in Hqe, Hqp.
    apply quiet_suffix, quiet_head in Hqe. apply quiet_suffix, quiet_head in Hqp.
    split.
    + unfold email_at. eapply free_any_context; [reflexivity|exact Hqe].
    + unfold phone_at. unfold last_or in Hqp.
      destruct (last (list_ascii_of_string a)); exact Hqp.
Qed.

Lemma redacted_text_matches_no_pattern_witness :
  email_at "[EMAIL] or [PHONE]" = None /\
  phone_at (last (list_ascii_of_string "mail ")) "[EMAIL] or [PHONE]" = None.
Proof.
  apply (@redacted_text_matches_no_pattern example_analyzer
           "mail bob@example.org or 555-123-4567" "mail " "[EMAIL] or [PHONE]").
  reflexivity.
Defined.

(** The score does not depend on the address: two texts that differ only
    in the e-mail address the scan arrives at have the same redacted text,
    so the scorer is called on the same string and the analysis is the
    same. *)
Theorem analysis_blind_to_address `{SentimentIntensityAnalyzer}
    (pre m1 m2 post : string) :
  no_email_starts_in pre (m1 ++ post) = true ->
  email_at (m1 ++ post) = Some (String.length m1) ->
  no_email_starts_in pre (m2 ++ post) = true ->
  email_at (m2 ++ post) = Some (String.length m2) ->
  analyzeText (pre ++ m1 ++ post) = analyzeText (pre ++ m2 ++ post).
Proof.
  intros Hp1 Hm1 Hp2 Hm2.
  assert (Hne : forall m, email_at (m ++ post) = Some (String.length m) ->
            String.eqb (pre ++ m ++ post) "" = false).
  { intros m Hm. apply String.eqb_neq. destruct m as [|c m].
    - exfalso. exact (email_nonempty _ _ Hm).
    - destruct pre; discriminate. }
  unfold analyzeText. rewrite (Hne m1 Hm1), (Hne m2 Hm2).
  assert (Hr : redact (pre ++ m1 ++ post) = redact (pre ++ m2 ++ post)).
  { unfold redact.
    rewrite (email_pass_at_match _ _ _ Hp1 Hm1), (email_pass_at_match _ _ _ Hp2 Hm2).
    reflexivity. }
  rewrite Hr. reflexivity.
Qed.

Lemma analysis_blind_to_address_witness :
  @analyzeText example_analyzer ("I love " ++ "ann@example.org" ++ " a lot")
  = @analyzeText example_analyzer ("I love " ++ "555-123-4567@mail.com" ++ " a lot").
Proof.
  apply (@analysis_blind_to_address example_analyzer); reflexivity.
Defined.

(** ** The contact vault (routes/contact.js, utils/mailer.js) *)

Import Contact.

(** What SQLite keeps true of [contact_identities]: [email_hash] is
    UNIQUE, [id] is the primary key, and AUTOINCREMENT hands out ids from
    1 on, never one at or below the largest id it has assigned. *)
Definition vault_ok (v : vault) : Prop :=
  NoDup (email_hash <$> identities v) /\
  NoDup (identity_id <$> identities v) /\
  Forall (fun r => (0 < identity_id r <= last_identity v)%Z) (identities v) /\
  (0 <= last_identity v)%Z.

(** [cleanEmail] of [/provision]. *)
Definition cleanEmail (e : string) : string := trim (toLowerCase e).

(** A body that [/provision] does not take up, because its guard turns
    it away or because its [email] is no string; the guard of [/send]. *)
Definition provision_incomplete (b : provision_body) : bool :=
  falsy (email b) || negb (privacyConsent b) || falsy (siteKey b)
  || falsy (secretKey b).

Definition send_incomplete (b : send_body) : bool :=
  no_id (send_id b) || falsy (senderEmail b) || falsy (message b)
  || falsy (send_token b).

Definition with_email (b : provision_body) (e : string) : provision_body :=
  {| email_field := Text e; siteKey := siteKey b; secretKey := secretKey b;
     provision_token := provision_token b; privacyConsent := privacyConsent b |}.

(** A verification service that lets everyone through with score 0.9, one
    whose answers carry no score, a transport that accepts every mail,
    and an empty vault. *)
Definition lenient_recaptcha : Recaptcha :=
  {| post := fun _ => Verified true (Some (9 # 10)) |}.

Definition scoreless_recaptcha : Recaptcha :=
  {| post := fun _ => Verified true None |}.

Definition accepting_transporter : Transporter :=
  {| sendMail := fun _ => None |}.

Definition empty_vault : vault := Vault [] 0 None None.

Definition example_provision : provision_body :=
  ProvisionBody (Text " Ada@Example.ORG ") (Some "site-key") (Some "secret-key")
    (Some "token") true.

Definition example_reprovision : provision_body :=
  ProvisionBody (Text "ada@example.org") (Some "other-site-key")
    (Some "other-secret-key") None true.

Definition example_send : send_body :=
  SendBody (Some 1%Z) (Some "bob@example.org") None (Some "Hello") (Some "token").

(** A body with a number for its address, complete otherwise. *)
Definition example_numeric : provision_body :=
  ProvisionBody (Other true) (Some "site-key") (Some "secret-key")
    (Some "token") true.

(** A body that is taken up passes the guard, with a string for its
    address. *)
Lemma provision_complete (b : provision_body) :
  provision_incomplete b = false ->
  exists address : string,
    email_field b = Text address /\ email b = Some address /\
    not_field (email_field b) || negb (privacyConsent b) || falsy (siteKey b)
    || falsy (secretKey b) = false.
Proof.
  unfold provision_incomplete, email.
  destruct (email_field b) as [|address|truthy]; simpl; try discriminate.
  intros Hg. exists address. auto.
Qed.

Lemma filter_head_none {A} (P : A -> Prop) `{!forall x, Decision (P x)} (l : list A) :
  head (filter P l) = None -> filter P l = [].
Proof. destruct (filter P l); [reflexivity|discriminate]. Qed.

Lemma insert_keeps_vault_ok (v : vault) (hash raw sk sec ip : string) (v' : vault) (i : Z) :
  vault_ok v ->
  insert_identity v hash raw sk sec ip = inr (v', i) ->
  vault_ok v' /\ i = (last_identity v + 1)%Z /\
  identities v' = (identities v ++ [Identity i hash raw sk sec ip])%list /\
  last_identity v' = i /\ read_failure v' = read_failure v /\
  write_failure v' = write_failure v.
Proof.
  intros (Hh & Hi & Hb & Hl) Hins. unfold insert_identity in Hins.
  destruct (write_failure v) eqn:Hw; [discriminate|].
  destruct (filter _ (identities v)) eqn:Hf; [|discriminate].
  injection Hins as <- <-. cbn [identities last_identity read_failure write_failure].
  split; [|repeat split; auto].
  unfold vault_ok. cbn [identities last_identity].
  split; [|split; [|split; [|lia]]].
  - rewrite fmap_app. apply NoDup_app. split; [exact Hh|]. split.
    + intros h Hin Hin'. apply list_elem_of_singleton in Hin'. simpl in Hin'. subst h.
      apply list_elem_of_fmap in Hin as (r & Hr & Hin).
      exact (filter_nil_not_elem_of _ _ r Hf (eq_sym Hr) Hin).
    + apply NoDup_singleton.
  - rewrite fmap_app. apply NoDup_app. split; [exact Hi|]. split.
    + intros j Hin Hin'. apply list_elem_of_singleton in Hin'. simpl in Hin'. subst j.
      apply list_elem_of_fmap in Hin as (r & Hr & Hin).
      rewrite Forall_forall in Hb. specialize (Hb r Hin). lia.
    + apply NoDup_singleton.
  - apply Forall_app. split.
    + eapply Forall_impl; [exact Hb|]. simpl. intros; lia.
    + apply Forall_singleton. simpl. lia.
Qed.

Section ContactRoutes.
Context {recaptcha : Recaptcha} {transporter : Transporter}.

(** Provisioning either registers exactly one identity or leaves the
    vault as it was.  It registers one exactly when it answers "new": the
    identity is appended with the next id, that id and its embed code are
    the answer, and the address stored (twice) is the cleaned one.  The
    vault stays a table SQLite could hold, no mail is sent, and the
    verification service is asked at most once, with the hub's secret.
    The handler answers unless an error escapes it, and one escapes
    exactly when the body passes the guard with an [email] that is no
    string (a number, [true], an array, an object): [email.toLowerCase]
    is then no function, the TypeError leaves the handler before the
    [try], no response is sent, the verification service is not asked and
    the vault is untouched. *)
Theorem provision_registers_one_identity (secret : option string)
    (b : provision_body) (ip : string) (v : vault) :
  vault_ok v ->
  let r := provision secret b ip v in
  let i := (last_identity v + 1)%Z in
  let e := cleanEmail (interpolate (email b)) in
  vault_ok (vault_after r) /\
  mails r = [] /\
  (rejected r = None <-> is_Some (answered r)) /\
  (is_Some (rejected r) <->
   email_field b = Other true /\ privacyConsent b = true /\
   falsy (siteKey b) = false /\ falsy (secretKey b) = false) /\
  (is_Some (rejected r) ->
   r = {| answered := None; vault_after := v; verifications := [];
          mails := []; rejected := Some TypeError_toLowerCase |}) /\
  (verifications r = [] \/
   verifications r = [verifyUrl secret (provision_token b)]) /\
  ((answered r = Some (200, ProvisionReply "new" i (embedCode i)) /\
    vault_after r =
      Vault (identities v ++ [Identity i e e (interpolate (siteKey b))
                                (interpolate (secretKey b)) ip])
        i (read_failure v) (write_failure v)) \/
   (vault_after r = v /\
    forall j code, answered r = Some (200, ProvisionReply "new" j code) -> False)).
Proof.
  intros Hok r i e. subst r e. unfold provision, email.
  destruct (not_field (email_field b) || negb (privacyConsent b)
            || falsy (siteKey b) || falsy (secretKey b)) eqn:Hg.
  { cbn. split; [exact Hok|]. split; [reflexivity|].
    split; [split; eauto|].
    split; [split; [intros [x Hx]; discriminate|]|].
    { intros (Hf & Hc & Hs & Hk). rewrite Hf, Hc, Hs, Hk in Hg. discriminate. }
    split; [intros [x Hx]; discriminate|]. split; [auto|].
    right. split; [reflexivity|]. intros; discriminate. }
  destruct (email_field b) as [|address|[|]] eqn:Hf; try discriminate Hg.
  2:{ apply orb_false_iff in Hg as [Hg Hk].
      apply orb_false_iff in Hg as [Hg Hs].
      apply orb_false_iff in Hg as [_ Hc]. apply negb_false_iff in Hc.
      cbn. split; [exact Hok|]. split; [reflexivity|].
      split; [split; [discriminate|intros [x Hx]; discriminate]|].
      split; [split; eauto|]. split; [reflexivity|]. split; [auto|].
      right. split; [reflexivity|]. intros; discriminate. }
  assert (Hstring :
    forall (st : nat) (a : reply) (urls : list string),
      (urls = [] \/ urls = [verifyUrl secret (provision_token b)]) ->
      (forall j code, a <> ProvisionReply "new" j code) ->
      let r := answer st a v urls [] in
      vault_ok (vault_after r) /\
      mails r = [] /\
      (rejected r = None <-> is_Some (answered r)) /\
      (is_Some (rejected r) <->
       Text address = Other true /\ privacyConsent b = true /\
       falsy (siteKey b) = false /\ falsy (secretKey b) = false) /\
      (is_Some (rejected r) ->
       r = {| answered := None; vault_after := v; verifications := [];
              mails := []; rejected := Some TypeError_toLowerCase |}) /\
      (verifications r = [] \/
       verifications r = [verifyUrl secret (provision_token b)]) /\
      ((answered r = Some (200, ProvisionReply "new" i (embedCode i)) /\
        vault_after r =
          Vault (identities v ++ [Identity i (cleanEmail address)
                                    (cleanEmail address) (interpolate (siteKey b))
                                    (interpolate (secretKey b)) ip])
            i (read_failure v) (write_failure v)) \/
       (vault_after r = v /\
        forall j code, answered r = Some (200, ProvisionReply "new" j code) -> False))).
  { intros st a urls Hurls Ha. cbn. split; [exact Hok|]. split; [reflexivity|].
    split; [split; eauto|].
    split; [split; [intros [x Hx]; discriminate|intros (Hx & _); discriminate]|].
    split; [intros [x Hx]; discriminate|]. split; [exact Hurls|].
    right. split; [reflexivity|]. intros j code [= _ Hj]. exact (Ha _ _ Hj). }
  destruct (post _) as [m|success score];
    [apply Hstring; [auto|discriminate]|].
  destruct (negb success || below_half score);
    [apply Hstring; [auto|discriminate]|].
  destruct (get_by_email v _) as [m|[row|]] eqn:Hget;
    [apply Hstring; [auto|discriminate]..|].
  destruct (insert_identity _ _ _ _ _ _) as [m|[v' j]] eqn:Hins;
    [apply Hstring; [auto|discriminate]|].
  destruct (insert_keeps_vault_ok _ _ _ _ _ _ _ _ Hok Hins)
    as (Hok' & -> & Hids & Hlast & Hr & Hw).
  cbn. split; [exact Hok'|]. split; [reflexivity|].
  split; [split; eauto|].
  split; [split; [intros [x Hx]; discriminate|intros (Hx & _); discriminate]|].
  split; [intros [x Hx]; discriminate|]. split; [auto|].
  left. split; [reflexivity|]. destruct v'; simpl in *. subst. reflexivity.
Qed.

End ContactRoutes.

(** A first registration, and a body whose address is a number. *)
Lemma provision_registers_one_identity_witness :
  vault_ok
    (vault_after
       (@provision lenient_recaptcha (Some "hub-secret") example_provision
          "203.0.113.7" empty_vault)) /\
  @provision lenient_recaptcha (Some "hub-secret") example_numeric
    "203.0.113.7" empty_vault
  = {| answered := None; vault_after := empty_vault; verifications := [];
       mails := []; rejected := Some TypeError_toLowerCase |}.
Proof.
  split.
  - apply (@provision_registers_one_identity lenient_recaptcha (Some "hub-secret")
             example_provision "203.0.113.7" empty_vault).
    unfold vault_ok, empty_vault; simpl.
    repeat split; try constructor; lia.
  - refine (proj1 (proj2 (proj2 (proj2 (proj2
      (@provision_registers_one_identity lenient_recaptcha (Some "hub-secret")
         example_numeric "203.0.113.7" empty_vault _))))) _).
    + unfold vault_ok, empty_vault; simpl.
      repeat split; try constructor; lia.
    + eexists. reflexivity.
Defined.

Section ContactIdentity.
Context {recaptcha : Recaptcha} {transporter : Transporter}.

(** What an answer "new" tells about the vault before and after. *)
Lemma provision_new_inv (secret : option string) (b : provision_body)
    (ip : string) (v : vault) (i : Z) (code : string) :
  answered (provision secret b ip v) = Some (200, ProvisionReply "new" i code) ->
  let e := cleanEmail (interpolate (email b)) in
  provision_incomplete b = false /\
  read_failure v = None /\
  filter (fun r => email_hash r = e) (identities v) = [] /\
  i = (last_identity v + 1)%Z /\ code = embedCode i /\
  vault_after (provision secret b ip v)
  = Vault (identities v ++ [Identity i e e (interpolate (siteKey b))
                              (interpolate (secretKey b)) ip])
      i (read_failure v) (write_failure v).
Proof.
  intros Hnew e. subst e. unfold provision_incomplete, cleanEmail, email.
  revert Hnew. unfold provision.
  destruct (email_field b) as [|address|truthy];
    [discriminate| |destruct (_ || _); discriminate].
  cbn [not_field falsy interpolate].
  destruct (String.eqb address "" || negb (privacyConsent b) || falsy (siteKey b)
            || falsy (secretKey b)); [discriminate|].
  destruct (post (verifyUrl secret (provision_token b))) as [m|success sc];
    [discriminate|].
  destruct (negb success || below_half sc); [discriminate|].
  unfold get_by_email.
  destruct (read_failure v) eqn:Hrf; [discriminate|].
  destruct (head (filter _ (identities v))) eqn:Hhd; [discriminate|].
  apply filter_head_none in Hhd.
  unfold insert_identity.
  destruct (write_failure v) eqn:Hwf; [discriminate|].
  rewrite Hhd. cbn. intros [= <- <-]. rewrite ?Hrf, ?Hwf. auto 10.
Qed.

(** After an address has been registered, provisioning it again (in any
    letter case, with any white space around it, and with whatever keys)
    answers "existing" with the id of the first registration and changes
    nothing: the keys of the first registration stay in force. *)
Theorem provision_again_answers_existing (secret : option string)
    (b b' : provision_body) (ip ip' : string) (v : vault) (i : Z)
    (code : string) (score : Q) :
  answered (provision secret b ip v) = Some (200, ProvisionReply "new" i code) ->
  provision_incomplete b' = false ->
  cleanEmail (interpolate (email b')) = cleanEmail (interpolate (email b)) ->
  post (verifyUrl secret (provision_token b')) = Verified true (Some score) ->
  (1 # 2 <= score)%Q ->
  let v' := vault_after (provision secret b ip v) in
  provision secret b' ip' v'
  = answer 200 (ProvisionReply "existing" i (embedCode i)) v'
      [verifyUrl secret (provision_token b')] [].
Proof.
  intros Hnew Hc He Hp Hs v'. subst v'.
  destruct (provision_new_inv _ _ _ _ _ _ Hnew) as (_ & Hrf & Hf & _ & _ & ->).
  destruct (provision_complete _ Hc) as (address & Hfield & Haddress & Hg).
  rewrite Haddress in He. cbn [interpolate] in He.
  unfold provision. rewrite Hg, Hfield, Hp.
  assert (Hb : below_half (Some score) = false).
  { simpl. apply negb_false_iff, Qle_bool_iff, Hs. }
  rewrite Hb. cbn [negb orb].
  fold (cleanEmail address). rewrite He.
  unfold get_by_email. cbn [read_failure identities]. rewrite Hrf.
  rewrite filter_app, Hf. cbn [app].
  rewrite filter_cons_True by reflexivity.
  reflexivity.
Qed.

End ContactIdentity.

Lemma provision_again_answers_existing_witness :
  let v' :=
    vault_after
      (@provision lenient_recaptcha (Some "hub-secret") example_provision
         "203.0.113.7" empty_vault) in
  @provision lenient_recaptcha (Some "hub-secret") example_reprovision
    "198.51.100.2" v'
  = answer 200 (ProvisionReply "existing" 1 (embedCode 1)) v'
      [verifyUrl (Some "hub-secret") None] [].
Proof.
  apply (@provision_again_answers_existing lenient_recaptcha (Some "hub-secret")
           example_provision example_reprovision "203.0.113.7" "198.51.100.2"
           empty_vault 1 (embedCode 1) (9 # 10)); try reflexivity.
  vm_compute. discriminate.
Defined.

(** *** Cleaning an address *)

Definition trim_end (l : list ascii) : list ascii := rev (trim_start (rev l)).

Lemma trim_as_list (s : string) :
  trim s = string_of_list_ascii (trim_end (trim_start (list_ascii_of_string s))).
Proof. reflexivity. Qed.

Lemma is_space_lower_unit (c : ascii) : is_space (lower_unit c) = is_space c.
Proof. destruct c as [[] [] [] [] [] [] [] []]; reflexivity. Qed.

Lemma trim_start_map (l : list ascii) :
  trim_start (map lower_unit l) = map lower_unit (trim_start l).
Proof.
  induction l as [|c l IH]; [reflexivity|].
  cbn [map trim_start]. rewrite is_space_lower_unit.
  destruct (is_space c); [exact IH|reflexivity].
Qed.

Lemma trim_end_map (l : list ascii) :
  trim_end (map lower_unit l) = map lower_unit (trim_end l).
Proof. unfold trim_end. rewrite <- map_rev, trim_start_map, map_rev. reflexivity. Qed.

Lemma toLowerCase_as_list (s : string) :
  list_ascii_of_string (toLowerCase s) = map lower_unit (list_ascii_of_string s).
Proof. induction s as [|c s IH]; [reflexivity|]. simpl. rewrite IH. reflexivity. Qed.

Lemma toLowerCase_of_list (l : list ascii) :
  toLowerCase (string_of_list_ascii l) = string_of_list_ascii (map lower_unit l).
Proof. induction l as [|c l IH]; [reflexivity|]. simpl. rewrite IH. reflexivity. Qed.

Lemma toLowerCase_trim (s : string) : toLowerCase (trim s) = trim (toLowerCase s).
Proof.
  rewrite !trim_as_list, toLowerCase_of_list, toLowerCase_as_list.
  rewrite trim_start_map, trim_end_map. reflexivity.
Qed.

(** A list is trimmed at the front when it does not start with white
    space. *)
Definition starts_clean (l : list ascii) : Prop :=
  match l with
  | c :: _ => is_space c = false
  | [] => True
  end.

Lemma trim_start_clean (l : list ascii) : starts_clean (trim_start l).
Proof.
  induction l as [|c l IH]; [exact I|].
  cbn [trim_start]. destruct (is_space c) eqn:Hc; [exact IH|exact Hc].
Qed.

Lemma trim_start_fixed (l : list ascii) : starts_clean l -> trim_start l = l.
Proof. destruct l as [|c l]; [reflexivity|]. simpl. intros ->. reflexivity. Qed.

Lemma trim_start_snoc (l : list ascii) (c : ascii) :
  is_space c = false -> trim_start (l ++ [c]) = (trim_start l ++ [c])%list.
Proof.
  intros Hc. induction l as [|x l IH]; simpl.
  - rewrite Hc. reflexivity.
  - destruct (is_space x); [exact IH|reflexivity].
Qed.

Lemma trim_end_clean (l : list ascii) : starts_clean l -> starts_clean (trim_end l).
Proof.
  destruct l as [|c l]; [intros _; exact I|].
  simpl. intros Hc. unfold trim_end. cbn [rev].
  rewrite trim_start_snoc by exact Hc.
  rewrite rev_app_distr. exact Hc.
Qed.

Lemma trim_end_idempotent (l : list ascii) : trim_end (trim_end l) = trim_end l.
Proof.
  unfold trim_end. rewrite rev_involutive.
  rewrite (trim_start_fixed (trim_start _)) by apply trim_start_clean.
  reflexivity.
Qed.

Lemma trim_idempotent (s : string) : trim (trim s) = trim s.
Proof.
  rewrite (trim_as_list (trim s)), (trim_as_list s).
  rewrite list_ascii_of_string_of_list_ascii.
  rewrite (trim_start_fixed (trim_end _))
    by (apply trim_end_clean, trim_start_clean).
  rewrite trim_end_idempotent. reflexivity.
Qed.

Lemma cleanEmail_idempotent (e : string) : cleanEmail (cleanEmail e) = cleanEmail e.
Proof.
  unfold cleanEmail.
  rewrite toLowerCase_trim, toLowerCase_idempotent, trim_idempotent. reflexivity.
Qed.

Lemma trim_start_blank (l : list ascii) :
  Forall (fun c => is_space c = true) l -> trim_start l = [].
Proof.
  induction 1 as [|c l Hc _ IH]; [reflexivity|]. simpl. rewrite Hc. exact IH.
Qed.

Lemma cleanEmail_blank (e : string) :
  Forall (fun c => is_space c = true) (list_ascii_of_string e) -> cleanEmail e = "".
Proof.
  intros Hb. unfold cleanEmail. rewrite trim_as_list, toLowerCase_as_list.
  rewrite trim_start_map, trim_start_blank by exact Hb. reflexivity.
Qed.

(** The cases in which a handler hands no mail to the transport. *)
Ltac no_mail :=
  cbn; repeat split; auto; try discriminate;
  try (intros (? & ? & _); discriminate);
  try (intros [? ?]; discriminate);
  try (intros _; eexists; reflexivity).

Section ContactDispatch.
Context {recaptcha : Recaptcha} {transporter : Transporter}.

(** The row a registration has just written is the one its id selects. *)
Lemma get_by_id_new (v : vault) (r : identity) :
  vault_ok v ->
  identity_id r = (last_identity v + 1)%Z ->
  filter (fun x => identity_id x = identity_id r) (identities v ++ [r])%list = [r].
Proof.
  intros (_ & _ & Hb & _) Hr. rewrite filter_app.
  rewrite filter_cons_True by reflexivity. rewrite filter_nil.
  replace (filter _ (identities v)) with (@nil identity); [reflexivity|].
  symmetry. induction Hb as [|x l Hx _ IH]; [reflexivity|].
  rewrite filter_cons_False by lia. exact IH.
Qed.

(** The address is cleaned before it is looked up and stored, and
    cleaning a cleaned address changes nothing.  So the cleaned address,
    submitted in place of the original, gives the same run, provided it
    is not empty; when it is empty (the original was empty or white space
    only) the guard turns the cleaned address away with status 400,
    whatever the run of the original was. *)
Theorem provision_reads_cleaned_address (secret : option string)
    (b : provision_body) (e ip : string) (v : vault) :
  cleanEmail (cleanEmail e) = cleanEmail e /\
  (cleanEmail e <> "" ->
   provision secret (with_email b (cleanEmail e)) ip v
   = provision secret (with_email b e) ip v) /\
  (cleanEmail e = "" ->
   provision secret (with_email b (cleanEmail e)) ip v
   = answer 400
       (ErrorReply "Institutional verification requires all security fields.")
       v [] []).
Proof.
  split; [apply cleanEmail_idempotent|]. split.
  - intros Hne. unfold provision. cbn [with_email email_field siteKey secretKey
      provision_token privacyConsent not_field].
    fold (cleanEmail e). fold (cleanEmail (cleanEmail e)).
    rewrite cleanEmail_idempotent.
    assert (He : String.eqb e "" = false).
    { apply String.eqb_neq. intros ->. apply Hne. reflexivity. }
    assert (Hc : String.eqb (cleanEmail e) "" = false).
    { apply String.eqb_neq. exact Hne. }
    rewrite He, Hc. reflexivity.
  - intros ->. reflexivity.
Qed.

(** The guard of [/provision] tests the address before it is cleaned: an
    address that is not empty but consists of white space only passes it,
    and with a verified request and an accessible vault that holds no
    empty address yet it is registered, as the empty address. *)
Theorem blank_address_is_registered (secret : option string)
    (b : provision_body) (e ip : string) (v : vault) (score : Q) :
  e <> "" ->
  Forall (fun c => is_space c = true) (list_ascii_of_string e) ->
  provision_incomplete (with_email b e) = false ->
  post (verifyUrl secret (provision_token b)) = Verified true (Some score) ->
  (1 # 2 <= score)%Q ->
  read_failure v = None ->
  write_failure v = None ->
  filter (fun r => email_hash r = "") (identities v) = [] ->
  let i := (last_identity v + 1)%Z in
  provision secret (with_email b e) ip v
  = answer 200 (ProvisionReply "new" i (embedCode i))
      (Vault (identities v ++ [Identity i "" "" (interpolate (siteKey b))
                                 (interpolate (secretKey b)) ip])
         i None None)
      [verifyUrl secret (provision_token b)] [].
Proof.
  intros _ Hblank Hc Hp Hs Hrf Hwf Hf i. subst i.
  destruct (provision_complete _ Hc) as (address & Hfield & _ & Hg).
  injection Hfield as <-.
  unfold provision. rewrite Hg.
  cbn [with_email email_field siteKey secretKey provision_token privacyConsent].
  fold (cleanEmail e). rewrite (cleanEmail_blank _ Hblank), Hp.
  assert (Hb : below_half (Some score) = false).
  { simpl. apply negb_false_iff, Qle_bool_iff, Hs. }
  rewrite Hb. cbn [negb orb].
  unfold get_by_email, insert_identity. rewrite Hrf, Hwf, Hf. reflexivity.
Qed.

(** A registration can be used at once: the id it answers selects the
    site key it was given in [/config/:id], and an inquiry sent to that id
    is verified with the secret key it was given and with nothing else,
    and any mail that results goes to the cleaned address, with the
    sender as the address to reply to. *)
Theorem provisioned_identity_is_served (secret : option string)
    (b : provision_body) (ip : string) (v : vault) (i : Z) (code : string) :
  vault_ok v ->
  answered (provision secret b ip v) = Some (200, ProvisionReply "new" i code) ->
  let v' := vault_after (provision secret b ip v) in
  config i v' = answer 200 (SiteKeyReply (interpolate (siteKey b))) v' [] [] /\
  forall (user : option string) (sb : send_body),
    send_id sb = Some i -> send_incomplete sb = false ->
    verifications (send user sb v')
    = [verifyUrl (Some (interpolate (secretKey b))) (send_token sb)] /\
    forall m, m ∈ mails (send user sb v') ->
      to m = cleanEmail (interpolate (email b)) /\
      replyTo m = interpolate (senderEmail sb).
Proof.
  intros Hok Hnew v'. subst v'.
  destruct (provision_new_inv _ _ _ _ _ _ Hnew) as (_ & Hrf & _ & Hi & _ & ->).
  set (r := Identity i _ _ _ _ _).
  assert (Hget : forall rf wf,
            get_by_id (Vault (identities v ++ [r])%list i rf wf) i
            = match rf with Some m => inl m | None => inr (Some r) end).
  { intros rf wf. unfold get_by_id. cbn [read_failure identities].
    destruct rf; [reflexivity|].
    pose proof (get_by_id_new v r Hok Hi) as Hg.
    change (identity_id r) with i in Hg. rewrite Hg. reflexivity. }
  split.
  - unfold config. rewrite Hget, Hrf. reflexivity.
  - intros user sb Hid Hc. unfold send. unfold send_incomplete in Hc.
    rewrite Hc, Hid. cbn [default]. rewrite Hget, Hrf.
    cbn [recaptcha_secret_key raw_email r].
    destruct (post _) as [m|success score]; [split; [reflexivity|]|].
    { cbn. intros m' Hm'. apply elem_of_nil in Hm'. contradiction. }
    destruct (success && at_least_half score).
    + destruct (sendInquiry _ _ _ _ _); cbn; (split; [reflexivity|]);
        intros m Hm; apply list_elem_of_singleton in Hm; subst m; split; reflexivity.
    + cbn. split; [reflexivity|].
      intros m' Hm'. apply elem_of_nil in Hm'. contradiction.
Qed.

(** An inquiry never changes the vault, and it hands at most one mail to
    the transport: only when the id selects a stored identity and the
    verification service, asked with that identity's secret key, reports
    success with a score of at least one half; the mail then goes to the
    stored address of that identity.  The answer is 200 exactly when such
    a mail was handed over and the transport accepted it; the handler
    lets an error escape exactly when it sends no answer. *)
Theorem send_mails_only_after_verification (user : option string)
    (sb : send_body) (v : vault) :
  let r := send user sb v in
  vault_after r = v /\
  (mails r = [] \/
   exists (row : identity) (score : Q),
     send_id sb = Some (identity_id row) /\ row ∈ identities v /\
     post (verifyUrl (Some (recaptcha_secret_key row)) (send_token sb))
     = Verified true (Some score) /\
     (1 # 2 <= score)%Q /\
     mails r = [inquiry_options user (raw_email row) (interpolate (senderEmail sb))
                  (send_subject sb) (interpolate (message sb))]) /\
  (answered r = Some (200, SentReply "Inquiry dispatched.") <->
   exists o, mails r = [o] /\ sendMail o = None) /\
  (answered r = None <-> is_Some (rejected r)).
Proof.
  intros r. subst r. unfold send.
  destruct (no_id (send_id sb) || falsy (senderEmail sb) || falsy (message sb)
            || falsy (send_token sb)) eqn:Hc; [no_mail|].
  destruct (get_by_id v _) as [m|[row|]] eqn:Hget; [no_mail| |no_mail].
  assert (Hrow : send_id sb = Some (identity_id row) /\ row ∈ identities v).
  { unfold get_by_id in Hget. destruct (read_failure v); [discriminate|].
    injection Hget as Hget. apply head_Some_elem_of in Hget.
    apply list_elem_of_filter in Hget as [Hid Hin]. split; [|exact Hin].
    destruct (send_id sb) as [j|]; [|discriminate Hc].
    simpl in Hid. congruence. }
  destruct (post _) as [m|success score] eqn:Hp; [no_mail|].
  destruct success, score as [q|]; cbn [andb at_least_half]; [|no_mail..].
  destruct (Qle_bool (1 # 2) q) eqn:Hq; [|no_mail].
  apply Qle_bool_iff in Hq. unfold sendInquiry.
  destruct (sendMail _) as [e|] eqn:Hsend; cbn.
  - split; [reflexivity|]. split; [right; exists row, q; tauto|]. split.
    + split; [discriminate|]. intros (o & [= <-] & Ho). congruence.
    + split; [discriminate|]. intros [x Hx]. discriminate.
  - split; [reflexivity|]. split; [right; exists row, q; tauto|]. split.
    + split; [|reflexivity]. intros _. eexists. split; [reflexivity|exact Hsend].
    + split; [discriminate|]. intros [x Hx]. discriminate.
Qed.

(** The two routes do not read an answer without a score alike.  When
    the verification service reports success and no score, [/provision]
    goes on to the vault and with an accessible vault registers or finds
    the identity, but [/send] answers 403 to every complete inquiry for a
    stored identity and sends no mail. *)
Theorem absent_score_provisions_but_never_sends :
  (forall (secret : option string) (b : provision_body) (ip : string) (v : vault),
     provision_incomplete b = false ->
     post (verifyUrl secret (provision_token b)) = Verified true None ->
     read_failure v = None -> write_failure v = None ->
     exists status i,
       answered (provision secret b ip v)
       = Some (200, ProvisionReply status i (embedCode i))) /\
  (forall (user : option string) (sb : send_body) (v : vault) (row : identity),
     send_incomplete sb = false ->
     get_by_id v (default 0%Z (send_id sb)) = inr (Some row) ->
     post (verifyUrl (Some (recaptcha_secret_key row)) (send_token sb))
     = Verified true None ->
     send user sb v
     = answer 403
         (ErrorReply "Security Verification Failed: Bot activity detected.") v
         [verifyUrl (Some (recaptcha_secret_key row)) (send_token sb)] []).
Proof.
  split.
  - intros secret b ip v Hc Hp Hrf Hwf.
    destruct (provision_complete _ Hc) as (address & Hfield & _ & Hg).
    unfold provision. rewrite Hg, Hfield, Hp. cbn [negb orb below_half].
    unfold get_by_email. rewrite Hrf.
    destruct (head _) as [row|] eqn:Hhd.
    + exists "existing", (identity_id row). reflexivity.
    + apply filter_head_none in Hhd. unfold insert_identity.
      rewrite Hwf, Hhd. exists "new", (last_identity v + 1)%Z. reflexivity.
  - intros user sb v row Hc Hget Hp. unfold send.
    unfold send_incomplete in Hc. rewrite Hc, Hget, Hp. reflexivity.
Qed.

End ContactDispatch.

Lemma provision_reads_cleaned_address_witness :
  @provision lenient_recaptcha (Some "hub-secret")
    (with_email example_provision (cleanEmail " Ada@Example.ORG ")) "203.0.113.7"
    empty_vault
  = @provision lenient_recaptcha (Some "hub-secret")
      (with_email example_provision " Ada@Example.ORG ") "203.0.113.7" empty_vault.
Proof.
  apply (proj1 (proj2 (@provision_reads_cleaned_address lenient_recaptcha
           (Some "hub-secret") example_provision " Ada@Example.ORG "
           "203.0.113.7" empty_vault))).
  vm_compute. discriminate.
Defined.

Lemma blank_address_is_registered_witness :
  @provision lenient_recaptcha (Some "hub-secret")
    (with_email example_provision "  ") "203.0.113.7" empty_vault
  = answer 200 (ProvisionReply "new" 1 (embedCode 1))
      (Vault [Identity 1 "" "" "site-key" "secret-key" "203.0.113.7"] 1 None None)
      [verifyUrl (Some "hub-secret") (Some "token")] [].
Proof.
  apply (@blank_address_is_registered lenient_recaptcha (Some "hub-secret")
           example_provision "  " "203.0.113.7" empty_vault (9 # 10));
    try reflexivity.
  - discriminate.
  - repeat constructor.
  - vm_compute. discriminate.
Defined.

Lemma provisioned_identity_is_served_witness :
  let v' :=
    vault_after
      (@provision lenient_recaptcha (Some "hub-secret") example_provision
         "203.0.113.7" empty_vault) in
  @config 1 v' = answer 200 (SiteKeyReply "site-key") v' [] [].
Proof.
  apply (@provisioned_identity_is_served lenient_recaptcha accepting_transporter
           (Some "hub-secret") example_provision "203.0.113.7" empty_vault 1
           (embedCode 1)).
  - unfold vault_ok, empty_vault; simpl. repeat split; try constructor; lia.
  - reflexivity.
Defined.

Lemma absent_score_provisions_but_never_sends_witness :
  let v' :=
    vault_after
      (@provision scoreless_recaptcha (Some "hub-secret") example_provision
         "203.0.113.7" empty_vault) in
  @send scoreless_recaptcha accepting_transporter None example_send v'
  = answer 403
      (ErrorReply "Security Verification Failed: Bot activity detected.") v'
      [verifyUrl (Some "secret-key") (Some "token")] [].
Proof.
  apply (proj2 (@absent_score_provisions_but_never_sends scoreless_recaptcha
                  accepting_transporter)
           None example_send _
           (Identity 1 "ada@example.org" "ada@example.org" "site-key" "secret-key"
              "203.0.113.7"));
    reflexivity.
Defined.

(** ** The poetry agent (routes/tanaga.js) *)

Module TanagaFacts.
Import RegExp RegExpFacts Tanaga.
Local Open Scope list_scope.

(** The quantifier without its greedy flag: laziness changes which match
    is found first, not which matches there are. *)
Definition erase (q : quantified) : node :=
  Class (atom q) (at_least q) (at_most q).

Section LazyMatcher.
Variable test : ascii -> bool.
Variable k : list ascii -> option nat.

Lemma repeat_quantifier_sound s : forall min max g n,
  repeat_quantifier test k min max g s = Some n ->
  exists j, j <= n /\ j <= length s /\
    Forall (fun c => test c = true) (take j s) /\
    min <= j /\ within_max max j /\
    k (drop j s) = Some (n - j).
Proof.
  assert (Hstop : forall (s : list ascii) max n, k s = Some n ->
    exists j, j <= n /\ j <= length s /\
      Forall (fun c => test c = true) (take j s) /\
      0 <= j /\ within_max max j /\ k (drop j s) = Some (n - j)).
  { intros s0 max n Hk. exists 0. rewrite Nat.sub_0_r, drop_0, take_0.
    repeat split; auto; try lia. destruct max; simpl; lia. }
  induction s as [|c s IH]; intros min max g n H.
  - simpl in H. destruct min; [|discriminate].
    destruct g; [apply Hstop; exact H|].
    destruct (k []) eqn:Hk; [|discriminate]. apply Hstop. congruence.
  - cbn [repeat_quantifier] in H.
    assert (Hmore :
      (if test c && can_repeat max
       then S <$> repeat_quantifier test k (Nat.pred min) (dec_max max) g s
       else None) = Some n ->
      exists j, j <= n /\ j <= length (c :: s) /\
        Forall (fun c => test c = true) (take j (c :: s)) /\
        min <= j /\ within_max max j /\ k (drop j (c :: s)) = Some (n - j)).
    { destruct (test c && can_repeat max) eqn:Hc; [|discriminate].
      apply andb_true_iff in Hc as [Ht Hr].
      destruct (repeat_quantifier test k (Nat.pred min) (dec_max max) g s)
        as [n'|] eqn:Hrec; [|discriminate].
      intros [= <-].
      destruct (IH _ _ _ _ Hrec) as (j & Hjn & Hjs & Hall & Hmin & Hmax & Hk).
      exists (S j). simpl.
      repeat split; auto; try lia. apply within_max_dec; assumption. }
    destruct min as [|min]; [|exact (Hmore H)].
    destruct g.
    + destruct (if test c && can_repeat max then _ else None) eqn:Hm.
      * apply Hmore. congruence.
      * apply Hstop. exact H.
    + destruct (k (c :: s)) eqn:Hk.
      * apply Hstop. congruence.
      * exact (Hmore H).
Qed.

Lemma repeat_quantifier_stop max g s :
  is_Some (k s) -> is_Some (repeat_quantifier test k 0 max g s).
Proof.
  intros [n Hk]. destruct s as [|c s]; cbn [repeat_quantifier].
  - destruct g; rewrite Hk; eauto.
  - destruct g; [|rewrite Hk; eauto].
    destruct (if test c && can_repeat max then _ else None); [eauto|].
    rewrite Hk; eauto.
Qed.

Lemma repeat_quantifier_complete m1 : forall min max g rest,
  Forall (fun c => test c = true) m1 ->
  min <= length m1 -> within_max max (length m1) ->
  is_Some (k rest) ->
  is_Some (repeat_quantifier test k min max g (m1 ++ rest)).
Proof.
  induction m1 as [|c m1 IH]; intros min max g rest Hall Hmin Hmax Hk.
  - simpl in Hmin. assert (min = 0) as -> by lia.
    apply repeat_quantifier_stop. exact Hk.
  - apply Forall_cons in Hall as [Hc Hall].
    simpl in Hmax. apply within_max_S in Hmax as [Hr Hmax].
    destruct (IH (Nat.pred min) (dec_max max) g rest) as [n Hn]; auto.
    { simpl in Hmin. lia. }
    change ((c :: m1) ++ rest) with (c :: (m1 ++ rest)).
    cbn [repeat_quantifier]. rewrite Hc, Hr, Hn. cbn [andb fmap option_fmap option_map].
    destruct min; [|eauto]. destruct g; [eauto|].
    destruct (k (c :: m1 ++ rest)); eauto.
Qed.

(** A unit the class rejects acts on the quantifier like the end of the
    input. *)
Lemma repeat_quantifier_terminator b w :
  test b = false ->
  (forall u, k (u ++ b :: w) = k u) ->
  forall u min max g,
  repeat_quantifier test k min max g (u ++ b :: w) =
  repeat_quantifier test k min max g u.
Proof.
  intros Hb Hk. induction u as [|c u IH]; intros min max g.
  - pose proof (Hk []) as Hk0. cbn [app] in Hk0.
    cbn [app repeat_quantifier]. rewrite Hb, Hk0. reflexivity.
  - change ((c :: u) ++ b :: w) with (c :: (u ++ b :: w)).
    cbn [repeat_quantifier]. rewrite IH.
    change (c :: (u ++ b :: w)) with ((c :: u) ++ b :: w). rewrite Hk.
    reflexivity.
Qed.
End LazyMatcher.

Lemma erase_free (qs : list quantified) : has_boundary (erase <$> qs) = false.
Proof. induction qs as [|q qs IH]; [reflexivity|exact IH]. Qed.

Lemma match_quantifiers_sound ic qs : forall s n,
  match_quantifiers ic qs s = Some n ->
  n <= length s /\
  forall prev, matches ic (erase <$> qs) prev (take n s) (drop n s).
Proof.
  induction qs as [|q qs IH]; intros s n H.
  - simpl in H. injection H as <-. simpl. split; [lia|].
    intros prev. rewrite drop_0. constructor.
  - cbn [match_quantifiers] in H. apply repeat_quantifier_sound in H
      as (j & Hjn & Hjs & Hall & Hmin & Hmax & Hk).
    apply IH in Hk as [Hlen Hm]. rewrite length_drop in Hlen.
    split; [lia|]. intros prev.
    replace (take n s) with (take j s ++ take (n - j) (drop j s)).
    2:{ rewrite take_take_drop. f_equal. lia. }
    replace (drop n s) with (drop (n - j) (drop j s)).
    2:{ rewrite drop_drop. f_equal. lia. }
    rewrite fmap_cons. unfold erase at 1. apply matches_class; auto.
    + rewrite length_take. lia.
    + rewrite length_take. destruct (at_most q); simpl in *; lia.
Qed.

Lemma match_quantifiers_complete ic qs : forall prev m rest,
  matches ic (erase <$> qs) prev m rest ->
  is_Some (match_quantifiers ic qs (m ++ rest)).
Proof.
  induction qs as [|q qs IH]; intros prev m rest H.
  - inversion H; subst. simpl. eauto.
  - rewrite fmap_cons in H. unfold erase at 1 in H.
    inversion H as [|items lo hi ns prev0 m1 m2 rest0 Hall Hlo Hhi Hm|]; subst.
    cbn [match_quantifiers]. rewrite <- app_assoc.
    apply repeat_quantifier_complete; auto. eapply IH. exact Hm.
Qed.

(** The code units that some class of the pattern accepts. *)
Definition accepts (re : pattern) (c : ascii) : bool :=
  existsb (fun q => class_matches (insensitive re) (atom q) c) (quantifiers re).

Lemma accepts_node_chars re c :
  node_chars (insensitive re) (erase <$> quantifiers re) c = accepts re c.
Proof.
  unfold accepts, node_chars. induction (quantifiers re) as [|q qs IH]; [reflexivity|].
  rewrite fmap_cons. cbn [existsb erase]. rewrite IH. reflexivity.
Qed.

Lemma match_quantifiers_terminator ic qs b w :
  existsb (fun q => class_matches ic (atom q) b) qs = false ->
  forall u, match_quantifiers ic qs (u ++ b :: w) = match_quantifiers ic qs u.
Proof.
  induction qs as [|q qs IH]; intros Hb u; [reflexivity|].
  simpl in Hb. apply orb_false_iff in Hb as [Hb1 Hb2].
  cbn [match_quantifiers]. apply repeat_quantifier_terminator; auto.
Qed.

Section Scan.
Variable re : pattern.
Variable repl : list ascii.

Lemma match_at_sound s n :
  match_at re s = Some n ->
  n <= length s /\
  forall prev,
    matches (insensitive re) (erase <$> quantifiers re) prev (take n s) (drop n s).
Proof. apply match_quantifiers_sound. Qed.

Lemma match_at_complete prev m rest :
  matches (insensitive re) (erase <$> quantifiers re) prev m rest ->
  is_Some (match_at re (m ++ rest)).
Proof. apply match_quantifiers_complete. Qed.

(** A match is still one when the text after it changes. *)
Lemma match_at_prefix p s2 y2 n :
  match_at re (p ++ y2) = Some n -> n <= length p ->
  is_Some (match_at re (p ++ s2)).
Proof.
  intros H Hn. apply match_at_sound in H as [_ Hm]. specialize (Hm None).
  rewrite take_app_le in Hm by exact Hn.
  pose proof (matches_context_free _ _ _ _ _ Hm (erase_free _) None (drop n p ++ s2))
    as Hm'.
  apply match_at_complete in Hm'. rewrite app_assoc, take_drop in Hm'. exact Hm'.
Qed.

Lemma scan_skip k : forall s,
  k <= length s -> scan re repl k s = scan re repl 0 (drop k s).
Proof.
  induction k as [|k IH]; intros s Hk; [rewrite drop_0; reflexivity|].
  destruct s as [|c s]; [simpl in Hk; lia|].
  simpl in Hk. simpl drop. rewrite <- IH by lia. reflexivity.
Qed.

Lemma scan_copy c s :
  match_at re (c :: s) = None -> scan re repl 0 (c :: s) = c :: scan re repl 0 s.
Proof. intros H. simpl. rewrite H. reflexivity. Qed.

Lemma scan_match s k :
  match_at re s = Some (S k) ->
  scan re repl 0 s = repl ++ scan re repl 0 (drop (S k) s).
Proof.
  intros H. destruct (match_at_sound _ _ H) as [Hlen _].
  rewrite <- scan_skip by exact Hlen.
  destruct s as [|c s]; simpl in *; [lia|]. rewrite H. reflexivity.
Qed.

(** [silent y]: the pattern matches at no position of [y]. *)
Fixpoint silent (y : list ascii) : Prop :=
  match_at re y = None /\
  match y with
  | [] => True
  | _ :: y' => silent y'
  end.

Lemma silent_head y : silent y -> match_at re y = None.
Proof. destruct y; simpl; tauto. Qed.

Lemma silent_suffix a : forall y, silent (a ++ y) -> silent y.
Proof.
  induction a as [|c a IH]; intros y H; [exact H|].
  apply IH. simpl in H. tauto.
Qed.

Lemma scan_silent y : silent y -> scan re repl 0 y = y.
Proof.
  induction y as [|c y IH]; intros [H Hq].
  - simpl. rewrite H. reflexivity.
  - rewrite scan_copy by exact H. f_equal. auto.
Qed.

(** A unit that the pattern rejects splits the text for it. *)
Lemma silent_app b u y :
  accepts re b = false -> silent u -> silent y -> silent (u ++ b :: y).
Proof.
  intros Hb Hu Hy. induction u as [|c u IH].
  - split; [|exact Hy].
    change (match_at re ([] ++ b :: y) = None).
    unfold match_at. rewrite match_quantifiers_terminator by exact Hb.
    exact (silent_head _ Hu).
  - destruct Hu as [Hc Hu]. split; [|exact (IH Hu)].
    change (match_at re ((c :: u) ++ b :: y) = None).
    unfold match_at. rewrite match_quantifiers_terminator by exact Hb.
    exact Hc.
Qed.

(** The output of the scan starts with the part of the input before the
    first match; then comes the replacement, or both end. *)
Lemma scan_until_match s :
  exists p s2 y2,
    s = p ++ s2 /\ scan re repl 0 s = p ++ y2 /\
    (y2 = [] \/ exists t, y2 = repl ++ t).
Proof.
  induction s as [|c s IH].
  - destruct (match_at re []) as [n|] eqn:H.
    + exists [], [], repl. split; [reflexivity|]. split.
      * simpl. rewrite H, app_nil_r. reflexivity.
      * right. exists []. rewrite app_nil_r. reflexivity.
    + exists [], [], []. split; [reflexivity|]. split; [|auto].
      simpl. rewrite H. reflexivity.
  - destruct (match_at re (c :: s)) as [n|] eqn:H.
    + exists [], (c :: s), (scan re repl 0 (c :: s)).
      split; [reflexivity|]. split; [reflexivity|]. right.
      cbn [scan]. rewrite H. eexists. reflexivity.
    + destruct IH as (p & s2 & y2 & Hs & Hy & Hcase).
      exists (c :: p), s2, y2. rewrite scan_copy by exact H.
      rewrite Hy. subst s. auto.
Qed.
End Scan.

(** A second pattern [F] stays silent on the output of a scan for [re]
    when it rejects the first unit [b] of the replacement, finds nothing
    in the replacement, and finds nothing in the input wherever [re]
    finds nothing. *)
Section SilentAfterScan.
Variables re F : pattern.
Variable b : ascii.
Variable repl' : list ascii.
Hypothesis F_b : accepts F b = false.
Hypothesis re_nonempty : forall s, match_at re s <> Some 0.
Hypothesis repl_silent : forall y, silent F y -> silent F ((b :: repl') ++ y).

Lemma silent_prefix p s2 y2 :
  (y2 = [] \/ head y2 = Some b) ->
  match_at F (p ++ s2) = None -> match_at F (p ++ y2) = None.
Proof.
  intros Hy H.
  destruct (match_at F (p ++ y2)) as [n|] eqn:H'; [|reflexivity].
  assert (Hn : n <= length p).
  { destruct (match_at_sound _ _ _ H') as [Hlen Hm]. specialize (Hm None).
    destruct (le_lt_dec n (length p)) as [|Hlt]; [assumption|exfalso].
    apply matches_alphabet in Hm.
    destruct Hy as [->|Hy]; [rewrite app_nil_r in Hlen; lia|].
    destruct y2 as [|b' y2]; [discriminate|]. injection Hy as ->.
    rewrite Forall_forall in Hm. specialize (Hm b).
    rewrite accepts_node_chars, F_b in Hm.
    enough (false = true) by discriminate. apply Hm.
    apply list_elem_of_lookup. exists (length p).
    rewrite lookup_take_lt by lia.
    rewrite lookup_app_r by lia. rewrite Nat.sub_diag. reflexivity. }
  destruct (match_at_prefix F p s2 y2 n H' Hn) as [x Hx]. congruence.
Qed.

Lemma silent_after_scan n : forall s,
  length s <= n ->
  (forall a t, s = a ++ t -> match_at re t = None -> match_at F t = None) ->
  silent F (scan re (b :: repl') 0 s).
Proof.
  induction n as [|n IH]; intros s Hlen Hdom.
  - destruct s; [|simpl in Hlen; lia].
    destruct (match_at re []) as [k|] eqn:H.
    + exfalso. destruct (match_at_sound _ _ _ H) as [Hk _].
      simpl in Hk. apply (re_nonempty []). rewrite H. f_equal. lia.
    + simpl. rewrite H. simpl. split; [|exact I].
      apply (Hdom [] []); auto.
  - destruct s as [|c s].
    { apply (IH []); [simpl; lia|exact Hdom]. }
    simpl in Hlen.
    destruct (match_at re (c :: s)) as [k|] eqn:H.
    + destruct k as [|k]; [exfalso; exact (re_nonempty _ H)|].
      rewrite (scan_match _ _ _ _ H).
      destruct (match_at_sound _ _ _ H) as [Hk _].
      apply repl_silent. apply IH.
      * rewrite length_drop. simpl in *. lia.
      * intros a t Ht Hre. apply (Hdom (take (S k) (c :: s) ++ a) t); [|exact Hre].
        rewrite <- app_assoc, <- Ht, take_drop. reflexivity.
    + rewrite scan_copy by exact H.
      destruct (scan_until_match re (b :: repl') s) as (p & s2 & y2 & Hs & Hy & Hcase).
      split.
      * rewrite Hy. apply (silent_prefix (c :: p) s2 y2).
        -- destruct Hcase as [->|[t ->]]; auto.
        -- simpl. rewrite <- Hs. apply (Hdom [] (c :: s)); auto.
      * apply IH; [lia|].
        intros a t Ht Hre. apply (Hdom (c :: a) t); [|exact Hre].
        rewrite Ht. reflexivity.
Qed.
End SilentAfterScan.

(** *** The two patterns *)

Definition EMAIL_REDACTED : list ascii := list_ascii_of_string "[EMAIL_REDACTED]".
Definition PHONE_REDACTED : list ascii := list_ascii_of_string "[PHONE_REDACTED]".

Definition redactPII_list (s : list ascii) : list ascii :=
  scan PHONE_PATTERN PHONE_REDACTED 0 (scan EMAIL_PATTERN EMAIL_REDACTED 0 s).

Lemma redactPII_as_list (text : string) :
  redactPII text = string_of_list_ascii (redactPII_list (list_ascii_of_string text)).
Proof.
  unfold redactPII, replace_global, redactPII_list.
  rewrite list_ascii_of_string_of_list_ascii. reflexivity.
Qed.

Lemma match_at_min_length re s n :
  match_at re s = Some n -> min_length (erase <$> quantifiers re) <= n.
Proof.
  intros H. destruct (match_at_sound _ _ _ H) as [Hlen Hm].
  specialize (Hm None). apply matches_min_length in Hm.
  rewrite length_take in Hm. lia.
Qed.

Lemma email_match_nonempty s : match_at EMAIL_PATTERN s <> Some 0.
Proof. intros H. apply match_at_min_length in H. simpl in H. lia. Qed.

Lemma phone_match_nonempty s : match_at PHONE_PATTERN s <> Some 0.
Proof. intros H. apply match_at_min_length in H. simpl in H. lia. Qed.

(** A replacement in square brackets: a pattern that rejects both
    brackets and finds nothing between them finds nothing in it. *)
Lemma placeholder_silent (F : pattern) (inner y : list ascii) :
  accepts F "[" = false -> accepts F "]" = false ->
  silent F inner -> silent F y ->
  silent F (("["%char :: inner ++ ["]"%char]) ++ y).
Proof.
  intros Hl Hr Hi Hy.
  change (silent F ([] ++ "["%char :: ((inner ++ ["]"%char]) ++ y))).
  apply silent_app; [exact Hl| |].
  - apply (silent_suffix F inner). rewrite app_nil_r. exact Hi.
  - rewrite <- app_assoc. apply silent_app; assumption.
Qed.

Lemma EMAIL_REDACTED_silent (F : pattern) (y : list ascii) :
  accepts F "[" = false -> accepts F "]" = false ->
  silent F (list_ascii_of_string "EMAIL_REDACTED") ->
  silent F y -> silent F (EMAIL_REDACTED ++ y).
Proof. apply placeholder_silent. Qed.

Lemma PHONE_REDACTED_silent (F : pattern) (y : list ascii) :
  accepts F "[" = false -> accepts F "]" = false ->
  silent F (list_ascii_of_string "PHONE_REDACTED") ->
  silent F y -> silent F (PHONE_REDACTED ++ y).
Proof. apply placeholder_silent. Qed.

Lemma silent_everywhere (F : pattern) (s a t : list ascii) :
  silent F s -> s = a ++ t -> match_at F t = None.
Proof. intros Hs ->. apply silent_head, (silent_suffix F a), Hs. Qed.

Lemma email_pass_silent (s : list ascii) :
  silent EMAIL_PATTERN (scan EMAIL_PATTERN EMAIL_REDACTED 0 s).
Proof.
  apply (silent_after_scan EMAIL_PATTERN EMAIL_PATTERN "[" (list_ascii_of_string "EMAIL_REDACTED]"))
    with (n := length s); auto.
  - apply email_match_nonempty.
  - intros y Hy. apply EMAIL_REDACTED_silent; auto. vm_compute. tauto.
Qed.

Lemma phone_pass_keeps_email_silent (y : list ascii) :
  silent EMAIL_PATTERN y -> silent EMAIL_PATTERN (scan PHONE_PATTERN PHONE_REDACTED 0 y).
Proof.
  intros Hq.
  apply (silent_after_scan PHONE_PATTERN EMAIL_PATTERN "[" (list_ascii_of_string "PHONE_REDACTED]"))
    with (n := length y); auto.
  - apply phone_match_nonempty.
  - intros z Hz. apply PHONE_REDACTED_silent; auto. vm_compute. tauto.
  - intros a t Ht _. exact (silent_everywhere _ _ _ _ Hq Ht).
Qed.

Lemma phone_pass_silent (y : list ascii) :
  silent PHONE_PATTERN (scan PHONE_PATTERN PHONE_REDACTED 0 y).
Proof.
  apply (silent_after_scan PHONE_PATTERN PHONE_PATTERN "[" (list_ascii_of_string "PHONE_REDACTED]"))
    with (n := length y); auto.
  - apply phone_match_nonempty.
  - intros z Hz. apply PHONE_REDACTED_silent; auto. vm_compute. tauto.
Qed.

Lemma redactPII_list_silent (s : list ascii) :
  silent EMAIL_PATTERN (redactPII_list s) /\ silent PHONE_PATTERN (redactPII_list s).
Proof.
  split.
  - apply phone_pass_keeps_email_silent, email_pass_silent.
  - apply phone_pass_silent.
Qed.

(** A quantifier that must match at least once leaves a unit of its
    class in every match. *)
Lemma matches_requires ic ns prev m rest :
  matches ic ns prev m rest ->
  forall items lo hi, Class items (S lo) hi ∈ ns ->
  Exists (fun c => class_matches ic items c = true) m.
Proof.
  induction 1 as [prev rest|items0 lo0 hi0 ns prev m1 m2 rest Hall Hlo Hhi Hm IH
                  |ns prev m rest Hb Hm IH]; intros items lo hi Hin.
  - apply elem_of_nil in Hin. contradiction.
  - apply Exists_app. apply elem_of_cons in Hin as [Heq|Hin].
    + injection Heq as <- <- <-. left.
      destruct m1 as [|c m1]; [simpl in Hlo; lia|].
      apply Forall_cons in Hall as [Hc _]. apply Exists_cons_hd. exact Hc.
    + right. eapply IH. exact Hin.
  - apply elem_of_cons in Hin as [Heq|Hin]; [discriminate|]. eapply IH. exact Hin.
Qed.

Lemma silent_without (re : pattern) (P : ascii -> Prop) (s : list ascii) :
  (forall t n, match_at re t = Some n -> Exists P (take n t)) ->
  Forall (fun c => ~ P c) s -> silent re s.
Proof.
  intros Hre. induction s as [|c s IH]; intros Hs.
  - split; [|exact I]. destruct (match_at re []) as [n|] eqn:H; [|reflexivity].
    apply Hre in H. rewrite take_nil in H. inversion H.
  - split; [|apply IH; apply Forall_cons in Hs; tauto].
    destruct (match_at re (c :: s)) as [n|] eqn:H; [|reflexivity].
    apply Hre in H. exfalso. apply Exists_exists in H as (x & Hx & HP).
    rewrite Forall_forall in Hs. apply (Hs x); [|exact HP].
    eapply subseteq_take. exact Hx.
Qed.

Lemma email_match_has_at_sign t n :
  match_at EMAIL_PATTERN t = Some n -> Exists (fun c => c = "@"%char) (take n t).
Proof.
  intros H. destruct (match_at_sound _ _ _ H) as [_ Hm].
  eapply Exists_impl.
  - eapply (matches_requires _ _ _ _ _ (Hm None) [Chr "@"] 0 (Some 1)).
    simpl. set_solver.
  - intros c Hc. apply at_sign_only. exact Hc.
Qed.

Lemma phone_match_has_digit t n :
  match_at PHONE_PATTERN t = Some n -> Exists (fun c => is_digit c = true) (take n t).
Proof.
  intros H. destruct (match_at_sound _ _ _ H) as [_ Hm].
  eapply Exists_impl.
  - eapply (matches_requires _ _ _ _ _ (Hm None) [Digit] 0 (Some 4)).
    simpl. set_solver.
  - intros c Hc. simpl in Hc. rewrite orb_false_r in Hc. exact Hc.
Qed.

(** Three digits in a row are a match of the phone pattern: one for each
    of its three groups of digits, everything else left out. *)
Lemma three_digits_match (d1 d2 d3 : ascii) (rest : list ascii) :
  is_digit d1 = true -> is_digit d2 = true -> is_digit d3 = true ->
  is_Some (match_at PHONE_PATTERN (d1 :: d2 :: d3 :: rest)).
Proof.
  intros H1 H2 H3.
  assert (Hd : forall d, is_digit d = true -> class_matches false [Digit] d = true).
  { intros d Hd. simpl. rewrite Hd. reflexivity. }
  apply (match_at_complete PHONE_PATTERN None [d1; d2; d3] rest).
  apply (matches_class false _ _ _ _ _ [] [d1; d2; d3]); [constructor|simpl; lia..|].
  apply (matches_class false _ _ _ _ _ [d1] [d2; d3]);
    [repeat constructor; auto|simpl; lia..|].
  apply (matches_class false _ _ _ _ _ [] [d2; d3]); [constructor|simpl; lia..|].
  apply (matches_class false _ _ _ _ _ [] [d2; d3]); [constructor|simpl; lia..|].
  apply (matches_class false _ _ _ _ _ [d2] [d3]);
    [repeat constructor; auto|simpl; lia..|].
  apply (matches_class false _ _ _ _ _ [] [d3]); [constructor|simpl; lia..|].
  apply (matches_class false _ _ _ _ _ [] [d3]); [constructor|simpl; lia..|].
  apply (matches_class false _ _ _ _ _ [d3] []);
    [repeat constructor; auto|simpl; lia..|].
  constructor.
Qed.

(** *** [String.prototype.includes] *)

Lemma prefix_app (t s : string) :
  String.prefix t s = true <->
  exists b, list_ascii_of_string s = list_ascii_of_string t ++ b.
Proof.
  revert s. induction t as [|c t IH]; intros s.
  - simpl. split; [intros _; eexists; reflexivity|]. destruct s; reflexivity.
  - destruct s as [|d s]; simpl.
    + split; [discriminate|]. intros [b Hb]. discriminate.
    + destruct (ascii_dec c d) as [->|Hne].
      * rewrite IH. split; intros [b Hb]; exists b; [f_equal; exact Hb|].
        injection Hb as Hb. exact Hb.
      * split; [discriminate|]. intros [b Hb]. congruence.
Qed.

Lemma includes_app (s t : string) :
  includes s t = true <->
  exists a b, list_ascii_of_string s = a ++ list_ascii_of_string t ++ b.
Proof.
  induction s as [|c s IH].
  - cbn [includes]. rewrite orb_false_r, prefix_app. split.
    + intros [b Hb]. exists [], b. exact Hb.
    + intros (a & b & Hab). destruct a; [exists b; exact Hab|discriminate].
  - cbn [includes]. rewrite orb_true_iff, prefix_app, IH. split.
    + intros [[b Hb]|(a & b & Hab)].
      * exists [], b. exact Hb.
      * exists (c :: a), b. simpl. f_equal. exact Hab.
    + intros (a & b & Hab). destruct a as [|c' a].
      * left. exists b. exact Hab.
      * right. injection Hab as _ Hab. exists a, b. exact Hab.
Qed.

(** A string that includes [t] includes what [t] includes. *)
Lemma includes_trans (s t u : string) :
  includes s t = true -> includes t u = true -> includes s u = true.
Proof.
  rewrite !includes_app. intros (a & b & Hs) (a' & b' & Ht).
  rewrite Ht in Hs.
  exists (a ++ a'), (b' ++ b). rewrite Hs, <- !app_assoc. reflexivity.
Qed.

End TanagaFacts.

Import TanagaFacts.

Lemma silent_of_suffixes (F : Tanaga.pattern) (s : list ascii) :
  (forall a t, s = (a ++ t)%list -> Tanaga.match_at F t = None) -> silent F s.
Proof.
  induction s as [|c s IH]; intros H.
  - split; [|exact I]. apply (H [] []). reflexivity.
  - split; [apply (H [] (c :: s)); reflexivity|].
    apply IH. intros a t Hs. apply (H (c :: a) t). rewrite Hs. reflexivity.
Qed.

Lemma string_split (text : string) (a t : list ascii) :
  list_ascii_of_string text = (a ++ t)%list ->
  text = string_of_list_ascii a ++ string_of_list_ascii t.
Proof.
  intros H. rewrite <- string_of_list_ascii_app, <- H.
  symmetry. apply string_of_list_ascii_of_string.
Qed.

Lemma redactPII_silent_suffix (text a b : string) :
  Tanaga.redactPII text = a ++ b ->
  Tanaga.match_at Tanaga.EMAIL_PATTERN (list_ascii_of_string b) = None /\
  Tanaga.match_at Tanaga.PHONE_PATTERN (list_ascii_of_string b) = None.
Proof.
  intros Hab. rewrite redactPII_as_list in Hab.
  apply (f_equal list_ascii_of_string) in Hab.
  rewrite list_ascii_of_string_of_list_ascii, list_ascii_of_string_app in Hab.
  destruct (redactPII_list_silent (list_ascii_of_string text)) as [He Hp].
  split; eapply silent_everywhere; eauto.
Qed.

(** What leaves [redactPII] matches neither pattern: at no position of
    the redacted text does an address or a phone number of the patterns
    start. *)
Theorem redactPII_leaves_no_match (text a b : string) :
  Tanaga.redactPII text = a ++ b ->
  Tanaga.match_at Tanaga.EMAIL_PATTERN (list_ascii_of_string b) = None /\
  Tanaga.match_at Tanaga.PHONE_PATTERN (list_ascii_of_string b) = None.
Proof.
  intros Hab.
  assert (Hl : redactPII_list (list_ascii_of_string text)
               = (list_ascii_of_string a ++ list_ascii_of_string b)%list).
  { rewrite <- list_ascii_of_string_app, <- Hab, redactPII_as_list.
    symmetry. apply list_ascii_of_string_of_list_ascii. }
  destruct (redactPII_list_silent (list_ascii_of_string text)) as [He Hp].
  split.
  - exact (silent_everywhere _ _ _ _ He Hl).
  - exact (silent_everywhere _ _ _ _ Hp Hl).
Qed.

Lemma redactPII_leaves_no_match_witness :
  Tanaga.match_at Tanaga.EMAIL_PATTERN (list_ascii_of_string "[EMAIL_REDACTED] in [PHONE_REDACTED]")
  = None /\
  Tanaga.match_at Tanaga.PHONE_PATTERN (list_ascii_of_string "[EMAIL_REDACTED] in [PHONE_REDACTED]")
  = None.
Proof.
  apply (redactPII_leaves_no_match "Ask ada@example.org in 2024" "Ask "
           "[EMAIL_REDACTED] in [PHONE_REDACTED]").
  reflexivity.
Defined.

(** Redacting a redacted text changes nothing. *)
Theorem redactPII_idempotent (text : string) :
  Tanaga.redactPII (Tanaga.redactPII text) = Tanaga.redactPII text.
Proof.
  rewrite (redactPII_as_list (Tanaga.redactPII text)), (redactPII_as_list text).
  rewrite list_ascii_of_string_of_list_ascii. f_equal.
  destruct (redactPII_list_silent (list_ascii_of_string text)) as [He Hp].
  unfold redactPII_list at 1.
  rewrite (scan_silent _ _ _ He), (scan_silent _ _ _ Hp). reflexivity.
Qed.

(** The texts that [redactPII] returns as they are, are exactly those in
    which neither pattern matches anywhere; among them every text with
    no at sign and no digit. *)
Theorem redactPII_fixed_points (text : string) :
  (Tanaga.redactPII text = text <->
   forall a b, text = a ++ b ->
     Tanaga.match_at Tanaga.EMAIL_PATTERN (list_ascii_of_string b) = None /\
     Tanaga.match_at Tanaga.PHONE_PATTERN (list_ascii_of_string b) = None) /\
  (Forall (fun c => c <> "@"%char /\ is_digit c = false) (list_ascii_of_string text) ->
   Tanaga.redactPII text = text).
Proof.
  assert (Hfix : silent Tanaga.EMAIL_PATTERN (list_ascii_of_string text) ->
                 silent Tanaga.PHONE_PATTERN (list_ascii_of_string text) ->
                 Tanaga.redactPII text = text).
  { intros He Hp. rewrite redactPII_as_list. unfold redactPII_list.
    rewrite (scan_silent _ _ _ He), (scan_silent _ _ _ Hp).
    apply string_of_list_ascii_of_string. }
  split; [split|].
  - intros Hid a b Hab. apply (redactPII_silent_suffix text a b). congruence.
  - intros H. apply Hfix; apply silent_of_suffixes; intros a t Hs;
      apply string_split in Hs; apply H in Hs;
      rewrite list_ascii_of_string_of_list_ascii in Hs; tauto.
  - intros Ht. apply Hfix.
    + apply (silent_without _ (fun c => c = "@"%char)).
      * apply email_match_has_at_sign.
      * eapply Forall_impl; [exact Ht|]. simpl. tauto.
    + apply (silent_without _ (fun c => is_digit c = true)).
      * apply phone_match_has_digit.
      * eapply Forall_impl; [exact Ht|]. simpl. intros c [_ Hc]. congruence.
Qed.

(** Whether a text holds three digits in a row. *)
Fixpoint three_digits_in (s : list ascii) : bool :=
  match s with
  | d1 :: s' =>
      match s' with
      | d2 :: d3 :: _ => is_digit d1 && is_digit d2 && is_digit d3
      | _ => false
      end || three_digits_in s'
  | [] => false
  end.

Lemma silent_no_three_digits (s : list ascii) :
  silent Tanaga.PHONE_PATTERN s -> three_digits_in s = false.
Proof.
  induction s as [|d1 s IH]; [reflexivity|]. intros [H Hs].
  cbn [three_digits_in]. rewrite (IH Hs), orb_false_r.
  destruct s as [|d2 [|d3 rest]]; try reflexivity.
  destruct (is_digit d1) eqn:H1, (is_digit d2) eqn:H2, (is_digit d3) eqn:H3;
    try reflexivity.
  destruct (three_digits_match d1 d2 d3 rest H1 H2 H3) as [n Hn]. congruence.
Qed.

(** The phone pattern asks for three groups of digits and for nothing
    between them, so any three digits in a row are a phone number to it:
    no redacted text holds three digits in a row, and a text that holds
    them (a year, an amount) does not come back as it was. *)
Theorem redactPII_leaves_no_three_digits (text : string) :
  three_digits_in (list_ascii_of_string (Tanaga.redactPII text)) = false /\
  (three_digits_in (list_ascii_of_string text) = true ->
   Tanaga.redactPII text <> text).
Proof.
  assert (H : three_digits_in (list_ascii_of_string (Tanaga.redactPII text)) = false).
  { rewrite redactPII_as_list, list_ascii_of_string_of_list_ascii.
    apply silent_no_three_digits, redactPII_list_silent. }
  split; [exact H|]. intros Ht Heq. rewrite Heq in H. congruence.
Qed.

(** Two of the four English triggers and one of the five Tagalog
    triggers never decide: the language is English when the lower-cased
    input includes "english" or "sa ingles", otherwise Tagalog when it
    includes "tagalog", "filipino", "tanaga" or "tula", otherwise
    English; and the letter case of the input plays no part. *)
Theorem detectLanguage_triggers (input : string) :
  let lower := toLowerCase input in
  Tanaga.detectLanguage input =
    (if Tanaga.includes lower "english" || Tanaga.includes lower "sa ingles"
     then "English"
     else if Tanaga.includes lower "tagalog" || Tanaga.includes lower "filipino"
             || Tanaga.includes lower "tanaga" || Tanaga.includes lower "tula"
     then "Tagalog"
     else "English") /\
  Tanaga.detectLanguage lower = Tanaga.detectLanguage input.
Proof.
  intros lower. split.
  - unfold Tanaga.detectLanguage. fold lower.
    cbn [existsb Tanaga.englishTriggers Tanaga.tagalogTriggers].
    assert (H1 : Tanaga.includes lower "in english" = true ->
                 Tanaga.includes lower "english" = true).
    { intros H. apply (includes_trans _ _ _ H). reflexivity. }
    assert (H2 : Tanaga.includes lower "english version" = true ->
                 Tanaga.includes lower "english" = true).
    { intros H. apply (includes_trans _ _ _ H). reflexivity. }
    assert (H3 : Tanaga.includes lower "sa tagalog" = true ->
                 Tanaga.includes lower "tagalog" = true).
    { intros H. apply (includes_trans _ _ _ H). reflexivity. }
    destruct (Tanaga.includes lower "in english"),
             (Tanaga.includes lower "english version"),
             (Tanaga.includes lower "english"),
             (Tanaga.includes lower "sa ingles"); try reflexivity;
      try (discriminate (H1 eq_refl)); try (discriminate (H2 eq_refl)).
    cbn [orb].
    destruct (Tanaga.includes lower "sa tagalog"),
             (Tanaga.includes lower "tagalog"),
             (Tanaga.includes lower "filipino"),
             (Tanaga.includes lower "tanaga"),
             (Tanaga.includes lower "tula"); try reflexivity;
      discriminate (H3 eq_refl).
  - unfold Tanaga.detectLanguage. subst lower.
    rewrite toLowerCase_idempotent. reflexivity.
Qed.

(** The generate handler always answers, and asks the completion service
    at most once: never without an API key, and then with the theme after
    redaction, in which neither pattern matches anywhere, with the system
    prompt of the language that the user prompt names.  It answers 200
    exactly when the service gave a text, with that text trimmed. *)
Theorem generate_sends_redacted_theme `{Tanaga.Completions}
    (key input : option string) :
  let g := Tanaga.generate key input in
  let safe := Tanaga.redactPII (or_else input "") in
  let language := Tanaga.detectLanguage safe in
  (forall a b, safe = a ++ b ->
     Tanaga.match_at Tanaga.EMAIL_PATTERN (list_ascii_of_string b) = None /\
     Tanaga.match_at Tanaga.PHONE_PATTERN (list_ascii_of_string b) = None) /\
  (language = "English" \/ language = "Tagalog") /\
  (Tanaga.requests g = [] /\ Contact.falsy key = true /\
   Tanaga.generate_status g = 500 \/
   exists r, Tanaga.requests g = [r] /\ Contact.falsy key = false /\
     Tanaga.user_content r = Tanaga.userContent language safe /\
     Tanaga.system_content r =
       (if String.eqb language "Tagalog" then Tanaga.tagalog_prompt
        else Tanaga.english_prompt) /\
     match Tanaga.chat r with
     | Some content =>
         Tanaga.generate_status g = 200 /\
         Tanaga.generate_json g = Tanaga.Poem (Contact.trim content)
     | None =>
         Tanaga.generate_status g = 500 /\
         Tanaga.generate_json g
         = Tanaga.GenerateError "The poetic engine is currently unavailable."
     end).
Proof.
  intros g safe language. split; [|split].
  - intros a b Hab. exact (redactPII_silent_suffix _ a b Hab).
  - subst language. unfold Tanaga.detectLanguage.
    destruct (existsb _ _); [auto|]. destruct (existsb _ _); auto.
  - subst g. unfold Tanaga.generate. fold safe. fold language.
    destruct (Contact.falsy key); [left; auto|]. right.
    eexists. split; [|split; [reflexivity|]].
    + destruct (Tanaga.chat _); reflexivity.
    + cbn [Tanaga.user_content Tanaga.system_content].
      split; [reflexivity|]. split; [reflexivity|].
      destruct (Tanaga.chat _); split; reflexivity.
Qed.

Lemma redactPII_fixed_points_witness :
  Tanaga.redactPII "Isang tula tungkol sa dagat" = "Isang tula tungkol sa dagat".
Proof.
  apply (proj2 (redactPII_fixed_points "Isang tula tungkol sa dagat")).
  repeat (constructor; [split; [discriminate|reflexivity]|]). constructor.
Defined.
